(** * Milcodec: the covert-channel audio codec of MonarchCastle

    A shallow embedding of [src/Milcodec/milcodec_studio.py]
    ([CryptoHelper], [SteganographyEngine]) and of
    [src/Milcodec/milcodec_masker.py] ([DSSSMasker]).

    Conventions of the embedding:
    - a Python [bytes] object is a [list Z] whose elements are in [0, 256);
    - a Python [str] is the list of its code points;
    - an exception is a value of [exn], carried by [result];
    - [os.urandom] reads from an explicit entropy stream that is threaded
      through the calls;
    - numpy arrays of floats are lists of real numbers: rounding is not
      modelled, the arithmetic is the exact one. *)

From Stdlib Require Import ZArith List Bool Lia Arith PeanoNat.
From Stdlib Require Import Reals Lra.
Import ListNotations.

Open Scope Z_scope.

(* ================================================================== *)
(** ** Exceptions and results *)

Inductive exn : Type :=
| InvalidMilcodecData    (* ValueError("Invalid Milcodec encrypted data") *)
| ZeroDivisionError
| UnicodeEncodeError
| UnicodeDecodeError
| OverflowError
| CipherRefused          (* ValueError of the constructor of a cipher *)
| ZeroSizeReduction.     (* ValueError of np.max on an empty array *)

Inductive result (A : Type) : Type :=
| Ok (a : A)
| Raise (e : exn).

Arguments Ok {A} a.
Arguments Raise {A} e.

Definition bind {A B} (r : result A) (k : A -> result B) : result B :=
  match r with
  | Ok a => k a
  | Raise e => Raise e
  end.

Notation "x <- r ;; k" := (bind r (fun x => k))
  (at level 61, r at next level, right associativity).

Definition bytes := list Z.
Definition str := list Z.

Definition is_byte (b : Z) : Prop := 0 <= b < 256.
Definition is_bytes (bs : bytes) : Prop := Forall is_byte bs.

(** [data[lo:hi]] for [0 <= lo], [0 <= hi]: never raises, clips at the end. *)
Definition slice {A} (l : list A) (lo hi : nat) : list A :=
  firstn (hi - lo) (skipn lo l).

(** [bytes.startswith] *)
Fixpoint startswith (data prefix : bytes) : bool :=
  match prefix, data with
  | [], _ => true
  | _ :: _, [] => false
  | p :: prefix', d :: data' => (d =? p) && startswith data' prefix'
  end.

(* ================================================================== *)
(** ** The UTF-8 codec of [str.encode('utf-8')] and [bytes.decode('utf-8')] *)

Definition is_surrogate (c : Z) : bool := (0xD800 <=? c) && (c <=? 0xDFFF).

(** The code points a [str] can be encoded from. *)
Definition scalar_value (c : Z) : Prop :=
  0 <= c <= 0x10FFFF /\ is_surrogate c = false.

Definition utf8_encode_cp (c : Z) : result bytes :=
  if c <? 0 then Raise UnicodeEncodeError
  else if c <? 0x80 then Ok [c]
  else if c <? 0x800 then Ok [0xC0 + c / 64; 0x80 + c mod 64]
  else if c <? 0x10000 then
    if is_surrogate c then Raise UnicodeEncodeError
    else Ok [0xE0 + c / 4096; 0x80 + (c / 64) mod 64; 0x80 + c mod 64]
  else if c <=? 0x10FFFF then
    Ok [0xF0 + c / 262144; 0x80 + (c / 4096) mod 64;
        0x80 + (c / 64) mod 64; 0x80 + c mod 64]
  else Raise UnicodeEncodeError.

Fixpoint utf8_encode (s : str) : result bytes :=
  match s with
  | [] => Ok []
  | c :: s' =>
      b <- utf8_encode_cp c ;;
      bs <- utf8_encode s' ;;
      Ok (b ++ bs)
  end.

Definition is_cont (b : Z) : bool := (0x80 <=? b) && (b <=? 0xBF).

Fixpoint utf8_decode (bs : bytes) : result str :=
  match bs with
  | [] => Ok []
  | b0 :: r0 =>
      if (0 <=? b0) && (b0 <? 0x80) then
        s <- utf8_decode r0 ;; Ok (b0 :: s)
      else if (0xC2 <=? b0) && (b0 <=? 0xDF) then
        match r0 with
        | b1 :: r1 =>
            if is_cont b1 then
              s <- utf8_decode r1 ;;
              Ok ((b0 - 0xC0) * 64 + (b1 - 0x80) :: s)
            else Raise UnicodeDecodeError
        | _ => Raise UnicodeDecodeError
        end
      else if (0xE0 <=? b0) && (b0 <=? 0xEF) then
        match r0 with
        | b1 :: b2 :: r2 =>
            let c := (b0 - 0xE0) * 4096 + (b1 - 0x80) * 64 + (b2 - 0x80) in
            if is_cont b1 && is_cont b2 && (0x800 <=? c)
               && negb (is_surrogate c) then
              s <- utf8_decode r2 ;; Ok (c :: s)
            else Raise UnicodeDecodeError
        | _ => Raise UnicodeDecodeError
        end
      else if (0xF0 <=? b0) && (b0 <=? 0xF4) then
        match r0 with
        | b1 :: b2 :: b3 :: r3 =>
            let c := (b0 - 0xF0) * 262144 + (b1 - 0x80) * 4096
                     + (b2 - 0x80) * 64 + (b3 - 0x80) in
            if is_cont b1 && is_cont b2 && is_cont b3
               && (0x10000 <=? c) && (c <=? 0x10FFFF) then
              s <- utf8_decode r3 ;; Ok (c :: s)
            else Raise UnicodeDecodeError
        | _ => Raise UnicodeDecodeError
        end
      else Raise UnicodeDecodeError
  end.

(** [s * n] on strings *)
Fixpoint str_repeat (s : str) (n : nat) : str :=
  match n with
  | O => []
  | S n' => s ++ str_repeat s n'
  end.

(* ================================================================== *)
(** ** [CryptoHelper] (milcodec_studio.py) *)

(** b"MILCODEC_V2" *)
Definition MAGIC_HEADER : bytes :=
  [77; 73; 76; 67; 79; 68; 69; 67; 95; 86; 50].

(** The entropy behind [os.urandom]: an unbounded stream of bytes. *)
Definition entropy := nat -> Z.

Definition os_urandom (n : nat) (e : entropy) : bytes * entropy :=
  (map e (seq 0 n), fun i => e (n + i)%nat).

(** [bytes([b ^ key[i % len(key)] for i, b in enumerate(data)])], the
    comprehension started at index [i]. *)
Fixpoint xor_with_key (key : bytes) (i : nat) (data : bytes) : result bytes :=
  match data with
  | [] => Ok []
  | b :: data' =>
      if (length key =? 0)%nat then Raise ZeroDivisionError
      else
        rest <- xor_with_key key (S i) data' ;;
        Ok (Z.lxor b (nth (i mod length key) key 0) :: rest)
  end.

(** [encryptor.update] / [decryptor.update] of a stream cipher: the data
    XOR-ed with a keystream, here from position [i]. *)
Fixpoint xor_with_stream (ks : nat -> Z) (i : nat) (data : bytes) : bytes :=
  match data with
  | [] => []
  | b :: data' => Z.lxor b (ks i) :: xor_with_stream ks (S i) data'
  end.

(** What the module finds when it is imported: whether the [cryptography]
    package is there, and the two primitives it takes from it. *)
Record crypto_backend : Type := {
  (** Whether the [cryptography] package could be imported. *)
  CRYPTO_AVAILABLE : bool;
  (** [PBKDF2HMAC(SHA256, length=32, salt, iterations=100000).derive(pw)],
      as a function of the salt and of the encoded password. *)
  PBKDF2HMAC_derive : bytes -> bytes -> bytes;
  (** [Cipher(algorithms.ChaCha20(key, nonce), mode=None, ...)]: a stream
      cipher, given by its keystream, unless the constructor refuses the
      key or the nonce and raises. *)
  ChaCha20 : bytes -> bytes -> option (nat -> Z)
}.

(** A cipher that takes the 12-byte nonces that [encrypt] draws.  (The
    package's own does not, see [takes_nonce_16_only] below; this is the
    proviso under which the library branch is followed past the
    constructor.) *)
Definition accepts_nonce_12 (lib : crypto_backend) : Prop :=
  forall key nonce, length nonce = 12%nat -> ChaCha20 lib key nonce <> None.

(** The salt and the nonce that [encrypt] draws from the entropy [e], and
    the entropy it leaves. *)
Definition salt_of (e : entropy) : bytes := map e (seq 0 16).
Definition nonce_of (e : entropy) : bytes := map e (seq 16 12).
Definition entropy_after (e : entropy) : entropy := fun i => e (28 + i)%nat.

Section CryptoHelper.

Variable lib : crypto_backend.

Definition derive_key (password : str) (salt : option bytes) (e : entropy)
  : result (bytes * bytes * entropy) :=
  let '(salt, e) :=
    match salt with
    | None => os_urandom 16 e
    | Some s => (s, e)
    end in
  if negb (CRYPTO_AVAILABLE lib) then
    key <- utf8_encode (firstn 32 (str_repeat password 32)) ;;
    Ok (key, salt, e)
  else
    pw <- utf8_encode password ;;
    Ok (PBKDF2HMAC_derive lib salt pw, salt, e).

Definition encrypt (plaintext password : str) (e : entropy)
  : result (bytes * entropy) :=
  ks <- derive_key password None e ;;
  let '(key, salt, e) := ks in
  let '(nonce, e) := os_urandom 12 e in
  if negb (CRYPTO_AVAILABLE lib) then
    data <- utf8_encode plaintext ;;
    encrypted <- xor_with_key key 0 data ;;
    Ok (MAGIC_HEADER ++ salt ++ nonce ++ encrypted, e)
  else
    match ChaCha20 lib key nonce with
    | None => Raise CipherRefused
    | Some keystream =>
        data <- utf8_encode plaintext ;;
        let ciphertext := xor_with_stream keystream 0 data in
        Ok (MAGIC_HEADER ++ salt ++ nonce ++ ciphertext, e)
    end.

Definition decrypt (encrypted : bytes) (password : str) (e : entropy)
  : result (str * entropy) :=
  if negb (startswith encrypted MAGIC_HEADER) then Raise InvalidMilcodecData
  else
    let data := skipn (length MAGIC_HEADER) encrypted in
    let salt := slice data 0 16 in
    let nonce := slice data 16 28 in
    let ciphertext := skipn 28 data in
    ks <- derive_key password (Some salt) e ;;
    let '(key, _, e) := ks in
    if negb (CRYPTO_AVAILABLE lib) then
      decrypted <- xor_with_key key 0 ciphertext ;;
      s <- utf8_decode decrypted ;;
      Ok (s, e)
    else
      match ChaCha20 lib key nonce with
      | None => Raise CipherRefused
      | Some keystream =>
          let plaintext := xor_with_stream keystream 0 ciphertext in
          s <- utf8_decode plaintext ;;
          Ok (s, e)
      end.

End CryptoHelper.

(** The module as it is imported where the [cryptography] package is
    absent: the two primitives are never called. *)
Definition no_cryptography : crypto_backend :=
  {| CRYPTO_AVAILABLE := false;
     PBKDF2HMAC_derive := fun _ _ => [];
     ChaCha20 := fun _ _ => None |}.

(** A stand-in for the package, for examples of the other branch: the key
    is the salt followed by the password, the keystream counts up from the
    sum of the key and nonce bytes, and nonces of 12 bytes only are taken. *)
Definition toy_cryptography : crypto_backend :=
  {| CRYPTO_AVAILABLE := true;
     PBKDF2HMAC_derive := fun salt pw => salt ++ pw;
     ChaCha20 := fun key nonce =>
       if (length nonce =? 12)%nat
       then Some (fun i => (fold_right Z.add 0 (key ++ nonce) + Z.of_nat i) mod 256)
       else None |}.

(** An entropy stream for examples: the bytes 0, 1, 2, ... *)
Definition counting_entropy : entropy := fun i => Z.of_nat i mod 256.

(* ================================================================== *)
(** ** The numpy operations the codec uses, on lists of reals *)

Open Scope R_scope.

Definition signal := list R.

(** [np.sum] *)
Definition np_sum (l : signal) : R := fold_right Rplus 0 l.

(** [np.mean].  On an empty array numpy warns and returns nan, it does not
    raise; here the mean of no samples is the quotient 0 / 0, and the one
    test the code makes on such a mean, [> 0], fails on it as it does on a
    nan. *)
Definition np_mean (l : signal) : R := np_sum l / INR (length l).

(** [np.max(np.abs(a))]: numpy raises a ValueError on a zero-size array. *)
Definition np_max_abs (l : signal) : result R :=
  match l with
  | [] => Raise ZeroSizeReduction
  | x :: l' => Ok (fold_left Rmax (map Rabs l') (Rabs x))
  end.

(** [np.repeat(a, n)] *)
Definition np_repeat (a : signal) (n : nat) : signal :=
  flat_map (fun x => repeat x n) a.

(** [np.linspace(start, stop, num)] (end point included) *)
Definition np_linspace (start stop : R) (num : nat) : signal :=
  map (fun i => start + INR i * ((stop - start) / INR (num - 1)))
      (seq 0 num).

(** [a * b] on two arrays of one length *)
Fixpoint vec_mul (a b : signal) : signal :=
  match a, b with
  | x :: a', y :: b' => x * y :: vec_mul a' b'
  | _, _ => []
  end.

(** [a * k] and [a / k] for a scalar [k] *)
Definition vec_scale (a : signal) (k : R) : signal := map (fun x => x * k) a.
Definition vec_div (a : signal) (k : R) : signal := map (fun x => x / k) a.

(** [output[:len(m)] += m] for [len(m) <= len(output)] *)
Fixpoint add_prefix (output m : signal) : signal :=
  match output, m with
  | o :: output', x :: m' => o + x :: add_prefix output' m'
  | _, _ => output
  end.

(** [np.sin(2 * np.pi * freq * t)] *)
Definition carrier_of (freq : R) (t : signal) : signal :=
  map (fun ti => sin (2 * PI * freq * ti)) t.

(** [max(-30, min(-10, snr_db))] *)
Definition clamp_snr (snr_db : R) : R := Rmax (-30) (Rmin (-10) snr_db).

(** [10 ** (snr_db / 10)] *)
Definition snr_linear_of (snr_db : R) : R := Rpower 10 (snr_db / 10).

(* ================================================================== *)
(** ** Module constants (milcodec_masker.py) *)

Definition SAMPLE_RATE : Z := 44100.
Definition CARRIER_FREQ : R := 12000.

Definition PNC_BITS : list Z :=
  [1; 1; 1; 1; 1; 0; 0; 0; 1; 1; 0; 1; 1; 1; 0; 1;
   0; 1; 0; 0; 0; 0; 1; 0; 0; 1; 0; 1; 1; 0; 0]%Z.

(** [np.array([...]) * 2 - 1] *)
Definition PNC_KEY : signal := map (fun b => IZR b * 2 - 1) PNC_BITS.

Definition SPREADING_FACTOR : nat := length PNC_KEY.

(** [int(sample_rate * CHIP_DURATION)] with [CHIP_DURATION = 0.001], for the
    positive sample rates of audio files: the product truncated.  (Below
    -999 the product is negative and [np.repeat] refuses it; the count here
    is for sample rates from 1 on.) *)
Definition samples_per_chip_of (sample_rate : Z) : nat :=
  Z.to_nat (Z.quot sample_rate 1000).

(* ================================================================== *)
(** ** Bits and bytes (both files have the same loops) *)

(** [for i in range(8): bits.append((byte >> (7 - i)) & 1)] *)
Definition byte_bits (byte : Z) : list Z :=
  map (fun i => Z.land (Z.shiftr byte (7 - i)) 1)
      [0; 1; 2; 3; 4; 5; 6; 7]%Z.

Definition bytes_to_bits (data : bytes) : list Z := flat_map byte_bits data.

(** The loop [for i in range(0, len(bits), 8)] that stops at the first
    incomplete group; [sum(b << (7 - j) for j, b in enumerate(byte_bits))]. *)
Fixpoint bits_to_bytes (bits : list Z) : bytes :=
  match bits with
  | b0 :: b1 :: b2 :: b3 :: b4 :: b5 :: b6 :: b7 :: rest =>
      (0 + Z.shiftl b0 7 + Z.shiftl b1 6 + Z.shiftl b2 5 + Z.shiftl b3 4
       + Z.shiftl b4 3 + Z.shiftl b5 2 + Z.shiftl b6 1 + Z.shiftl b7 0)%Z
      :: bits_to_bytes rest
  | _ => []
  end.

Definition is_bit (b : Z) : Prop := (b = 0 \/ b = 1)%Z.

(** One byte back from its eight bits: the check that the two loops agree. *)
Definition byte_of_bits_ok (byte : Z) : bool :=
  match bits_to_bytes (byte_bits byte) with
  | [b] => (b =? byte)%Z
  | _ => false
  end.

(** [n.to_bytes(4, 'big')] *)
Definition to_bytes_4_big (n : Z) : result bytes :=
  if (n <? 0)%Z || (4294967296 <=? n)%Z then Raise OverflowError
  else Ok [(n / 16777216) mod 256; (n / 65536) mod 256;
           (n / 256) mod 256; n mod 256]%Z.

(** [int.from_bytes(b, 'big')] *)
Definition from_bytes_big (b : bytes) : Z :=
  fold_left (fun acc x => acc * 256 + x)%Z b 0%Z.

(** [scalar = 1 if bit == 1 else -1; spread.extend(PNC_KEY * scalar)] *)
Definition bit_scalar (bit : Z) : R := if (bit =? 1)%Z then 1 else -1.

Definition spread_bits (bits : list Z) : signal :=
  flat_map (fun bit => vec_scale PNC_KEY (bit_scalar bit)) bits.

(** The chips of one PN-length chunk: the mean of each chip-sized block. *)
Definition chips_of (chunk : signal) (samples_per_chip : nat) : signal :=
  map (fun i => np_mean (slice chunk (i * samples_per_chip)
                               (i * samples_per_chip + samples_per_chip)))
      (seq 0 SPREADING_FACTOR).

(** [correlation = np.sum(chips * PNC_KEY); bit = 1 if correlation > 0 else 0] *)
Definition decide_bit (chunk : signal) (samples_per_chip : nat) : Z :=
  let correlation := np_sum (vec_mul (chips_of chunk samples_per_chip) PNC_KEY) in
  if Rlt_dec 0 correlation then 1%Z else 0%Z.

(** The detection loop: at most [n] more bits, stopping when fewer than
    [pn_samples] samples remain from [position]. *)
Fixpoint detect_bits (n : nat) (demodulated : signal)
         (samples_per_chip position : nat) : list Z :=
  match n with
  | O => []
  | S n' =>
      let pn_samples := (SPREADING_FACTOR * samples_per_chip)%nat in
      if (length demodulated <? position + pn_samples)%nat then []
      else
        let chunk := slice demodulated position (position + pn_samples) in
        decide_bit chunk samples_per_chip
        :: detect_bits n' demodulated samples_per_chip (position + pn_samples)
  end.

(** The end of both carrier embeddings ([embed_in_audio] and
    [generate_with_carrier] have the same lines): the modulated signal is cut
    to the carrier's length, scaled, added into a copy of the carrier, and
    the sum is normalised when its peak exceeds 1. *)
Definition unnormalised_mix (carrier_audio modulated : signal)
           (signal_amplitude : R) : signal :=
  let modulated :=
    if (length carrier_audio <? length modulated)%nat
    then firstn (length carrier_audio) modulated
    else modulated in
  add_prefix carrier_audio (vec_scale modulated signal_amplitude).

Definition mix_into (carrier_audio modulated : signal)
           (signal_amplitude : R) : result signal :=
  let output := unnormalised_mix carrier_audio modulated signal_amplitude in
  max_val <- np_max_abs output ;;
  if Rlt_dec 1 max_val then Ok (vec_scale (vec_div output max_val) 0.99)
  else Ok output.

(** The correlation that [decide_bit] thresholds, for any code [pn]. *)
Definition correlation_with (pn chunk : signal) (samples_per_chip : nat) : R :=
  np_sum (vec_mul
            (map (fun i => np_mean (slice chunk (i * samples_per_chip)
                                          (i * samples_per_chip + samples_per_chip)))
                 (seq 0 (length pn)))
            pn).

(** Every one of the first [n] windows of [W] samples has a positive sum. *)
Fixpoint windows_positive (n W : nat) (es : signal) : Prop :=
  match n with
  | O => True
  | S n' => 0 < np_sum (firstn W es) /\ windows_positive n' W (skipn W es)
  end.

(** Sample [i] of the carrier that both sides compute for [L] samples. *)
Definition carrier_sample (freq : R) (sample_rate : Z) (L i : nat) : R :=
  sin (2 * PI * freq
       * (0 + INR i * ((INR L / IZR sample_rate - 0) / INR (L - 1)))).

(* ================================================================== *)
(** ** [SteganographyEngine] (milcodec_studio.py) *)

Module Studio.

(** [length_bytes + message_bytes] expanded to bits *)
Definition frame_bits (message_bytes : bytes) : result (list Z) :=
  length_bytes <- to_bytes_4_big (Z.of_nat (length message_bytes)) ;;
  Ok (bytes_to_bits (length_bytes ++ message_bytes)).

(** [baseband * carrier_wave] for the 12 kHz carrier, at a positive sample
    rate.  (At a sample rate of 0 the code's [len(baseband) / sample_rate]
    raises ZeroDivisionError; the statements below that leave the sample
    rate open assume it positive.) *)
Definition modulate (spread_signal : signal) (sample_rate : Z) : signal :=
  let samples_per_chip := samples_per_chip_of sample_rate in
  let baseband := np_repeat spread_signal samples_per_chip in
  let t := np_linspace 0 (INR (length baseband) / IZR sample_rate)
                       (length baseband) in
  let carrier_wave := carrier_of 12000 t in
  vec_mul baseband carrier_wave.

(** [np.sqrt(snr_linear) * 0.5] *)
Definition signal_amplitude (snr_db : R) : R :=
  sqrt (snr_linear_of snr_db) * 0.5.

Definition embed_in_audio (snr_db : R) (carrier_audio : signal)
           (message_bytes : bytes) (sample_rate : Z) : result signal :=
  bits <- frame_bits message_bytes ;;
  let modulated := modulate (spread_bits bits) sample_rate in
  mix_into carrier_audio modulated (signal_amplitude snr_db).

(** The bits of the detection loop of [extract_from_audio], at a positive
    sample rate (at 0 the code's division by it raises). *)
Definition demodulate_bits (stego_audio : signal) (sample_rate : Z)
  : list Z :=
  let samples_per_chip := samples_per_chip_of sample_rate in
  let t := np_linspace 0 (INR (length stego_audio) / IZR sample_rate)
                       (length stego_audio) in
  let carrier := carrier_of 12000 t in
  let demodulated := vec_mul stego_audio carrier in
  detect_bits (32 + 8 * 256) demodulated samples_per_chip 0.

(** The end of [extract_from_audio]: bits to bytes, then the length
    prefix and the slice it selects. *)
Definition extract_payload (extracted_bits : list Z) : bytes :=
  let extracted_bytes := bits_to_bytes extracted_bits in
  if (length extracted_bytes <? 4)%nat then []
  else
    let message_length := from_bytes_big (firstn 4 extracted_bytes) in
    slice extracted_bytes 4 (4 + Z.to_nat message_length).

Definition extract_from_audio (stego_audio : signal) (sample_rate : Z)
  : bytes :=
  extract_payload (demodulate_bits stego_audio sample_rate).

End Studio.

(* ================================================================== *)
(** ** [DSSSMasker] (milcodec_masker.py) *)

Module Masker.

Record DSSSMasker : Type := {
  snr_db : R;
  carrier_freq : R;
  sample_rate : Z
}.

(** [__init__] *)
Definition init (snr carrier : R) : DSSSMasker :=
  {| snr_db := clamp_snr snr;
     carrier_freq := carrier;
     sample_rate := SAMPLE_RATE |}.

Definition set_snr (self : DSSSMasker) (snr : R) : DSSSMasker :=
  {| snr_db := clamp_snr snr;
     carrier_freq := carrier_freq self;
     sample_rate := sample_rate self |}.

Definition _bytes_to_bits := bytes_to_bits.
Definition _bits_to_bytes := bits_to_bytes.
Definition _spread_bits := spread_bits.

Definition _modulate_signal (self : DSSSMasker) (spread_signal : signal)
  : signal :=
  let samples_per_chip := samples_per_chip_of (sample_rate self) in
  let baseband := np_repeat spread_signal samples_per_chip in
  let t := np_linspace 0 (INR (length baseband) / IZR (sample_rate self))
                       (length baseband) in
  let carrier := carrier_of (carrier_freq self) t in
  vec_mul baseband carrier.

(** [np.random.normal(0, noise_std, n)]: the standard normal draws [z]
    of the ordinary random source, scaled. *)
Definition random_normal (z : nat -> R) (scale : R) (n : nat) : signal :=
  map (fun i => 0 + scale * z i) (seq 0 n).

Definition _apply_noise_masking (self : DSSSMasker) (z : nat -> R)
           (modulated : signal) : result signal :=
  let sig_power := np_mean (map (fun x => x * x) modulated) in
  let sig_power := if Req_dec_T sig_power 0 then 1e-9 else sig_power in
  let snr_linear := snr_linear_of (snr_db self) in
  let noise_power := sig_power / snr_linear in
  let noise_std := sqrt noise_power in
  let noise := random_normal z noise_std (length modulated) in
  let masked := map (fun p => fst p + snd p) (combine modulated noise) in
  max_val <- np_max_abs masked ;;
  if Rlt_dec 0 max_val then Ok (vec_scale (vec_div masked max_val) 0.95)
  else Ok masked.

Definition generate_masked_audio (self : DSSSMasker) (z : nat -> R)
           (payload_bytes : bytes) : result signal :=
  let bits := _bytes_to_bits payload_bytes in
  let spread_signal := _spread_bits bits in
  let modulated := _modulate_signal self spread_signal in
  _apply_noise_masking self z modulated.

(** [np.sqrt(carrier_power * snr_linear)] *)
Definition signal_amplitude (self : DSSSMasker) (carrier_audio : signal)
  : R :=
  let carrier_power := np_mean (map (fun x => x * x) carrier_audio) in
  let snr_linear := snr_linear_of (snr_db self) in
  sqrt (carrier_power * snr_linear).

Definition generate_with_carrier (self : DSSSMasker)
           (payload_bytes : bytes) (carrier_audio : signal)
  : result signal :=
  let bits := _bytes_to_bits payload_bytes in
  let spread_signal := _spread_bits bits in
  let modulated := _modulate_signal self spread_signal in
  mix_into carrier_audio modulated (signal_amplitude self carrier_audio).

(** The [while] loop: it runs while a whole chunk remains and fewer than
    [max_bits] bits were read; [n] counts the bits still allowed. *)
Definition extract_from_audio (self : DSSSMasker) (audio : signal) : bytes :=
  let samples_per_chip := samples_per_chip_of (sample_rate self) in
  let t := np_linspace 0 (INR (length audio) / IZR (sample_rate self))
                       (length audio) in
  let carrier := carrier_of (carrier_freq self) t in
  let demodulated := vec_mul audio carrier in
  let max_bits := 4096%nat in
  _bits_to_bytes (detect_bits max_bits demodulated samples_per_chip 0).

End Masker.

Close Scope R_scope.

(* ================================================================== *)
(** ** The [cryptography] package as it is *)

(** The package's [algorithms.ChaCha20] takes a nonce of 16 bytes (the
    counter and the nonce proper) and raises a ValueError on one of any
    other length. *)
Definition takes_nonce_16_only (lib : crypto_backend) : Prop :=
  forall key nonce, length nonce <> 16%nat -> ChaCha20 lib key nonce = None.

(** A stand-in for the package with that check, for examples: as
    [toy_cryptography], but nonces of 16 bytes only are taken. *)
Definition strict_cryptography : crypto_backend :=
  {| CRYPTO_AVAILABLE := true;
     PBKDF2HMAC_derive := fun salt pw => salt ++ pw;
     ChaCha20 := fun key nonce =>
       if (length nonce =? 16)%nat
       then Some (fun i => (fold_right Z.add 0 (key ++ nonce) + Z.of_nat i) mod 256)%Z
       else None |}.

(** [CryptoHelper.decrypt(CryptoHelper.encrypt(plaintext, password), password)] *)
Definition encrypt_then_decrypt (lib : crypto_backend)
           (plaintext password : str) (e : entropy) : result (str * entropy) :=
  be <- encrypt lib plaintext password e ;;
  let '(blob, e) := be in
  decrypt lib blob password e.

(* ================================================================== *)
(** ** Notions used to state further properties of [CryptoHelper] *)

(** Byte-wise XOR of two byte strings, over their common length. *)
Fixpoint xor_bytes (a b : bytes) : bytes :=
  match a, b with
  | x :: a', y :: b' => Z.lxor x y :: xor_bytes a' b'
  | _, _ => []
  end.

(** The keystreams of the package's cipher are streams of bytes. *)
Definition keystream_bytes (lib : crypto_backend) : Prop :=
  forall key nonce keystream i,
    ChaCha20 lib key nonce = Some keystream -> is_byte (keystream i).

(** The entropy is a stream of bytes. *)
Definition entropy_bytes (e : entropy) : Prop := forall i, is_byte (e i).

(* ================================================================== *)
(** ** [EncryptionCore] and [TransmissionEngine] (milcodec_commander.py) *)

Module Commander.

(** The attribute of [EncryptionCore] that changes. *)
Record EncryptionCore : Type := {
  session_count : nat
}.

(** [f"CMD:{target_unit}:{priority}:"] *)
Definition packet_header (target_unit priority : str) : str :=
  [67; 77; 68; 58] ++ target_unit ++ [58] ++ priority ++ [58].

(** [encrypt_packet]: what it returns or raises, the core after the call
    and the entropy left.  Inside the [try] every exception leads to the
    same [return] as the normal end. *)
Definition encrypt_packet (lib : crypto_backend) (self : EncryptionCore)
           (plaintext target_unit priority : str) (e : entropy)
  : result bytes * EncryptionCore * entropy :=
  let self := {| session_count := S (session_count self) |} in
  match utf8_encode (packet_header target_unit priority) with
  | Raise x => (Raise x, self, e)
  | Ok header =>
      match utf8_encode plaintext with
      | Raise x => (Raise x, self, e)
      | Ok payload =>
          if negb (CRYPTO_AVAILABLE lib) then (Ok (header ++ payload), self, e)
          else
            let '(session_key, e) := os_urandom 32 e in
            let '(nonce, e) := os_urandom 12 e in
            match ChaCha20 lib session_key nonce with
            | None => (Ok (header ++ payload), self, e)
            | Some keystream =>
                let ciphertext := xor_with_stream keystream 0 payload in
                (Ok (header ++ payload), self, e)
            end
      end
  end.

(** Steps 1 and 2 of [send_order]: the packet, then the audio that the
    masker of [TransmissionEngine.__init__], [DSSSMasker()], makes of it. *)
Definition send_order_audio (lib : crypto_backend) (crypto : EncryptionCore)
           (z : nat -> R) (message target priority : str) (e : entropy)
  : result signal * EncryptionCore * entropy :=
  let '(encrypted_blob, crypto, e) :=
    encrypt_packet lib crypto message target priority e in
  match encrypted_blob with
  | Raise x => (Raise x, crypto, e)
  | Ok encrypted_blob =>
      (Masker.generate_masked_audio (Masker.init (-20) CARRIER_FREQ) z
         encrypted_blob, crypto, e)
  end.

End Commander.

(* ================================================================== *)
(** ** [CryptoEngine] (milcodec_receiver.py) *)

Module Receiver.

(** "FLASH", "IMMEDIATE", "PRIORITY", "ROUTINE" *)
Definition PRIORITY_FLASH : str := [70; 76; 65; 83; 72].
Definition PRIORITY_IMMEDIATE : str := [73; 77; 77; 69; 68; 73; 65; 84; 69].
Definition PRIORITY_PRIORITY : str := [80; 82; 73; 79; 82; 73; 84; 89].
Definition PRIORITY_ROUTINE : str := [82; 79; 85; 84; 73; 78; 69].

(** The keys of [PRIORITY_COLORS] *)
Definition PRIORITY_COLORS_keys : list str :=
  [PRIORITY_FLASH; PRIORITY_IMMEDIATE; PRIORITY_PRIORITY; PRIORITY_ROUTINE].

Fixpoint str_eqb (a b : str) : bool :=
  match a, b with
  | [], [] => true
  | x :: a', y :: b' => (x =? y) && str_eqb a' b'
  | _, _ => false
  end.

(** [s.split(sep, maxsplit)] for a separator of one character *)
Fixpoint split_max (sep : Z) (maxsplit : nat) (s : str) : list str :=
  match s with
  | [] => [[]]
  | c :: s' =>
      match maxsplit with
      | S m =>
          if c =? sep then [] :: split_max sep m s'
          else match split_max sep maxsplit s' with
               | part :: parts => (c :: part) :: parts
               | [] => [[c]]
               end
      | O =>
          match split_max sep maxsplit s' with
          | part :: parts => (c :: part) :: parts
          | [] => [[c]]
          end
      end
  end.

(** The second component of what [decrypt_payload] returns. *)
Inductive status : Type :=
| KEYS_BURNED          (* "KEYS BURNED - CANNOT DECRYPT" *)
| CRYPTO_UNAVAILABLE   (* "CRYPTO UNAVAILABLE" *)
| VERIFIED             (* "VERIFIED" *)
| INVALID_FORMAT       (* "INVALID FORMAT" *)
| DECRYPT_ERROR (x : exn). (* f"DECRYPT ERROR: {str(e)}" *)

Record CryptoEngine : Type := {
  private_key : bytes;
  session_key : option bytes;
  is_burned : bool;
  messages_decrypted : nat
}.

(** b"TOP_SECRET_BURN_ON_CAPTURE_KEY32" *)
Definition initial_private_key : bytes :=
  [84; 79; 80; 95; 83; 69; 67; 82; 69; 84; 95; 66; 85; 82; 78; 95;
   79; 78; 95; 67; 65; 80; 84; 85; 82; 69; 95; 75; 69; 89; 51; 50].

(** [__init__] *)
Definition init : CryptoEngine :=
  {| private_key := initial_private_key;
     session_key := None;
     is_burned := false;
     messages_decrypted := 0 |}.

Definition count_message (self : CryptoEngine) : CryptoEngine :=
  {| private_key := private_key self;
     session_key := session_key self;
     is_burned := is_burned self;
     messages_decrypted := S (messages_decrypted self) |}.

Section DecryptPayload.

(** Whether the receiver could import the [cryptography] package. *)
Variable CRYPTO_AVAILABLE : bool.

(** [bytes.decode('utf-8', errors='ignore')] *)
Variable utf8_decode_ignore : bytes -> str.

Definition decrypt_payload (self : CryptoEngine) (encrypted_blob : bytes)
  : option str * status * str * CryptoEngine :=
  if is_burned self then (None, KEYS_BURNED, PRIORITY_ROUTINE, self)
  else if negb CRYPTO_AVAILABLE then
    (Some (utf8_decode_ignore encrypted_blob), CRYPTO_UNAVAILABLE,
     PRIORITY_ROUTINE, self)
  else
    match utf8_decode encrypted_blob with
    | Raise x => (None, DECRYPT_ERROR x, PRIORITY_ROUTINE, self)
    | Ok text =>
        if startswith text [67; 77; 68; 58] then
          let parts := split_max 58 3 text in
          if (4 <=? length parts)%nat then
            let target := nth 1 parts [] in
            let priority :=
              if existsb (str_eqb (nth 2 parts [])) PRIORITY_COLORS_keys
              then nth 2 parts [] else PRIORITY_ROUTINE in
            let message := nth 3 parts [] in
            (Some message, VERIFIED, priority, count_message self)
          else
            (Some (skipn 4 text), VERIFIED, PRIORITY_ROUTINE,
             count_message self)
        else (None, INVALID_FORMAT, PRIORITY_ROUTINE, self)
    end.

End DecryptPayload.

(** [verify_signature] *)
Definition verify_signature (self : CryptoEngine) (message signature : bytes)
  : bool :=
  negb (is_burned self).

(** [burn_keys] *)
Definition burn_keys (self : CryptoEngine) : bool * CryptoEngine :=
  (true,
   {| private_key := repeat 0 32;
      session_key := None;
      is_burned := true;
      messages_decrypted := messages_decrypted self |}).

(** [get_status]: "BURNED" or "OPERATIONAL" *)
Definition get_status (self : CryptoEngine) : str :=
  if is_burned self then [66; 85; 82; 78; 69; 68]
  else [79; 80; 69; 82; 65; 84; 73; 79; 78; 65; 76].

(** The calls a holder of the engine can make. *)
Inductive call : Type :=
| Decrypt (encrypted_blob : bytes)
| Verify (message signature : bytes)
| Burn
| Status.

Definition run_call (CRYPTO_AVAILABLE : bool) (utf8_decode_ignore : bytes -> str)
           (self : CryptoEngine) (c : call) : CryptoEngine :=
  match c with
  | Decrypt blob =>
      snd (decrypt_payload CRYPTO_AVAILABLE utf8_decode_ignore self blob)
  | Verify _ _ => self
  | Burn => snd (burn_keys self)
  | Status => self
  end.

End Receiver.

(* ================================================================== *)
(** ** WAV files: [AudioHandler] (milcodec_studio.py), [DSSSMasker.save_wav]
       (milcodec_masker.py), [_save_to_wav] (milcodec_commander.py) *)

Module Wav.

Open Scope R_scope.

(** What the [wave] module keeps of a file: the three parameters that the
    code sets and reads, and the bytes of the data chunk. *)
Record wav_file : Type := {
  nchannels : Z;
  sampwidth : Z;
  framerate : Z;
  audio_data : bytes
}.

(** What the file functions can raise, beside the [ValueError] of [np.max]
    on an empty array. *)
Inductive wav_exn : Type :=
| Numpy (x : exn)
| BadFrameRate            (* wave.Error('bad frame rate') *)
| BufferSize              (* ValueError: buffer size must be a multiple of element size *)
| CannotReshape.          (* ValueError: cannot reshape array *)

Inductive wav_result (A : Type) : Type :=
| Done (a : A)
| Fails (x : wav_exn).

Arguments Done {A} a.
Arguments Fails {A} x.

Definition wav_bind {A B} (r : wav_result A) (k : A -> wav_result B)
  : wav_result B :=
  match r with
  | Done a => k a
  | Fails x => Fails x
  end.

Definition of_numpy {A} (r : result A) : wav_result A :=
  match r with
  | Ok a => Done a
  | Raise x => Fails (Numpy x)
  end.

(** The cast of a float to an integer type drops the fraction.  (For a
    value outside the range of the type numpy leaves the result to the
    platform; [tobytes] below keeps the low 16 bits.) *)
Definition trunc (x : R) : Z :=
  if Rle_dec 0 x then Int_part x else (- Int_part (- x))%Z.

(** [a.astype(np.int16)], [np.int16(a)] *)
Definition astype_int16 (a : signal) : list Z := map trunc a.

(** The values of [np.int16]. *)
Definition is_int16 (v : Z) : Prop := (-32768 <= v <= 32767)%Z.

(** [a.tobytes()] of an int16 array as the file stores it: two bytes an
    element, the low one first, negative values in two's complement. *)
Definition int16_tobytes (v : Z) : bytes := [v mod 256; (v / 256) mod 256]%Z.

Definition tobytes (a : list Z) : bytes := flat_map int16_tobytes a.

(** The value of a group of bytes, the low one first. *)
Fixpoint le_value (group : bytes) : Z :=
  match group with
  | [] => 0%Z
  | b :: group' => (b + 256 * le_value group')%Z
  end.

(** [n] groups of [width] bytes. *)
Fixpoint groups (width n : nat) (raw : bytes) : list bytes :=
  match n with
  | O => []
  | S n' => firstn width raw :: groups width n' (skipn width raw)
  end.

(** The element that a group of [width] bytes stands for. *)
Definition element (width : nat) (signed : bool) (group : bytes) : Z :=
  let u := le_value group in
  if signed && (2 ^ (8 * Z.of_nat width - 1) <=? u)%Z
  then (u - 2 ^ (8 * Z.of_nat width))%Z
  else u.

(** [np.frombuffer(raw, dtype)] for [np.uint8] (width 1, unsigned),
    [np.int16] (2, signed) and [np.int32] (4, signed). *)
Definition frombuffer (width : nat) (signed : bool) (raw : bytes)
  : wav_result (list Z) :=
  if (length raw mod width =? 0)%nat
  then Done (map (element width signed)
                 (groups width (length raw / width) raw))
  else Fails BufferSize.

(** [wf.readframes(wf.getnframes())]: the whole frames of the data chunk. *)
Definition readframes_all (wf : wav_file) : bytes :=
  let framesize := Z.to_nat (nchannels wf * sampwidth wf) in
  let n_frames := (length (audio_data wf) / framesize)%nat in
  firstn (n_frames * framesize) (audio_data wf).

(** [audio.reshape(-1, 2).mean(axis=1)] *)
Fixpoint pair_means (audio : signal) : wav_result signal :=
  match audio with
  | [] => Done []
  | [_] => Fails CannotReshape
  | l :: r :: audio' =>
      wav_bind (pair_means audio') (fun rest => Done ((l + r) / 2 :: rest))
  end.

(** [AudioHandler.load_wav], from the file that [wave.open] has read (it
    accepts a file with one channel at least and a sample width of one byte
    at least): the audio, the sample rate and the number of channels.  The
    division by [max_val] is the one of the reals. *)
Definition load_wav (wf : wav_file) : wav_result (signal * Z * Z) :=
  let channels := nchannels wf in
  let sample_rate := framerate wf in
  let sample_width := sampwidth wf in
  let raw_data := readframes_all wf in
  let '(width, signed, max_val) :=
    if (sample_width =? 1)%Z then (1%nat, false, 255)
    else if (sample_width =? 2)%Z then (2%nat, true, 32767)
    else (4%nat, true, 2147483647) in
  wav_bind (frombuffer width signed raw_data) (fun ints =>
  let audio := map (fun v => IZR v / max_val) ints in
  if (channels =? 2)%Z
  then wav_bind (pair_means audio) (fun audio =>
       Done (audio, sample_rate, channels))
  else Done (audio, sample_rate, channels)).

(** [setnchannels(1); setsampwidth(2); setframerate(r); writeframes(b)]:
    [wave] refuses a frame rate that is not positive.  This is the writer
    for what the header's 32-bit fields hold, a frame rate below 2^31 and
    less than 4 GiB of file; beyond, [wave] fails when it packs the header,
    which is not modelled. *)
Definition wave_write (sample_rate : Z) (data : bytes) : wav_result wav_file :=
  if (sample_rate <=? 0)%Z then Fails BadFrameRate
  else Done {| nchannels := 1; sampwidth := 2; framerate := sample_rate;
               audio_data := data |}.

(** [audio / max_val * 0.99] when [max_val > 0], sample by sample *)
Definition normalised_sample (max_val x : R) : R :=
  if Rlt_dec 0 max_val then x / max_val * 0.99 else x.

(** [AudioHandler.save_wav] *)
Definition save_wav (audio : signal) (sample_rate : Z) : wav_result wav_file :=
  wav_bind (of_numpy (np_max_abs audio)) (fun max_val =>
  let audio :=
    if Rlt_dec 0 max_val then vec_scale (vec_div audio max_val) 0.99
    else audio in
  let audio_int := astype_int16 (vec_scale audio 32767) in
  wave_write sample_rate (tobytes audio_int)).


(** [np.max(np.abs(a) + 1e-9)].  The audio is a float32 array and so is
    the sum: [plus_eps] stands for the addition of 1e-9 as that type rounds
    it, which leaves all but the smallest magnitudes as they are. *)
Definition np_max_abs_plus (plus_eps : R -> R) (a : signal) : result R :=
  match a with
  | [] => Raise ZeroSizeReduction
  | x :: a' => Ok (fold_left Rmax (map (fun y => plus_eps (Rabs y)) a')
                             (plus_eps (Rabs x)))
  end.

(** What the rounded sum keeps of the exact one: it is positive, and not
    below the magnitude it was added to. *)
Definition rounds_plus_eps (plus_eps : R -> R) : Prop :=
  forall x, 0 <= x -> 0 < plus_eps x /\ x <= plus_eps x.

(** [TransmissionEngine._save_to_wav]: the file written, or nothing when
    the [except] branch returns [False]. *)
Definition _save_to_wav (plus_eps : R -> R) (audio_data : signal)
  : bool * option wav_file :=
  match
    wav_bind (of_numpy (np_max_abs_plus plus_eps audio_data)) (fun peak =>
    let scaled := astype_int16 (vec_scale (vec_div audio_data peak) 32767) in
    wave_write SAMPLE_RATE (tobytes scaled))
  with
  | Done wf => (true, Some wf)
  | Fails _ => (false, None)
  end.

Close Scope R_scope.

End Wav.

(* ================================================================== *)
(** * Properties *)

(* ------------------------------------------------------------------ *)
(** ** The UTF-8 codec: decoding undoes encoding *)

Section Utf8Facts.
Open Scope Z_scope.

Lemma Ok_inj {A} (a b : A) : Ok a = Ok b -> a = b.
Proof. intros H. injection H. exact (fun e => e). Qed.

Ltac test_true := apply Z.leb_le || apply Z.ltb_lt.
Ltac tests_true :=
  repeat (apply andb_true_iff; split); try test_true; try lia.

Lemma utf8_decode_1 (b0 : Z) (rest : bytes) :
  0 <= b0 < 0x80 ->
  utf8_decode (b0 :: rest) = (s <- utf8_decode rest ;; Ok (b0 :: s)).
Proof.
  intros H. cbn [utf8_decode].
  replace ((0 <=? b0) && (b0 <? 128)) with true; [reflexivity|].
  symmetry. tests_true.
Qed.

Lemma utf8_decode_2 (b0 b1 : Z) (rest : bytes) :
  0xC2 <= b0 <= 0xDF -> 0x80 <= b1 <= 0xBF ->
  utf8_decode (b0 :: b1 :: rest)
  = (s <- utf8_decode rest ;; Ok ((b0 - 0xC0) * 64 + (b1 - 0x80) :: s)).
Proof.
  intros H0 H1. cbn [utf8_decode].
  replace (b0 <? 128) with false by (symmetry; apply Z.ltb_ge; lia).
  rewrite andb_false_r.
  replace ((194 <=? b0) && (b0 <=? 223)) with true by (symmetry; tests_true).
  replace (is_cont b1) with true by (symmetry; unfold is_cont; tests_true).
  reflexivity.
Qed.

Lemma utf8_decode_3 (b0 b1 b2 : Z) (rest : bytes) :
  let c := (b0 - 0xE0) * 4096 + (b1 - 0x80) * 64 + (b2 - 0x80) in
  0xE0 <= b0 <= 0xEF -> 0x80 <= b1 <= 0xBF -> 0x80 <= b2 <= 0xBF ->
  0x800 <= c -> is_surrogate c = false ->
  utf8_decode (b0 :: b1 :: b2 :: rest)
  = (s <- utf8_decode rest ;; Ok (c :: s)).
Proof.
  intros c H0 H1 H2 Hc Hs. cbn [utf8_decode]. fold c.
  replace (b0 <? 128) with false by (symmetry; apply Z.ltb_ge; lia).
  rewrite andb_false_r.
  replace (b0 <=? 223) with false by (symmetry; apply Z.leb_gt; lia).
  rewrite andb_false_r.
  replace ((224 <=? b0) && (b0 <=? 239)) with true by (symmetry; tests_true).
  replace (is_cont b1) with true by (symmetry; unfold is_cont; tests_true).
  replace (is_cont b2) with true by (symmetry; unfold is_cont; tests_true).
  rewrite Hs.
  replace (2048 <=? c) with true by (symmetry; apply Z.leb_le; lia).
  reflexivity.
Qed.

Lemma utf8_decode_4 (b0 b1 b2 b3 : Z) (rest : bytes) :
  let c := (b0 - 0xF0) * 262144 + (b1 - 0x80) * 4096
           + (b2 - 0x80) * 64 + (b3 - 0x80) in
  0xF0 <= b0 <= 0xF4 -> 0x80 <= b1 <= 0xBF -> 0x80 <= b2 <= 0xBF ->
  0x80 <= b3 <= 0xBF -> 0x10000 <= c <= 0x10FFFF ->
  utf8_decode (b0 :: b1 :: b2 :: b3 :: rest)
  = (s <- utf8_decode rest ;; Ok (c :: s)).
Proof.
  intros c H0 H1 H2 H3 Hc. cbn [utf8_decode]. fold c.
  replace (b0 <? 128) with false by (symmetry; apply Z.ltb_ge; lia).
  rewrite andb_false_r.
  replace (b0 <=? 223) with false by (symmetry; apply Z.leb_gt; lia).
  rewrite andb_false_r.
  replace (b0 <=? 239) with false by (symmetry; apply Z.leb_gt; lia).
  rewrite andb_false_r.
  replace ((240 <=? b0) && (b0 <=? 244)) with true by (symmetry; tests_true).
  replace (is_cont b1) with true by (symmetry; unfold is_cont; tests_true).
  replace (is_cont b2) with true by (symmetry; unfold is_cont; tests_true).
  replace (is_cont b3) with true by (symmetry; unfold is_cont; tests_true).
  replace (65536 <=? c) with true by (symmetry; apply Z.leb_le; lia).
  replace (c <=? 1114111) with true by (symmetry; apply Z.leb_le; lia).
  reflexivity.
Qed.

Lemma utf8_decode_encode_cp (c : Z) (b rest : bytes) :
  utf8_encode_cp c = Ok b ->
  utf8_decode (b ++ rest) = (s <- utf8_decode rest ;; Ok (c :: s)).
Proof.
  unfold utf8_encode_cp.
  destruct (Z.ltb_spec c 0); [discriminate|].
  destruct (Z.ltb_spec c 0x80).
  { intros Hb; apply Ok_inj in Hb; subst b. apply utf8_decode_1. lia. }
  destruct (Z.ltb_spec c 0x800).
  { intros Hb; apply Ok_inj in Hb; subst b. cbn [app].
    assert (E : (0xC0 + c / 64 - 0xC0) * 64 + (0x80 + c mod 64 - 0x80) = c)
      by (Z.div_mod_to_equations; lia).
    rewrite utf8_decode_2; rewrite ?E; try (Z.div_mod_to_equations; lia).
    reflexivity. }
  destruct (Z.ltb_spec c 0x10000).
  { destruct (is_surrogate c) eqn:Hs; [discriminate|].
    intros Hb; apply Ok_inj in Hb; subst b. cbn [app].
    assert (E : (0xE0 + c / 4096 - 0xE0) * 4096
                + (0x80 + (c / 64) mod 64 - 0x80) * 64
                + (0x80 + c mod 64 - 0x80) = c)
      by (Z.div_mod_to_equations; lia).
    rewrite utf8_decode_3; rewrite ?E; try assumption;
      try (Z.div_mod_to_equations; lia).
    reflexivity. }
  destruct (Z.leb_spec c 0x10FFFF); [|discriminate].
  intros Hb; apply Ok_inj in Hb; subst b. cbn [app].
  assert (E : (0xF0 + c / 262144 - 0xF0) * 262144
              + (0x80 + (c / 4096) mod 64 - 0x80) * 4096
              + (0x80 + (c / 64) mod 64 - 0x80) * 64
              + (0x80 + c mod 64 - 0x80) = c)
    by (Z.div_mod_to_equations; lia).
  rewrite utf8_decode_4; rewrite ?E; try (Z.div_mod_to_equations; lia).
  reflexivity.
Qed.

Lemma utf8_decode_encode (s : str) (b : bytes) :
  utf8_encode s = Ok b -> utf8_decode b = Ok s.
Proof.
  revert b. induction s as [|c s IH]; intros b; cbn [utf8_encode].
  - intros [= <-]. reflexivity.
  - destruct (utf8_encode_cp c) as [bc|] eqn:Hc; [|discriminate].
    destruct (utf8_encode s) as [bs|] eqn:Hs; [|discriminate].
    cbn [bind]. intros [= <-].
    rewrite (utf8_decode_encode_cp _ _ _ Hc), (IH _ eq_refl). reflexivity.
Qed.

End Utf8Facts.

(* ------------------------------------------------------------------ *)
(** ** Which strings encode, and what the codec can raise *)

Section EncodeFacts.
Open Scope Z_scope.

Lemma utf8_encode_cp_scalar (c : Z) :
  scalar_value c -> exists b, utf8_encode_cp c = Ok b /\ (1 <= length b)%nat.
Proof.
  intros [[H0 H1] Hs]. unfold utf8_encode_cp.
  destruct (Z.ltb_spec c 0); [lia|].
  destruct (c <? 0x80); [eexists; split; [reflexivity|simpl; lia]|].
  destruct (c <? 0x800); [eexists; split; [reflexivity|simpl; lia]|].
  rewrite Hs.
  destruct (c <? 0x10000); [eexists; split; [reflexivity|simpl; lia]|].
  destruct (Z.leb_spec c 0x10FFFF); [|lia].
  eexists; split; [reflexivity|simpl; lia].
Qed.

Lemma utf8_encode_scalar (s : str) :
  Forall scalar_value s ->
  exists b, utf8_encode s = Ok b /\ (length s <= length b)%nat.
Proof.
  induction 1 as [|c s Hc _ IH]; cbn [utf8_encode].
  - exists []. split; [reflexivity|simpl; lia].
  - destruct (utf8_encode_cp_scalar c Hc) as (bc & -> & Hl).
    destruct IH as (bs & -> & Hls). cbn [bind].
    exists (bc ++ bs). split; [reflexivity|].
    rewrite length_app. simpl. lia.
Qed.

Lemma utf8_encode_raises (s : str) (x : exn) :
  utf8_encode s = Raise x -> x = UnicodeEncodeError.
Proof.
  induction s as [|c s IH]; cbn [utf8_encode]; [discriminate|].
  destruct (utf8_encode_cp c) as [bc|x'] eqn:Hc; cbn [bind].
  - destruct (utf8_encode s) as [bs|x'']; cbn [bind]; [discriminate|].
    intros [= <-]. apply IH. reflexivity.
  - intros [= <-]. revert Hc. unfold utf8_encode_cp.
    repeat match goal with
           | |- context [if ?b then _ else _] => destruct b
           end; congruence.
Qed.

Lemma utf8_decode_raises (b : bytes) (x : exn) :
  utf8_decode b = Raise x -> x = UnicodeDecodeError.
Proof.
  remember (length b) as n eqn:Hn. revert b Hn.
  induction n as [n IH] using lt_wf_ind. intros b Hn.
  destruct b as [|b0 r0]; cbn [utf8_decode]; [discriminate|].
  assert (Hrec : forall r, (length r < n)%nat ->
            forall (f : Z) , (s <- utf8_decode r ;; Ok (f :: s)) = Raise x ->
            x = UnicodeDecodeError).
  { intros r Hr f. destruct (utf8_decode r) as [s|x'] eqn:Hd; cbn [bind];
      [discriminate|]. intros [= <-]. eapply IH; [exact Hr|reflexivity|exact Hd]. }
  simpl in Hn.
  destruct ((0 <=? b0) && (b0 <? 128)).
  { apply Hrec. lia. }
  destruct ((194 <=? b0) && (b0 <=? 223)).
  { destruct r0 as [|b1 r1]; [congruence|].
    destruct (is_cont b1); [|congruence]. apply Hrec. simpl in Hn. lia. }
  destruct ((224 <=? b0) && (b0 <=? 239)).
  { destruct r0 as [|b1 [|b2 r2]]; try congruence.
    match goal with |- context [if ?c then _ else _] => destruct c end;
      [|congruence].
    apply Hrec. simpl in Hn. lia. }
  destruct ((240 <=? b0) && (b0 <=? 244)); [|congruence].
  destruct r0 as [|b1 [|b2 [|b3 r3]]]; try congruence.
  match goal with |- context [if ?c then _ else _] => destruct c end;
    [|congruence].
  apply Hrec. simpl in Hn. lia.
Qed.

Lemma utf8_encode_cp_1 (b0 : Z) :
  0 <= b0 < 0x80 -> utf8_encode_cp b0 = Ok [b0].
Proof.
  intros H. unfold utf8_encode_cp.
  destruct (Z.ltb_spec b0 0); [lia|].
  destruct (Z.ltb_spec b0 0x80); [reflexivity|lia].
Qed.

Lemma utf8_encode_cp_2 (b0 b1 : Z) :
  0xC2 <= b0 <= 0xDF -> 0x80 <= b1 <= 0xBF ->
  utf8_encode_cp ((b0 - 0xC0) * 64 + (b1 - 0x80)) = Ok [b0; b1].
Proof.
  intros H0 H1. set (c := (b0 - 0xC0) * 64 + (b1 - 0x80)).
  assert (Hc : 0x80 <= c < 0x800) by (unfold c; lia).
  assert (E0 : 0xC0 + c / 64 = b0) by (unfold c; Z.div_mod_to_equations; lia).
  assert (E1 : 0x80 + c mod 64 = b1) by (unfold c; Z.div_mod_to_equations; lia).
  unfold utf8_encode_cp.
  destruct (Z.ltb_spec c 0); [lia|].
  destruct (Z.ltb_spec c 0x80); [lia|].
  destruct (Z.ltb_spec c 0x800); [|lia].
  rewrite E0, E1. reflexivity.
Qed.

Lemma utf8_encode_cp_3 (b0 b1 b2 : Z) :
  let c := (b0 - 0xE0) * 4096 + (b1 - 0x80) * 64 + (b2 - 0x80) in
  0xE0 <= b0 <= 0xEF -> 0x80 <= b1 <= 0xBF -> 0x80 <= b2 <= 0xBF ->
  0x800 <= c -> is_surrogate c = false ->
  utf8_encode_cp c = Ok [b0; b1; b2].
Proof.
  intros c H0 H1 H2 Hc Hs.
  assert (Hc' : c < 0x10000) by (unfold c; lia).
  assert (E0 : 0xE0 + c / 4096 = b0) by (unfold c; Z.div_mod_to_equations; lia).
  assert (E1 : 0x80 + (c / 64) mod 64 = b1)
    by (unfold c; Z.div_mod_to_equations; lia).
  assert (E2 : 0x80 + c mod 64 = b2) by (unfold c; Z.div_mod_to_equations; lia).
  unfold utf8_encode_cp.
  destruct (Z.ltb_spec c 0); [lia|].
  destruct (Z.ltb_spec c 0x80); [lia|].
  destruct (Z.ltb_spec c 0x800); [lia|].
  destruct (Z.ltb_spec c 0x10000); [|lia].
  rewrite Hs, E0, E1, E2. reflexivity.
Qed.

Lemma utf8_encode_cp_4 (b0 b1 b2 b3 : Z) :
  let c := (b0 - 0xF0) * 262144 + (b1 - 0x80) * 4096
           + (b2 - 0x80) * 64 + (b3 - 0x80) in
  0xF0 <= b0 <= 0xF4 -> 0x80 <= b1 <= 0xBF -> 0x80 <= b2 <= 0xBF ->
  0x80 <= b3 <= 0xBF -> 0x10000 <= c <= 0x10FFFF ->
  utf8_encode_cp c = Ok [b0; b1; b2; b3].
Proof.
  intros c H0 H1 H2 H3 Hc.
  assert (E0 : 0xF0 + c / 262144 = b0)
    by (unfold c; Z.div_mod_to_equations; lia).
  assert (E1 : 0x80 + (c / 4096) mod 64 = b1)
    by (unfold c; Z.div_mod_to_equations; lia).
  assert (E2 : 0x80 + (c / 64) mod 64 = b2)
    by (unfold c; Z.div_mod_to_equations; lia).
  assert (E3 : 0x80 + c mod 64 = b3) by (unfold c; Z.div_mod_to_equations; lia).
  unfold utf8_encode_cp.
  destruct (Z.ltb_spec c 0); [lia|].
  destruct (Z.ltb_spec c 0x80); [lia|].
  destruct (Z.ltb_spec c 0x800); [lia|].
  destruct (Z.ltb_spec c 0x10000); [lia|].
  destruct (Z.leb_spec c 0x10FFFF); [|lia].
  rewrite E0, E1, E2, E3. reflexivity.
Qed.

(** The decoder is strict: the bytes it accepts are the encoding of the
    string it returns, so that two byte strings that decode to one string
    are equal. *)
Lemma utf8_encode_decode (b : bytes) (s : str) :
  utf8_decode b = Ok s -> utf8_encode s = Ok b.
Proof.
  remember (length b) as n eqn:Hn. revert b s Hn.
  induction n as [n IH] using lt_wf_ind. intros b s Hn.
  destruct b as [|b0 r0]; cbn [utf8_decode].
  { intros H. apply Ok_inj in H. subst s. reflexivity. }
  assert (Hrec : forall r c bc, (length r < n)%nat ->
            utf8_encode_cp c = Ok bc ->
            (s' <- utf8_decode r ;; Ok (c :: s')) = Ok s ->
            utf8_encode s = Ok (bc ++ r)).
  { intros r c bc Hr Hcp. destruct (utf8_decode r) as [s'|x] eqn:Hd;
      cbn [bind]; [|discriminate].
    intros H. apply Ok_inj in H. subst s. cbn [utf8_encode].
    rewrite Hcp. cbn [bind].
    rewrite (IH (length r) Hr r s' eq_refl Hd). reflexivity. }
  cbn [length] in Hn.
  destruct ((0 <=? b0) && (b0 <? 128)) eqn:E1.
  { apply andb_true_iff in E1. destruct E1 as (A & B).
    apply Z.leb_le in A. apply Z.ltb_lt in B.
    apply (Hrec r0 b0 [b0]); [lia|]. apply utf8_encode_cp_1. lia. }
  destruct ((194 <=? b0) && (b0 <=? 223)) eqn:E2.
  { apply andb_true_iff in E2. destruct E2 as (A & B).
    apply Z.leb_le in A, B.
    destruct r0 as [|b1 r1]; [discriminate|].
    destruct (is_cont b1) eqn:C1; [|discriminate].
    unfold is_cont in C1. apply andb_true_iff in C1. destruct C1 as (C & D).
    apply Z.leb_le in C, D. cbn [length] in Hn.
    apply (Hrec r1 _ [b0; b1]); [lia|]. apply utf8_encode_cp_2; lia. }
  destruct ((224 <=? b0) && (b0 <=? 239)) eqn:E3.
  { apply andb_true_iff in E3. destruct E3 as (A & B).
    apply Z.leb_le in A, B.
    destruct r0 as [|b1 [|b2 r2]]; try discriminate.
    match goal with |- context [if ?c then _ else _] => destruct c eqn:C end;
      [|discriminate].
    repeat (apply andb_true_iff in C; destruct C as (C & ?)).
    unfold is_cont in *.
    repeat match goal with
           | H : (_ && _) = true |- _ =>
               apply andb_true_iff in H; destruct H
           | H : negb _ = true |- _ => apply negb_true_iff in H
           | H : (_ <=? _) = true |- _ => apply Z.leb_le in H
           end.
    cbn [length] in Hn.
    apply (Hrec r2 _ [b0; b1; b2]); [lia|].
    apply utf8_encode_cp_3; try lia; assumption. }
  destruct ((240 <=? b0) && (b0 <=? 244)) eqn:E4; [|discriminate].
  apply andb_true_iff in E4. destruct E4 as (A & B).
  apply Z.leb_le in A, B.
  destruct r0 as [|b1 [|b2 [|b3 r3]]]; try discriminate.
  match goal with |- context [if ?c then _ else _] => destruct c eqn:C end;
    [|discriminate].
  unfold is_cont in *.
  repeat match goal with
         | H : (_ && _) = true |- _ =>
             apply andb_true_iff in H; destruct H
         | H : (_ <=? _) = true |- _ => apply Z.leb_le in H
         end.
  cbn [length] in Hn.
  apply (Hrec r3 _ [b0; b1; b2; b3]); [lia|].
  apply utf8_encode_cp_4; lia.
Qed.

Lemma Forall_str_repeat (P : Z -> Prop) (s : str) (n : nat) :
  Forall P s -> Forall P (str_repeat s n).
Proof.
  intros H. induction n; cbn [str_repeat]; [constructor|].
  apply Forall_app. split; assumption.
Qed.

Lemma Forall_firstn (P : Z -> Prop) (n : nat) (l : list Z) :
  Forall P l -> Forall P (firstn n l).
Proof.
  intros H. revert n. induction H; intros [|n]; cbn [firstn]; auto.
Qed.

Lemma str_repeat_nonempty (s : str) :
  s <> [] -> (1 <= length (firstn 32 (str_repeat s 32)))%nat.
Proof.
  destruct s as [|c s]; [congruence|]. intros _.
  change (str_repeat (c :: s) 32) with (c :: s ++ str_repeat (c :: s) 31).
  cbn [firstn length]. lia.
Qed.

End EncodeFacts.

(* ------------------------------------------------------------------ *)
(** ** The two XOR ciphers are involutions that keep the length *)

Section XorFacts.
Open Scope Z_scope.

Lemma xor_with_key_total (key : bytes) (i : nat) (data : bytes) :
  key <> [] ->
  exists ct, xor_with_key key i data = Ok ct /\ length ct = length data.
Proof.
  intros Hk. revert i. induction data as [|b data IH]; intros i.
  - exists []. split; reflexivity.
  - cbn [xor_with_key]. destruct key as [|k key]; [congruence|].
    cbn [length Nat.eqb]. destruct (IH (S i)) as (ct & -> & Hl).
    cbn [bind]. eexists. split; [reflexivity|]. simpl. congruence.
Qed.

Lemma xor_with_key_involutive (key : bytes) (i : nat) (data ct : bytes) :
  xor_with_key key i data = Ok ct -> xor_with_key key i ct = Ok data.
Proof.
  revert i ct. induction data as [|b data IH]; intros i ct; cbn [xor_with_key].
  - intros H. apply Ok_inj in H. subst ct. reflexivity.
  - destruct (length key =? 0)%nat eqn:Hk; [discriminate|].
    destruct (xor_with_key key (S i) data) as [rest|] eqn:Hr; [|discriminate].
    cbn [bind]. intros H. apply Ok_inj in H. subst ct.
    cbn [xor_with_key]. rewrite Hk, (IH _ _ Hr). cbn [bind].
    rewrite Z.lxor_assoc, Z.lxor_nilpotent, Z.lxor_0_r. reflexivity.
Qed.

Lemma xor_with_key_raises (key : bytes) (i : nat) (data : bytes) (x : exn) :
  xor_with_key key i data = Raise x -> x = ZeroDivisionError.
Proof.
  revert i. induction data as [|b data IH]; intros i; cbn [xor_with_key];
    [discriminate|].
  destruct (length key =? 0)%nat; [congruence|].
  destruct (xor_with_key key (S i) data) eqn:Hr; cbn [bind]; [discriminate|].
  intros [= <-]. eapply IH. exact Hr.
Qed.

Lemma xor_with_stream_length (ks : nat -> Z) (i : nat) (data : bytes) :
  length (xor_with_stream ks i data) = length data.
Proof.
  revert i. induction data as [|b data IH]; intros i; simpl; [|rewrite IH];
    reflexivity.
Qed.

Lemma xor_with_stream_involutive (ks : nat -> Z) (i : nat) (data : bytes) :
  xor_with_stream ks i (xor_with_stream ks i data) = data.
Proof.
  revert i. induction data as [|b data IH]; intros i; cbn [xor_with_stream];
    [reflexivity|].
  rewrite IH, Z.lxor_assoc, Z.lxor_nilpotent, Z.lxor_0_r. reflexivity.
Qed.

Lemma lxor_cancel_l (a b c : Z) : Z.lxor a b = Z.lxor a c -> b = c.
Proof.
  intros H. apply (f_equal (Z.lxor a)) in H.
  rewrite <- !Z.lxor_assoc, Z.lxor_nilpotent, !Z.lxor_0_l in H. exact H.
Qed.

(** Two keys give one ciphertext exactly when they agree, each repeated, on
    the positions of the data. *)
Lemma xor_with_key_agree (key1 key2 : bytes) (i : nat) (data c1 c2 : bytes) :
  xor_with_key key1 i data = Ok c1 ->
  xor_with_key key2 i data = Ok c2 ->
  (c1 = c2
   <-> forall j, (j < length data)%nat ->
                 nth ((i + j) mod length key1) key1 0
                 = nth ((i + j) mod length key2) key2 0).
Proof.
  revert i c1 c2. induction data as [|b data IH]; intros i c1 c2;
    cbn [xor_with_key].
  - intros H1 H2. apply Ok_inj in H1, H2. subst c1 c2.
    split; [intros _ j Hj; cbn [length] in Hj; lia|reflexivity].
  - destruct (length key1 =? 0)%nat; [discriminate|].
    destruct (length key2 =? 0)%nat; [discriminate|].
    destruct (xor_with_key key1 (S i) data) as [r1|] eqn:E1; [|discriminate].
    destruct (xor_with_key key2 (S i) data) as [r2|] eqn:E2; [|discriminate].
    cbn [bind]. intros H1 H2. apply Ok_inj in H1, H2. subst c1 c2.
    specialize (IH (S i) r1 r2 E1 E2). split.
    + intros H. injection H as Hh Ht. apply lxor_cancel_l in Hh.
      intros [|j] Hj.
      * rewrite Nat.add_0_r. exact Hh.
      * replace (i + S j)%nat with (S i + j)%nat by lia.
        apply (proj1 IH Ht). cbn [length] in Hj. lia.
    + intros H. f_equal.
      * f_equal. specialize (H 0%nat). rewrite Nat.add_0_r in H.
        apply H. cbn [length]. lia.
      * apply (proj2 IH). intros j Hj.
        replace (S i + j)%nat with (i + S j)%nat by lia.
        apply H. cbn [length]. lia.
Qed.

(** Two keystreams give one ciphertext exactly when they agree on the
    positions of the data. *)
Lemma xor_with_stream_agree (ks1 ks2 : nat -> Z) (i : nat) (data : bytes) :
  xor_with_stream ks1 i data = xor_with_stream ks2 i data
  <-> forall j, (j < length data)%nat -> ks1 (i + j)%nat = ks2 (i + j)%nat.
Proof.
  revert i. induction data as [|b data IH]; intros i; cbn [xor_with_stream].
  - split; [intros _ j Hj; cbn [length] in Hj; lia|reflexivity].
  - specialize (IH (S i)). split.
    + intros H. injection H as Hh Ht. apply lxor_cancel_l in Hh.
      intros [|j] Hj.
      * rewrite Nat.add_0_r. exact Hh.
      * replace (i + S j)%nat with (S i + j)%nat by lia.
        apply (proj1 IH Ht). cbn [length] in Hj. lia.
    + intros H. f_equal.
      * f_equal. specialize (H 0%nat). rewrite Nat.add_0_r in H.
        apply H. cbn [length]. lia.
      * apply (proj2 IH). intros j Hj.
        replace (S i + j)%nat with (i + S j)%nat by lia.
        apply H. cbn [length]. lia.
Qed.

End XorFacts.

(* ------------------------------------------------------------------ *)
(** ** [CryptoHelper]: the sealed blob and its opening *)

Section CryptoFacts.
Open Scope Z_scope.

Variable lib : crypto_backend.

Lemma startswith_app (p rest : bytes) : startswith (p ++ rest) p = true.
Proof.
  induction p as [|x p IH]; cbn [startswith app]; [destruct rest; reflexivity|].
  rewrite Z.eqb_refl, IH. reflexivity.
Qed.

Lemma skipn_app_exact {A} (l r : list A) (n : nat) :
  length l = n -> skipn n (l ++ r) = r.
Proof.
  intros <-. rewrite skipn_app, skipn_all, Nat.sub_diag. reflexivity.
Qed.

Lemma firstn_app_exact {A} (l r : list A) (n : nat) :
  length l = n -> firstn n (l ++ r) = l.
Proof.
  intros <-. rewrite firstn_app, firstn_all, Nat.sub_diag, firstn_O.
  apply app_nil_r.
Qed.

(** Parsing a well-formed blob gives back its three fields. *)
Lemma parse_blob (salt nonce ct : bytes) :
  length salt = 16%nat -> length nonce = 12%nat ->
  let data := skipn (length MAGIC_HEADER)
                    (MAGIC_HEADER ++ salt ++ nonce ++ ct) in
  slice data 0 16 = salt /\ slice data 16 28 = nonce /\ skipn 28 data = ct.
Proof.
  intros Hs Hn data. subst data.
  rewrite (skipn_app_exact MAGIC_HEADER) by reflexivity.
  unfold slice. rewrite skipn_O, Nat.sub_0_r.
  change (28 - 16)%nat with 12%nat.
  split; [apply firstn_app_exact; exact Hs|].
  split.
  - rewrite (skipn_app_exact salt) by exact Hs.
    apply firstn_app_exact. exact Hn.
  - rewrite app_assoc. apply skipn_app_exact.
    rewrite length_app, Hs, Hn. reflexivity.
Qed.

Lemma derive_key_salt (password : str) (salt : bytes) (e : entropy) :
  derive_key lib password (Some salt) e
  = (if negb (CRYPTO_AVAILABLE lib)
     then key <- utf8_encode (firstn 32 (str_repeat password 32)) ;;
          Ok (key, salt, e)
     else pw <- utf8_encode password ;;
          Ok (PBKDF2HMAC_derive lib salt pw, salt, e)).
Proof. reflexivity. Qed.

Lemma derive_key_fresh (password : str) (e : entropy) :
  derive_key lib password None e
  = derive_key lib password (Some (salt_of e)) (fun i => e (16 + i)%nat).
Proof. reflexivity. Qed.

(** The key that a password gives with a salt, when it gives one. *)
Lemma derive_key_scalar (password : str) (salt : bytes) (e : entropy) :
  Forall scalar_value password ->
  exists key, derive_key lib password (Some salt) e = Ok (key, salt, e)
              /\ (CRYPTO_AVAILABLE lib = false -> password <> [] -> key <> []).
Proof.
  intros Hp. rewrite derive_key_salt.
  destruct (CRYPTO_AVAILABLE lib); cbn [negb].
  - destruct (utf8_encode_scalar password Hp) as (pw & -> & _). cbn [bind].
    eexists. split; [reflexivity|discriminate].
  - destruct (utf8_encode_scalar (firstn 32 (str_repeat password 32)))
      as (key & -> & Hl).
    { apply Forall_firstn, Forall_str_repeat, Hp. }
    cbn [bind]. exists key. split; [reflexivity|].
    intros _ Hne. pose proof (str_repeat_nonempty password Hne).
    destruct key; [cbn [length] in Hl; lia|discriminate].
Qed.

(** What [encrypt] returns, with its intermediate values. *)
Lemma encrypt_returns (plaintext password : str) (e : entropy) :
  Forall scalar_value plaintext -> Forall scalar_value password ->
  (CRYPTO_AVAILABLE lib = false -> password = [] -> plaintext = []) ->
  (CRYPTO_AVAILABLE lib = true -> accepts_nonce_12 lib) ->
  exists key data ct,
    derive_key lib password (Some (salt_of e)) (fun i => e (16 + i)%nat)
    = Ok (key, salt_of e, fun i => e (16 + i)%nat)
    /\ utf8_encode plaintext = Ok data
    /\ (if CRYPTO_AVAILABLE lib
        then exists keystream,
            ChaCha20 lib key (nonce_of e) = Some keystream
            /\ ct = xor_with_stream keystream 0 data
        else xor_with_key key 0 data = Ok ct)
    /\ length ct = length data
    /\ encrypt lib plaintext password e
       = Ok (MAGIC_HEADER ++ salt_of e ++ nonce_of e ++ ct, entropy_after e).
Proof.
  intros Hp Hpw Hne Hacc.
  destruct (derive_key_scalar password (salt_of e) (fun i => e (16 + i)%nat) Hpw)
    as (key & Hk & Hkne).
  destruct (utf8_encode_scalar plaintext Hp) as (data & Hd & _).
  unfold encrypt. rewrite derive_key_fresh, Hk. cbn [bind].
  change (os_urandom 12 (fun i => e (16 + i)%nat))
    with (nonce_of e, entropy_after e).
  cbv iota beta.
  destruct (CRYPTO_AVAILABLE lib) eqn:Hav; cbn [negb].
  - destruct (ChaCha20 lib key (nonce_of e)) as [keystream|] eqn:Hc.
    2:{ exfalso. exact (Hacc eq_refl key (nonce_of e) eq_refl Hc). }
    rewrite Hd. cbn [bind].
    exists key, data, (xor_with_stream keystream 0 data).
    split; [reflexivity|]. split; [reflexivity|].
    split; [exists keystream; split; [exact Hc|reflexivity]|].
    split; [apply xor_with_stream_length|reflexivity].
  - rewrite Hd. cbn [bind]. destruct plaintext as [|c plaintext].
    + apply Ok_inj in Hd. subst data. exists key, [], [].
      repeat split; reflexivity || assumption.
    + assert (Hkey : key <> []).
      { apply Hkne; [reflexivity|]. intros ->. specialize (Hne eq_refl eq_refl).
        discriminate. }
      destruct (xor_with_key_total key 0 data Hkey) as (ct & Hct & Hl).
      rewrite Hct. cbn [bind]. exists key, data, ct.
      repeat split; reflexivity || assumption.
Qed.

Lemma derive_key_entropy (password : str) (salt key : bytes) (e e' : entropy) :
  derive_key lib password (Some salt) e = Ok (key, salt, e) ->
  derive_key lib password (Some salt) e' = Ok (key, salt, e').
Proof.
  rewrite !derive_key_salt. destruct (negb (CRYPTO_AVAILABLE lib)).
  - destruct (utf8_encode _); cbn [bind]; [|discriminate].
    intros H. apply Ok_inj in H. congruence.
  - destruct (utf8_encode _); cbn [bind]; [|discriminate].
    intros H. apply Ok_inj in H. congruence.
Qed.

(** [decrypt] on a blob with the three fields in place. *)
Lemma decrypt_parsed (salt nonce ct : bytes) (password : str) (e : entropy) :
  length salt = 16%nat -> length nonce = 12%nat ->
  decrypt lib (MAGIC_HEADER ++ salt ++ nonce ++ ct) password e
  = (ks <- derive_key lib password (Some salt) e ;;
     let '(key, _, e) := ks in
     if negb (CRYPTO_AVAILABLE lib) then
       decrypted <- xor_with_key key 0 ct ;;
       s <- utf8_decode decrypted ;;
       Ok (s, e)
     else
       match ChaCha20 lib key nonce with
       | None => Raise CipherRefused
       | Some keystream =>
           s <- utf8_decode (xor_with_stream keystream 0 ct) ;;
           Ok (s, e)
       end).
Proof.
  intros Hs Hn. unfold decrypt. rewrite startswith_app. cbn [negb].
  destruct (parse_blob salt nonce ct Hs Hn) as (-> & -> & ->).
  reflexivity.
Qed.

Lemma salt_of_length (e : entropy) : length (salt_of e) = 16%nat.
Proof. reflexivity. Qed.

Lemma nonce_of_length (e : entropy) : length (nonce_of e) = 12%nat.
Proof. reflexivity. Qed.

(** The package's cipher asks for a nonce of 16 bytes, so [encrypt]
    returns nothing where the package is installed. *)
Lemma encrypt_refused (plaintext password : str) (e : entropy) :
  CRYPTO_AVAILABLE lib = true ->
  Forall scalar_value password ->
  (forall key nonce, length nonce <> 16%nat -> ChaCha20 lib key nonce = None) ->
  encrypt lib plaintext password e = Raise CipherRefused.
Proof.
  intros Hav Hpw Hstrict.
  destruct (derive_key_scalar password (salt_of e) (fun i => e (16 + i)%nat) Hpw)
    as (key & Hk & _).
  unfold encrypt. rewrite derive_key_fresh, Hk. cbn [bind].
  change (os_urandom 12 (fun i => e (16 + i)%nat))
    with (nonce_of e, entropy_after e).
  cbv iota beta. rewrite Hav. cbn [negb].
  rewrite Hstrict; [reflexivity|]. rewrite nonce_of_length. discriminate.
Qed.

(** What [encrypt] has done when it returns a blob. *)
Lemma encrypt_inversion (plaintext password : str) (e e1 : entropy)
      (blob : bytes) :
  encrypt lib plaintext password e = Ok (blob, e1) ->
  exists key data ct,
    derive_key lib password (Some (salt_of e)) (fun i => e (16 + i)%nat)
    = Ok (key, salt_of e, fun i => e (16 + i)%nat)
    /\ utf8_encode plaintext = Ok data
    /\ (if CRYPTO_AVAILABLE lib
        then exists keystream,
            ChaCha20 lib key (nonce_of e) = Some keystream
            /\ ct = xor_with_stream keystream 0 data
        else xor_with_key key 0 data = Ok ct)
    /\ blob = MAGIC_HEADER ++ salt_of e ++ nonce_of e ++ ct
    /\ e1 = entropy_after e.
Proof.
  unfold encrypt. rewrite derive_key_fresh, derive_key_salt.
  destruct (CRYPTO_AVAILABLE lib); cbn [negb].
  - destruct (utf8_encode password) as [pw|]; cbn [bind]; [|discriminate].
    change (os_urandom 12 (fun i => e (16 + i)%nat))
      with (nonce_of e, entropy_after e).
    cbv iota beta.
    destruct (ChaCha20 lib (PBKDF2HMAC_derive lib (salt_of e) pw) (nonce_of e))
      as [keystream|] eqn:Hc; [|discriminate].
    destruct (utf8_encode plaintext) as [data|]; cbn [bind]; [|discriminate].
    intros H. apply Ok_inj in H. injection H as <- <-.
    exists (PBKDF2HMAC_derive lib (salt_of e) pw), data,
      (xor_with_stream keystream 0 data).
    split; [reflexivity|]. split; [reflexivity|].
    split; [exists keystream; split; [exact Hc|reflexivity]|].
    split; reflexivity.
  - destruct (utf8_encode (firstn 32 (str_repeat password 32))) as [key|];
      cbn [bind]; [|discriminate].
    change (os_urandom 12 (fun i => e (16 + i)%nat))
      with (nonce_of e, entropy_after e).
    cbv iota beta.
    destruct (utf8_encode plaintext) as [data|]; cbn [bind]; [|discriminate].
    destruct (xor_with_key key 0 data) as [ct|] eqn:Hx; cbn [bind];
      [|discriminate].
    intros H. apply Ok_inj in H. injection H as <- <-.
    exists key, data, ct. repeat split; try reflexivity. exact Hx.
Qed.

(** Whatever [encrypt] has sealed, [decrypt] opens with the same
    password. *)
Lemma decrypt_of_encrypted (plaintext password : str) (e e1 : entropy)
      (blob : bytes) :
  encrypt lib plaintext password e = Ok (blob, e1) ->
  forall e', decrypt lib blob password e' = Ok (plaintext, e').
Proof.
  intros Henc e'.
  destruct (encrypt_inversion _ _ _ _ _ Henc)
    as (key & data & ct & Hk & Hd & Hct & -> & _).
  rewrite decrypt_parsed by reflexivity.
  rewrite (derive_key_entropy _ _ _ _ e' Hk). cbn [bind]. cbv iota beta.
  destruct (CRYPTO_AVAILABLE lib); cbn [negb].
  - destruct Hct as (keystream & -> & ->).
    rewrite xor_with_stream_involutive.
    rewrite (utf8_decode_encode _ _ Hd). reflexivity.
  - rewrite (xor_with_key_involutive _ _ _ _ Hct). cbn [bind].
    rewrite (utf8_decode_encode _ _ Hd). reflexivity.
Qed.

(** With the package's cipher [decrypt] opens nothing either: the nonce it
    cuts from a blob has 12 bytes at most. *)
Lemma decrypt_refused (encrypted : bytes) (password : str) (e : entropy) :
  CRYPTO_AVAILABLE lib = true -> takes_nonce_16_only lib ->
  exists x, decrypt lib encrypted password e = Raise x.
Proof.
  intros Hav Hstrict. unfold decrypt.
  destruct (startswith encrypted MAGIC_HEADER); cbn [negb];
    [|eexists; reflexivity].
  rewrite derive_key_salt, Hav. cbn [negb].
  destruct (utf8_encode password) as [pw|x]; cbn [bind];
    [|eexists; reflexivity].
  rewrite Hstrict; [eexists; reflexivity|].
  unfold slice. rewrite length_firstn. lia.
Qed.

(** C2.  Where the [cryptography] package is installed nothing is sealed
    and nothing is opened.  Its ChaCha20 takes a nonce of 16 bytes; [encrypt]
    draws one of 12 and [decrypt] cuts one of 12 from the blob.  So, for
    every plaintext and every password, [encrypt] raises (the cipher's
    ValueError, once the password has been encoded), [decrypt] raises on
    every blob, and [decrypt (encrypt p pw) pw] raises instead of returning
    [p]. *)
Theorem decrypt_encrypt_with_package (plaintext password : str) (e : entropy) :
  CRYPTO_AVAILABLE lib = true -> takes_nonce_16_only lib ->
  (Forall scalar_value password ->
   encrypt lib plaintext password e = Raise CipherRefused)
  /\ (exists x, encrypt lib plaintext password e = Raise x)
  /\ (forall blob e', exists x, decrypt lib blob password e' = Raise x)
  /\ (exists x, encrypt_then_decrypt lib plaintext password e = Raise x)
  /\ forall e',
      encrypt_then_decrypt lib plaintext password e <> Ok (plaintext, e').
Proof.
  intros Hav Hstrict.
  assert (Henc : exists x, encrypt lib plaintext password e = Raise x).
  { unfold encrypt. rewrite derive_key_fresh, derive_key_salt, Hav.
    cbn [negb].
    destruct (utf8_encode password) as [pw|x]; cbn [bind];
      [|eexists; reflexivity].
    change (os_urandom 12 (fun i => e (16 + i)%nat))
      with (nonce_of e, entropy_after e).
    cbv iota beta.
    rewrite Hstrict; [eexists; reflexivity|].
    rewrite nonce_of_length. discriminate. }
  split; [intros Hpw; apply encrypt_refused; assumption|].
  split; [exact Henc|].
  split; [intros blob e'; apply decrypt_refused; assumption|].
  destruct Henc as (x & Hx). unfold encrypt_then_decrypt. rewrite Hx.
  split; [exists x; reflexivity|]. intros e'. discriminate.
Qed.

(** C6.  Where the [cryptography] package is installed [encrypt] returns
    no blob of any format: for every plaintext and password it raises (the
    cipher refuses the 12-byte nonce), before the plaintext is looked at. *)
Theorem encrypt_with_package_no_blob (plaintext password : str) (e : entropy) :
  CRYPTO_AVAILABLE lib = true -> takes_nonce_16_only lib ->
  (forall blob e', encrypt lib plaintext password e <> Ok (blob, e'))
  /\ (utf8_encode password = Raise UnicodeEncodeError
      \/ encrypt lib plaintext password e = Raise CipherRefused).
Proof.
  intros Hav Hstrict.
  assert (H : utf8_encode password = Raise UnicodeEncodeError
              \/ encrypt lib plaintext password e = Raise CipherRefused).
  { unfold encrypt. rewrite derive_key_fresh, derive_key_salt, Hav.
    cbn [negb].
    destruct (utf8_encode password) as [pw|x] eqn:Hpw; cbn [bind].
    - right.
      change (os_urandom 12 (fun i => e (16 + i)%nat))
        with (nonce_of e, entropy_after e).
      cbv iota beta.
      rewrite Hstrict; [reflexivity|]. rewrite nonce_of_length. discriminate.
    - left. apply utf8_encode_raises in Hpw. subst x. reflexivity. }
  split; [|exact H].
  intros blob e' Henc. destruct H as [H|H]; [|congruence].
  revert Henc. unfold encrypt. rewrite derive_key_fresh, derive_key_salt, Hav.
  cbn [negb]. rewrite H. discriminate.
Qed.

(** C4, as amended.  [decrypt] raises its "Invalid Milcodec encrypted data"
    error exactly when the blob does not start with MAGIC: no length is
    checked, and no later step raises that error.  On a blob that has the
    three fields it takes the salt and the nonce from their offsets, derives
    the key again and decrypts what follows. *)
Theorem decrypt_invalid_iff (encrypted : bytes) (password : str) (e : entropy) :
  (decrypt lib encrypted password e = Raise InvalidMilcodecData
   <-> startswith encrypted MAGIC_HEADER = false)
  /\ forall salt nonce ct,
      length salt = 16%nat -> length nonce = 12%nat ->
      decrypt lib (MAGIC_HEADER ++ salt ++ nonce ++ ct) password e
      = (ks <- derive_key lib password (Some salt) e ;;
         let '(key, _, e) := ks in
         if negb (CRYPTO_AVAILABLE lib) then
           decrypted <- xor_with_key key 0 ct ;;
           s <- utf8_decode decrypted ;;
           Ok (s, e)
         else
           match ChaCha20 lib key nonce with
           | None => Raise CipherRefused
           | Some keystream =>
               s <- utf8_decode (xor_with_stream keystream 0 ct) ;;
               Ok (s, e)
           end).
Proof.
  split; [|intros salt nonce ct; apply decrypt_parsed].
  unfold decrypt. destruct (startswith encrypted MAGIC_HEADER); cbn [negb].
  2:{ split; reflexivity. }
  split; [|discriminate]. intros H. exfalso. revert H.
  rewrite derive_key_salt.
  destruct (CRYPTO_AVAILABLE lib); cbn [negb].
  - destruct (utf8_encode password) as [pw|x] eqn:Hpw; cbn [bind].
    + destruct (ChaCha20 lib _ _) as [keystream|]; [|discriminate].
      destruct (utf8_decode _) as [s|x] eqn:Hs; cbn [bind]; [discriminate|].
      apply utf8_decode_raises in Hs. congruence.
    + apply utf8_encode_raises in Hpw. congruence.
  - destruct (utf8_encode _) as [key|x] eqn:Hkey; cbn [bind].
    + destruct (xor_with_key _ _ _) as [d|x] eqn:Hx; cbn [bind].
      * destruct (utf8_decode _) as [s|x] eqn:Hs; cbn [bind]; [discriminate|].
        apply utf8_decode_raises in Hs. congruence.
      * apply xor_with_key_raises in Hx. congruence.
    + apply utf8_encode_raises in Hkey. congruence.
Qed.

(** A blob that [encrypt] made with one password, opened with another:
    when the plaintext comes back, what else can happen, and what it means
    for the keys of the fallback and for the keystreams of the cipher. *)
Lemma decrypt_other_password_cases (plaintext pw1 pw2 : str) (blob : bytes)
        (e e1 : entropy) :
  encrypt lib plaintext pw1 e = Ok (blob, e1) ->
  Forall scalar_value pw2 -> pw2 <> [] ->
  forall e',
    (decrypt lib blob pw2 e' = Ok (plaintext, e')
     <-> encrypt lib plaintext pw2 e = Ok (blob, e1))
    /\ ((exists s, decrypt lib blob pw2 e' = Ok (s, e'))
        \/ decrypt lib blob pw2 e' = Raise UnicodeDecodeError
        \/ decrypt lib blob pw2 e' = Raise CipherRefused)
    /\ (CRYPTO_AVAILABLE lib = false ->
        exists key1 key2 data,
          utf8_encode (firstn 32 (str_repeat pw1 32)) = Ok key1
          /\ utf8_encode (firstn 32 (str_repeat pw2 32)) = Ok key2
          /\ utf8_encode plaintext = Ok data
          /\ (decrypt lib blob pw2 e' = Ok (plaintext, e')
              <-> forall i, (i < length data)%nat ->
                            nth (i mod length key1) key1 0
                            = nth (i mod length key2) key2 0))
    /\ (CRYPTO_AVAILABLE lib = true ->
        forall pwb2 keystream2,
          utf8_encode pw2 = Ok pwb2 ->
          ChaCha20 lib (PBKDF2HMAC_derive lib (salt_of e) pwb2) (nonce_of e)
          = Some keystream2 ->
          exists pwb1 keystream1 data,
            utf8_encode pw1 = Ok pwb1
            /\ ChaCha20 lib (PBKDF2HMAC_derive lib (salt_of e) pwb1)
                 (nonce_of e) = Some keystream1
            /\ utf8_encode plaintext = Ok data
            /\ (decrypt lib blob pw2 e' = Ok (plaintext, e')
                <-> forall i, (i < length data)%nat ->
                              keystream1 i = keystream2 i)).
Proof.
  intros Henc H2 Hne2 e'.
  destruct (encrypt_inversion _ _ _ _ _ Henc)
    as (key1 & data & ct & Hk1 & Hd & Hct & -> & ->).
  destruct (derive_key_scalar pw2 (salt_of e) e' H2) as (key2 & Hk2 & Hkne).
  pose proof (derive_key_entropy _ _ _ _ (fun i => e (16 + i)%nat) Hk2) as Hk2e.
  (* what [decrypt] computes, and what [encrypt] would with [pw2] *)
  assert (Hdec : decrypt lib (MAGIC_HEADER ++ salt_of e ++ nonce_of e ++ ct)
                   pw2 e'
                 = if negb (CRYPTO_AVAILABLE lib) then
                     decrypted <- xor_with_key key2 0 ct ;;
                     s <- utf8_decode decrypted ;; Ok (s, e')
                   else
                     match ChaCha20 lib key2 (nonce_of e) with
                     | None => Raise CipherRefused
                     | Some keystream =>
                         s <- utf8_decode (xor_with_stream keystream 0 ct) ;;
                         Ok (s, e')
                     end).
  { rewrite decrypt_parsed by reflexivity. rewrite Hk2. reflexivity. }
  assert (Henc2 : encrypt lib plaintext pw2 e
                  = if negb (CRYPTO_AVAILABLE lib) then
                      encrypted <- xor_with_key key2 0 data ;;
                      Ok (MAGIC_HEADER ++ salt_of e ++ nonce_of e ++ encrypted,
                          entropy_after e)
                    else
                      match ChaCha20 lib key2 (nonce_of e) with
                      | None => Raise CipherRefused
                      | Some keystream =>
                          Ok (MAGIC_HEADER ++ salt_of e ++ nonce_of e
                                ++ xor_with_stream keystream 0 data,
                              entropy_after e)
                      end).
  { unfold encrypt. rewrite derive_key_fresh, Hk2e. cbn [bind].
    change (os_urandom 12 (fun i => e (16 + i)%nat))
      with (nonce_of e, entropy_after e).
    cbv iota beta. rewrite Hd. cbn [bind].
    destruct (negb (CRYPTO_AVAILABLE lib)); [reflexivity|].
    destruct (ChaCha20 lib key2 (nonce_of e)); reflexivity. }
  assert (Hsame : forall c,
             Ok (MAGIC_HEADER ++ salt_of e ++ nonce_of e ++ c, entropy_after e)
             = Ok (MAGIC_HEADER ++ salt_of e ++ nonce_of e ++ ct,
                   entropy_after e)
             <-> c = ct).
  { intros c. split; [|intros ->; reflexivity].
    intros H. apply Ok_inj in H. injection H as H.
    repeat apply app_inv_head in H. exact H. }
  rewrite Hdec, Henc2.
  destruct (CRYPTO_AVAILABLE lib) eqn:Hav; cbn [negb].
  - (* the package *)
    destruct Hct as (keystream1 & Hc1 & ->).
    destruct (ChaCha20 lib key2 (nonce_of e)) as [keystream2|] eqn:Hc2.
    + assert (Hiff : (s <- utf8_decode
                            (xor_with_stream keystream2 0
                               (xor_with_stream keystream1 0 data)) ;;
                      Ok (s, e')) = Ok (plaintext, e')
                     <-> xor_with_stream keystream2 0 data
                         = xor_with_stream keystream1 0 data).
      { split.
        - destruct (utf8_decode _) as [s|] eqn:Hs; cbn [bind]; [|discriminate].
          intros H. apply Ok_inj in H. injection H as ->.
          apply utf8_encode_decode in Hs. rewrite Hd in Hs.
          apply Ok_inj in Hs.
          rewrite Hs at 1. rewrite xor_with_stream_involutive. reflexivity.
        - intros <-. rewrite xor_with_stream_involutive.
          rewrite (utf8_decode_encode _ _ Hd). reflexivity. }
      split; [rewrite Hiff, Hsame; reflexivity|].
      split.
      { destruct (utf8_decode _) as [s|x] eqn:Hs; cbn [bind].
        - left. exists s. reflexivity.
        - right. left. apply utf8_decode_raises in Hs. congruence. }
      split; [discriminate|].
      intros _ pwb2 ks2 Hp2 Hks2.
      revert Hk1 Hk2. rewrite !derive_key_salt, Hav. cbn [negb].
      rewrite Hp2. cbn [bind].
      destruct (utf8_encode pw1) as [pwb1|]; cbn [bind]; [|discriminate].
      intros E1 E2. apply Ok_inj in E1, E2.
      injection E1 as E1. injection E2 as E2. subst key1 key2.
      assert (ks2 = keystream2) by congruence. subst ks2.
      exists pwb1, keystream1, data.
      split; [reflexivity|]. split; [exact Hc1|]. split; [exact Hd|].
      rewrite Hiff. rewrite (xor_with_stream_agree keystream2 keystream1 0 data).
      cbn [Nat.add]. split; intros H i Hi; symmetry; apply H; exact Hi.
    + split.
      { split; discriminate. }
      split; [right; right; reflexivity|].
      split; [discriminate|].
      intros _ pwb2 ks2 Hp2 Hks2. exfalso.
      revert Hk2. rewrite derive_key_salt, Hav. cbn [negb].
      rewrite Hp2. cbn [bind]. intros E2. apply Ok_inj in E2.
      injection E2 as E2. subst key2. congruence.
  - (* the fallback *)
    assert (Hkey2 : key2 <> []) by (apply Hkne; [reflexivity|exact Hne2]).
    destruct (xor_with_key_total key2 0 ct Hkey2) as (d2 & Hx2 & _).
    destruct (xor_with_key_total key2 0 data Hkey2) as (c2 & Hy2 & _).
    rewrite Hx2, Hy2. cbn [bind].
    assert (Hiff : (s <- utf8_decode d2 ;; Ok (s, e')) = Ok (plaintext, e')
                   <-> c2 = ct).
    { split.
      - destruct (utf8_decode d2) as [s|] eqn:Hs; cbn [bind]; [|discriminate].
        intros H. apply Ok_inj in H. injection H as ->.
        apply utf8_encode_decode in Hs. rewrite Hd in Hs.
        apply Ok_inj in Hs. subst d2.
        apply xor_with_key_involutive in Hx2. congruence.
      - intros ->. apply xor_with_key_involutive in Hy2.
        assert (d2 = data) by congruence. subst d2.
        rewrite (utf8_decode_encode _ _ Hd). reflexivity. }
    split; [rewrite Hiff, Hsame; reflexivity|].
    split.
    { destruct (utf8_decode d2) as [s|x] eqn:Hs; cbn [bind].
      - left. exists s. reflexivity.
      - right. left. apply utf8_decode_raises in Hs. congruence. }
    split; [|discriminate].
    intros _. revert Hk1 Hk2. rewrite !derive_key_salt, Hav. cbn [negb].
    destruct (utf8_encode (firstn 32 (str_repeat pw1 32))) as [k1|];
      cbn [bind]; [|discriminate].
    destruct (utf8_encode (firstn 32 (str_repeat pw2 32))) as [k2|];
      cbn [bind]; [|discriminate].
    intros E1 E2. apply Ok_inj in E1, E2.
    injection E1 as E1. injection E2 as E2. subst k1 k2.
    exists key1, key2, data.
    split; [reflexivity|]. split; [reflexivity|]. split; [exact Hd|].
    rewrite Hiff.
    rewrite (xor_with_key_agree key2 key1 0 data c2 ct Hy2 Hct).
    cbn [Nat.add]. split; intros H i Hi; symmetry; apply H; exact Hi.
Qed.

(** C3, as amended.  A blob that [encrypt] made with one password, opened
    with another that is not empty, passes the only check there is.  The
    opening returns the plaintext exactly when the other password seals the
    plaintext into the same blob (under the same salt and nonce), that is
    when the two key streams agree on the bytes of the plaintext: the keys
    of the fallback, each repeated, or the keystreams of the cipher.
    Otherwise it returns another string or raises, in the UTF-8 decoding or
    in the cipher. *)
Theorem decrypt_other_password (plaintext pw1 pw2 : str) (blob : bytes)
        (e e1 : entropy) :
  encrypt lib plaintext pw1 e = Ok (blob, e1) ->
  Forall scalar_value pw2 -> pw2 <> [] ->
  forall e',
    (decrypt lib blob pw2 e' = Ok (plaintext, e')
     <-> encrypt lib plaintext pw2 e = Ok (blob, e1))
    /\ ((exists s, decrypt lib blob pw2 e' = Ok (s, e'))
        \/ decrypt lib blob pw2 e' = Raise UnicodeDecodeError
        \/ decrypt lib blob pw2 e' = Raise CipherRefused)
    /\ (encrypt lib plaintext pw2 e <> Ok (blob, e1) ->
        (exists s, decrypt lib blob pw2 e' = Ok (s, e') /\ s <> plaintext)
        \/ decrypt lib blob pw2 e' = Raise UnicodeDecodeError
        \/ decrypt lib blob pw2 e' = Raise CipherRefused)
    /\ (CRYPTO_AVAILABLE lib = false ->
        exists key1 key2 data,
          utf8_encode (firstn 32 (str_repeat pw1 32)) = Ok key1
          /\ utf8_encode (firstn 32 (str_repeat pw2 32)) = Ok key2
          /\ utf8_encode plaintext = Ok data
          /\ (decrypt lib blob pw2 e' = Ok (plaintext, e')
              <-> forall i, (i < length data)%nat ->
                            nth (i mod length key1) key1 0
                            = nth (i mod length key2) key2 0))
    /\ (CRYPTO_AVAILABLE lib = true ->
        forall pwb2 keystream2,
          utf8_encode pw2 = Ok pwb2 ->
          ChaCha20 lib (PBKDF2HMAC_derive lib (salt_of e) pwb2) (nonce_of e)
          = Some keystream2 ->
          exists pwb1 keystream1 data,
            utf8_encode pw1 = Ok pwb1
            /\ ChaCha20 lib (PBKDF2HMAC_derive lib (salt_of e) pwb1)
                 (nonce_of e) = Some keystream1
            /\ utf8_encode plaintext = Ok data
            /\ (decrypt lib blob pw2 e' = Ok (plaintext, e')
                <-> forall i, (i < length data)%nat ->
                              keystream1 i = keystream2 i)).
Proof.
  intros Henc H2 Hne2 e'.
  destruct (decrypt_other_password_cases plaintext pw1 pw2 blob e e1
              Henc H2 Hne2 e') as (Hiff & Hout & Hfb & Hlib).
  split; [exact Hiff|]. split; [exact Hout|].
  split; [|split; [exact Hfb|exact Hlib]].
  intros Hother. destruct Hout as [(s & Hs)|[Hr|Hr]].
  - left. exists s. split; [exact Hs|].
    intros ->. apply Hother. apply Hiff. exact Hs.
  - right. left. exact Hr.
  - right. right. exact Hr.
Qed.

End CryptoFacts.

(* ------------------------------------------------------------------ *)
(** ** [CryptoHelper] on concrete inputs *)

Section CryptoExamples.
Open Scope Z_scope.

Ltac scalar_values :=
  repeat first [ apply Forall_nil
               | apply Forall_cons; [split; [lia | reflexivity] |] ].

Lemma toy_cryptography_accepts : accepts_nonce_12 toy_cryptography.
Proof.
  intros key nonce H. cbn [ChaCha20 toy_cryptography]. rewrite H.
  discriminate.
Qed.

(** Without the [cryptography] package, sealing "A" with the empty
    password divides by the length of an empty key. *)
Lemma encrypt_empty_password_raises :
  encrypt no_cryptography [65] [] counting_entropy = Raise ZeroDivisionError
  /\ ~ (exists blob e',
          encrypt no_cryptography [65] [] counting_entropy = Ok (blob, e')
          /\ decrypt no_cryptography blob [] e' = Ok ([65], e')).
Proof.
  split; [reflexivity|]. intros (blob & e' & H & _). discriminate H.
Qed.

(** A round trip through the other branch, on the stand-in whose cipher
    takes the 12-byte nonce. *)
Example decrypt_encrypt_toy :
  exists blob,
    encrypt toy_cryptography [72; 105] [] counting_entropy
    = Ok (blob, entropy_after counting_entropy)
    /\ forall e', decrypt toy_cryptography blob [] e' = Ok ([72; 105], e').
Proof.
  eexists. split; [reflexivity|]. intros e'. reflexivity.
Qed.

(** Without the package the empty password gives no blob for "M", and the
    blob of the one-character plaintext "é" has 41 bytes, 39 more than its
    UTF-8 encoding. *)
Lemma encrypt_blob_length_counterexample :
  encrypt no_cryptography [77] [] counting_entropy = Raise ZeroDivisionError
  /\ exists blob,
       encrypt no_cryptography [233] [107] counting_entropy
       = Ok (blob, entropy_after counting_entropy)
       /\ length blob = 41%nat
       /\ length blob <> (39 + length [233])%nat.
Proof.
  split; [reflexivity|]. eexists. split; [reflexivity|].
  split; [reflexivity|]. discriminate.
Qed.

(** C4 fails as stated: the 11 bytes of MAGIC alone are shorter than the
    39-byte header and open without an error, to the empty string. *)
Lemma decrypt_short_blob_accepted :
  (length MAGIC_HEADER < 39)%nat
  /\ decrypt no_cryptography MAGIC_HEADER [107] counting_entropy
     = Ok ([], counting_entropy).
Proof. split; [simpl; lia|reflexivity]. Qed.

(** C3 fails as stated, on both counts: the empty plaintext sealed with "a"
    opens with "b" to the plaintext itself, and "é" sealed with "a" makes
    the opening with "b" raise UnicodeDecodeError. *)
Lemma decrypt_other_password_counterexample :
  (exists blob,
     encrypt no_cryptography [] [97] counting_entropy
     = Ok (blob, entropy_after counting_entropy)
     /\ decrypt no_cryptography blob [98] counting_entropy
        = Ok ([], counting_entropy))
  /\ (exists blob,
        encrypt no_cryptography [233] [97] counting_entropy
        = Ok (blob, entropy_after counting_entropy)
        /\ decrypt no_cryptography blob [98] counting_entropy
           = Raise UnicodeDecodeError).
Proof.
  split; eexists; (split; [reflexivity|]); reflexivity.
Qed.

Lemma strict_cryptography_nonce_16 : takes_nonce_16_only strict_cryptography.
Proof.
  intros key nonce H. cbn [ChaCha20 strict_cryptography].
  destruct (Nat.eqb_spec (length nonce) 16); [contradiction|reflexivity].
Qed.

Lemma decrypt_encrypt_with_package_witness :
  (Forall scalar_value [107] ->
   encrypt strict_cryptography [72; 105] [107] counting_entropy
   = Raise CipherRefused)
  /\ (exists x,
         encrypt strict_cryptography [72; 105] [107] counting_entropy = Raise x)
  /\ (forall blob e',
         exists x, decrypt strict_cryptography blob [107] e' = Raise x)
  /\ (exists x,
         encrypt_then_decrypt strict_cryptography [72; 105] [107]
           counting_entropy = Raise x)
  /\ forall e',
      encrypt_then_decrypt strict_cryptography [72; 105] [107] counting_entropy
      <> Ok ([72; 105], e').
Proof.
  apply (decrypt_encrypt_with_package strict_cryptography [72; 105] [107]
           counting_entropy).
  - reflexivity.
  - exact strict_cryptography_nonce_16.
Defined.

Lemma encrypt_with_package_no_blob_witness :
  (forall blob e',
      encrypt strict_cryptography [72; 105] [107] counting_entropy
      <> Ok (blob, e'))
  /\ (utf8_encode [107] = Raise UnicodeEncodeError
      \/ encrypt strict_cryptography [72; 105] [107] counting_entropy
         = Raise CipherRefused).
Proof.
  apply (encrypt_with_package_no_blob strict_cryptography [72; 105] [107]
           counting_entropy).
  - reflexivity.
  - exact strict_cryptography_nonce_16.
Defined.

(** "hi" sealed with "a" and opened with "b". *)
Lemma decrypt_other_password_witness :
  (decrypt no_cryptography
     (MAGIC_HEADER ++ salt_of counting_entropy ++ nonce_of counting_entropy
        ++ [41; 8]) [98] counting_entropy
   = Ok ([72; 105], counting_entropy)
   <-> encrypt no_cryptography [72; 105] [98] counting_entropy
       = Ok (MAGIC_HEADER ++ salt_of counting_entropy
               ++ nonce_of counting_entropy ++ [41; 8],
             entropy_after counting_entropy))
  /\ ((exists s,
          decrypt no_cryptography
            (MAGIC_HEADER ++ salt_of counting_entropy
               ++ nonce_of counting_entropy ++ [41; 8]) [98] counting_entropy
          = Ok (s, counting_entropy))
      \/ decrypt no_cryptography
           (MAGIC_HEADER ++ salt_of counting_entropy
              ++ nonce_of counting_entropy ++ [41; 8]) [98] counting_entropy
         = Raise UnicodeDecodeError
      \/ decrypt no_cryptography
           (MAGIC_HEADER ++ salt_of counting_entropy
              ++ nonce_of counting_entropy ++ [41; 8]) [98] counting_entropy
         = Raise CipherRefused)
  /\ (encrypt no_cryptography [72; 105] [98] counting_entropy
      <> Ok (MAGIC_HEADER ++ salt_of counting_entropy
               ++ nonce_of counting_entropy ++ [41; 8],
             entropy_after counting_entropy) ->
      (exists s,
          decrypt no_cryptography
            (MAGIC_HEADER ++ salt_of counting_entropy
               ++ nonce_of counting_entropy ++ [41; 8]) [98] counting_entropy
          = Ok (s, counting_entropy)
          /\ s <> [72; 105])
      \/ decrypt no_cryptography
           (MAGIC_HEADER ++ salt_of counting_entropy
              ++ nonce_of counting_entropy ++ [41; 8]) [98] counting_entropy
         = Raise UnicodeDecodeError
      \/ decrypt no_cryptography
           (MAGIC_HEADER ++ salt_of counting_entropy
              ++ nonce_of counting_entropy ++ [41; 8]) [98] counting_entropy
         = Raise CipherRefused)
  /\ (CRYPTO_AVAILABLE no_cryptography = false ->
      exists key1 key2 data,
        utf8_encode (firstn 32 (str_repeat [97] 32)) = Ok key1
        /\ utf8_encode (firstn 32 (str_repeat [98] 32)) = Ok key2
        /\ utf8_encode [72; 105] = Ok data
        /\ (decrypt no_cryptography
              (MAGIC_HEADER ++ salt_of counting_entropy
                 ++ nonce_of counting_entropy ++ [41; 8]) [98]
              counting_entropy
            = Ok ([72; 105], counting_entropy)
            <-> forall i, (i < length data)%nat ->
                          nth (i mod length key1) key1 0
                          = nth (i mod length key2) key2 0))
  /\ (CRYPTO_AVAILABLE no_cryptography = true ->
      forall pwb2 keystream2,
        utf8_encode [98] = Ok pwb2 ->
        ChaCha20 no_cryptography
          (PBKDF2HMAC_derive no_cryptography (salt_of counting_entropy) pwb2)
          (nonce_of counting_entropy) = Some keystream2 ->
        exists pwb1 keystream1 data,
          utf8_encode [97] = Ok pwb1
          /\ ChaCha20 no_cryptography
               (PBKDF2HMAC_derive no_cryptography (salt_of counting_entropy)
                  pwb1)
               (nonce_of counting_entropy) = Some keystream1
          /\ utf8_encode [72; 105] = Ok data
          /\ (decrypt no_cryptography
                (MAGIC_HEADER ++ salt_of counting_entropy
                   ++ nonce_of counting_entropy ++ [41; 8]) [98]
                counting_entropy
              = Ok ([72; 105], counting_entropy)
              <-> forall i, (i < length data)%nat ->
                            keystream1 i = keystream2 i)).
Proof.
  apply (decrypt_other_password no_cryptography [72; 105] [97] [98]
           (MAGIC_HEADER ++ salt_of counting_entropy
              ++ nonce_of counting_entropy ++ [41; 8])
           counting_entropy (entropy_after counting_entropy)).
  - reflexivity.
  - scalar_values.
  - discriminate.
Defined.

End CryptoExamples.

(* ------------------------------------------------------------------ *)
(** ** Bits and bytes *)

Section BitFacts.
Open Scope Z_scope.

Lemma byte_bits_are_bits (byte : Z) : Forall is_bit (byte_bits byte).
Proof.
  unfold byte_bits. apply Forall_map, Forall_forall. intros i _.
  change 1 with (Z.ones 1). rewrite Z.land_ones by lia.
  unfold is_bit. change (2 ^ 1) with 2.
  pose proof (Z.mod_pos_bound (Z.shiftr byte (7 - i)) 2). lia.
Qed.

Lemma bytes_to_bits_are_bits (data : bytes) : Forall is_bit (bytes_to_bits data).
Proof.
  induction data as [|b data IH]; cbn [bytes_to_bits flat_map]; [constructor|].
  apply Forall_app. split; [apply byte_bits_are_bits|exact IH].
Qed.

Lemma bytes_to_bits_length (data : bytes) :
  length (bytes_to_bits data) = (8 * length data)%nat.
Proof.
  induction data as [|b data IH]; [reflexivity|].
  cbn [bytes_to_bits flat_map]. rewrite length_app. fold (bytes_to_bits data).
  rewrite IH. cbn [byte_bits map length]. lia.
Qed.

Lemma byte_of_bits_all :
  forallb byte_of_bits_ok (map Z.of_nat (seq 0 256)) = true.
Proof. vm_compute. reflexivity. Qed.

Lemma byte_of_bits (byte : Z) :
  is_byte byte -> bits_to_bytes (byte_bits byte) = [byte].
Proof.
  intros Hb. pose proof byte_of_bits_all as H.
  rewrite forallb_forall in H. specialize (H byte).
  assert (Hin : In byte (map Z.of_nat (seq 0 256))).
  { apply in_map_iff. exists (Z.to_nat byte). unfold is_byte in Hb. split; [lia|].
    apply in_seq. lia. }
  specialize (H Hin). unfold byte_of_bits_ok in H.
  destruct (bits_to_bytes (byte_bits byte)) as [|b [|? ?]]; try discriminate.
  apply Z.eqb_eq in H. congruence.
Qed.

Lemma bits_to_bytes_cons (byte : Z) (rest : list Z) :
  bits_to_bytes (byte_bits byte ++ rest)
  = bits_to_bytes (byte_bits byte) ++ bits_to_bytes rest.
Proof. reflexivity. Qed.

Lemma bits_to_bytes_to_bits (data : bytes) (rest : list Z) :
  is_bytes data ->
  bits_to_bytes (bytes_to_bits data ++ rest) = data ++ bits_to_bytes rest.
Proof.
  induction 1 as [|b data Hb _ IH]; [reflexivity|].
  cbn [bytes_to_bits flat_map]. fold (bytes_to_bits data).
  rewrite <- app_assoc, bits_to_bytes_cons, IH, (byte_of_bits b Hb).
  reflexivity.
Qed.

Lemma bits_to_bytes_short (bits : list Z) :
  (length bits < 8)%nat -> bits_to_bytes bits = [].
Proof.
  intros H.
  do 8 (destruct bits as [|? bits]; [reflexivity|]). simpl in H. lia.
Qed.

(** The byte loop yields one byte for every complete group of eight bits. *)
Lemma bits_to_bytes_length (bits : list Z) :
  length (bits_to_bytes bits) = (length bits / 8)%nat.
Proof.
  remember (length bits) as n eqn:Hn. revert bits Hn.
  induction n as [n IH] using lt_wf_ind. intros bits Hn.
  destruct (Nat.lt_ge_cases n 8) as [Hlt|Hge].
  - rewrite bits_to_bytes_short by lia. rewrite Nat.div_small by lia.
    reflexivity.
  - do 8 (destruct bits as [|? bits]; [simpl in Hn; lia|]).
    cbn [bits_to_bytes length]. cbn [length] in Hn.
    rewrite (IH (length bits)) by (lia || reflexivity).
    subst n. replace (S (S (S (S (S (S (S (S (length bits)))))))))
      with (1 * 8 + length bits)%nat by lia.
    rewrite Nat.div_add_l by lia. lia.
Qed.

(** Cutting the bits of a byte string at a multiple of eight cuts bytes. *)
Lemma bits_to_bytes_firstn (k : nat) (data : bytes) :
  is_bytes data ->
  bits_to_bytes (firstn (8 * k) (bytes_to_bits data)) = firstn k data.
Proof.
  intros H. revert k. induction H as [|b data Hb _ IH]; intros k.
  - rewrite !firstn_nil. reflexivity.
  - destruct k as [|k]; [reflexivity|].
    cbn [bytes_to_bits flat_map]. fold (bytes_to_bits data).
    replace (8 * S k)%nat with (length (byte_bits b) + 8 * k)%nat
      by (cbn [byte_bits map length]; lia).
    rewrite firstn_app_2, bits_to_bytes_cons, IH, (byte_of_bits b Hb).
    reflexivity.
Qed.

Lemma to_bytes_4_big_ok (n : Z) :
  0 <= n < 4294967296 ->
  exists h, to_bytes_4_big n = Ok h /\ length h = 4%nat /\ is_bytes h
            /\ from_bytes_big h = n.
Proof.
  intros H. unfold to_bytes_4_big.
  destruct (Z.ltb_spec n 0); [lia|].
  destruct (Z.leb_spec 4294967296 n); [lia|]. cbn [orb].
  eexists. split; [reflexivity|]. split; [reflexivity|]. split.
  - repeat constructor; apply Z.mod_pos_bound; lia.
  - unfold from_bytes_big. cbn [fold_left].
    Z.div_mod_to_equations. lia.
Qed.

End BitFacts.

(* ------------------------------------------------------------------ *)
(** ** The extractor *)

Section ExtractorFacts.

Lemma slice_length {A} (l : list A) (lo hi : nat) :
  length (slice l lo hi) = Nat.min (hi - lo) (length l - lo).
Proof. unfold slice. rewrite length_firstn, length_skipn. reflexivity. Qed.

Lemma detect_bits_length (n : nat) (demodulated : signal)
      (samples_per_chip position : nat) :
  (length (detect_bits n demodulated samples_per_chip position) <= n)%nat.
Proof.
  revert position. induction n as [|n IH]; intros position;
    cbn [detect_bits]; [simpl; lia|].
  destruct (_ <? _)%nat; cbn [length]; [lia|].
  specialize (IH (position + SPREADING_FACTOR * samples_per_chip)%nat). lia.
Qed.

(** C5, as amended.  With fewer than 32 bits the extractor returns the
    empty byte string.  Otherwise it returns the bytes that follow the
    four header bytes, at most as many as the header declares and never
    more than the complete bytes that are there: a declared length that
    exceeds them gives those bytes, not the empty string. *)
Theorem extract_payload_spec (bits : list Z) :
  let extracted_bytes := bits_to_bytes bits in
  let N := Z.to_nat (from_bytes_big (firstn 4 extracted_bytes)) in
  length extracted_bytes = (length bits / 8)%nat
  /\ Studio.extract_payload bits
     = (if (length bits <? 32)%nat then []
        else firstn N (skipn 4 extracted_bytes))
  /\ length (Studio.extract_payload bits)
     = (if (length bits <? 32)%nat then 0
        else Nat.min N (length bits / 8 - 4))%nat.
Proof.
  intros extracted_bytes N.
  assert (Hlen : length extracted_bytes = (length bits / 8)%nat)
    by apply bits_to_bytes_length.
  assert (Htest : (length extracted_bytes <? 4)%nat = (length bits <? 32)%nat).
  { rewrite Hlen. destruct (Nat.ltb_spec (length bits) 32) as [H|H].
    - apply Nat.ltb_lt. apply Nat.Div0.div_lt_upper_bound. lia.
    - apply Nat.ltb_ge. change 4%nat with (32 / 8)%nat.
      apply Nat.Div0.div_le_mono. exact H. }
  assert (Hex : Studio.extract_payload bits
                = (if (length bits <? 32)%nat then []
                   else firstn N (skipn 4 extracted_bytes))).
  { unfold Studio.extract_payload. fold extracted_bytes. rewrite Htest.
    destruct (length bits <? 32)%nat; [reflexivity|].
    unfold slice. fold N. replace (4 + N - 4)%nat with N by lia.
    reflexivity. }
  split; [exact Hlen|]. split; [exact Hex|].
  rewrite Hex. destruct (length bits <? 32)%nat; [reflexivity|].
  rewrite length_firstn, length_skipn, Hlen. reflexivity.
Qed.

(** C5 fails as stated: a header that declares two bytes, followed by the
    eight bits of "A" only, gives b"A" and not the empty string. *)
Lemma extract_payload_partial :
  let bits := bytes_to_bits [0; 0; 0; 2; 65]%Z in
  from_bytes_big (firstn 4 (bits_to_bytes bits)) = 2%Z
  /\ (length bits - 32 < 2 * 8)%nat
  /\ Studio.extract_payload bits = [65%Z]
  /\ Studio.extract_payload bits <> [].
Proof.
  cbv zeta. split; [reflexivity|]. split; [simpl; lia|].
  split; [reflexivity|]. discriminate.
Qed.

Lemma extract_payload_length (bits : list Z) :
  (length (Studio.extract_payload bits) <= length bits / 8 - 4)%nat.
Proof.
  unfold Studio.extract_payload.
  destruct (_ <? _)%nat; [simpl; lia|].
  rewrite slice_length, bits_to_bytes_length. lia.
Qed.

Lemma studio_extract_cap (stego_audio : signal) (sample_rate : Z) :
  (length (Studio.extract_from_audio stego_audio sample_rate) <= 256)%nat.
Proof.
  unfold Studio.extract_from_audio.
  pose proof (extract_payload_length
                (Studio.demodulate_bits stego_audio sample_rate)) as Hp.
  assert (H : (length (Studio.demodulate_bits stego_audio sample_rate)
               <= 32 + 8 * 256)%nat)
    by apply detect_bits_length.
  apply (Nat.Div0.div_le_mono _ _ 8) in H.
  change ((32 + 8 * 256) / 8)%nat with 260%nat in H. lia.
Qed.

Lemma masker_extract_cap (self : Masker.DSSSMasker) (audio : signal) :
  (length (Masker.extract_from_audio self audio) <= 512)%nat.
Proof.
  unfold Masker.extract_from_audio, Masker._bits_to_bytes.
  rewrite bits_to_bytes_length.
  match goal with
  | |- (length (detect_bits ?n ?d ?s ?p) / 8 <= _)%nat =>
      pose proof (detect_bits_length n d s p) as H;
      apply (Nat.Div0.div_le_mono _ _ 8) in H
  end.
  change (4096 / 8)%nat with 512%nat in H. exact H.
Qed.

End ExtractorFacts.

(* ------------------------------------------------------------------ *)
(** ** Sums and products of signals *)

Section SignalFacts.
Open Scope R_scope.

Lemma np_sum_app (a b : signal) : np_sum (a ++ b) = np_sum a + np_sum b.
Proof.
  unfold np_sum. induction a as [|x a IH]; cbn [app fold_right]; lra.
Qed.

Lemma np_sum_cons (x : R) (a : signal) : np_sum (x :: a) = x + np_sum a.
Proof. reflexivity. Qed.

Lemma np_sum_scaled (k : R) (a : signal) :
  np_sum (map (fun x => k * x) a) = k * np_sum a.
Proof.
  induction a as [|x a IH]; cbn [map]; rewrite ?np_sum_cons.
  - unfold np_sum. simpl. lra.
  - rewrite IH. lra.
Qed.

Lemma np_sum_nonneg (a : signal) : Forall (fun x => 0 <= x) a -> 0 <= np_sum a.
Proof.
  induction 1 as [|x a Hx _ IH]; [unfold np_sum; simpl; lra|].
  rewrite np_sum_cons. lra.
Qed.

Lemma vec_mul_length (a b : signal) :
  length (vec_mul a b) = Nat.min (length a) (length b).
Proof.
  revert b. induction a as [|x a IH]; intros [|y b]; cbn [vec_mul length];
    try reflexivity.
  rewrite IH. reflexivity.
Qed.

Lemma vec_mul_app (a a' b b' : signal) :
  length a = length b ->
  vec_mul (a ++ a') (b ++ b') = vec_mul a b ++ vec_mul a' b'.
Proof.
  revert b. induction a as [|x a IH]; intros [|y b] H; try discriminate H.
  - reflexivity.
  - cbn [app vec_mul]. rewrite IH by (simpl in H; lia). reflexivity.
Qed.

Lemma vec_mul_assoc (a b c : signal) :
  vec_mul (vec_mul a b) c = vec_mul a (vec_mul b c).
Proof.
  revert b c. induction a as [|x a IH]; intros [|y b] [|z c];
    cbn [vec_mul]; try reflexivity.
  rewrite IH. f_equal. lra.
Qed.

Lemma vec_mul_repeat (k : R) (e : signal) :
  vec_mul (repeat k (length e)) e = map (fun x => k * x) e.
Proof.
  induction e as [|x e IH]; cbn [length repeat vec_mul map]; [reflexivity|].
  rewrite IH. reflexivity.
Qed.

Lemma vec_mul_map_seq (f g : nat -> R) (a n : nat) :
  vec_mul (map f (seq a n)) (map g (seq a n))
  = map (fun i => f i * g i) (seq a n).
Proof.
  revert a. induction n as [|n IH]; intros a; cbn [seq map vec_mul];
    [reflexivity|].
  rewrite IH. reflexivity.
Qed.

Lemma np_repeat_app (a b : signal) (n : nat) :
  np_repeat (a ++ b) n = np_repeat a n ++ np_repeat b n.
Proof. apply flat_map_app. Qed.

Lemma np_repeat_length (a : signal) (n : nat) :
  length (np_repeat a n) = (length a * n)%nat.
Proof.
  induction a as [|x a IH]; [reflexivity|].
  cbn [np_repeat flat_map length]. rewrite length_app, repeat_length.
  fold (np_repeat a n). rewrite IH. lia.
Qed.

Lemma spread_bits_length (bits : list Z) :
  length (spread_bits bits) = (length bits * SPREADING_FACTOR)%nat.
Proof.
  induction bits as [|b bits IH]; [reflexivity|].
  cbn [spread_bits flat_map length]. rewrite length_app.
  fold (spread_bits bits). rewrite IH. unfold vec_scale.
  rewrite length_map. reflexivity.
Qed.

Lemma PNC_KEY_squares : Forall (fun c => c * c = 1) PNC_KEY.
Proof.
  unfold PNC_KEY, PNC_BITS. cbn [map].
  repeat (apply Forall_cons; [lra|]). apply Forall_nil.
Qed.

(* ------------------------------------------------------------------ *)
(** ** The correlation of one window *)

Lemma decide_bit_correlation (chunk : signal) (spc : nat) :
  decide_bit chunk spc
  = if Rlt_dec 0 (correlation_with PNC_KEY chunk spc) then 1%Z else 0%Z.
Proof. reflexivity. Qed.

Lemma slice_first {A} (pre rest : list A) (n : nat) :
  length pre = n -> slice (pre ++ rest) 0 (0 + n) = pre.
Proof.
  intros H. unfold slice. rewrite skipn_O.
  replace (0 + n - 0)%nat with n by lia. apply firstn_app_exact. exact H.
Qed.

Lemma slice_shift {A} (pre rest : list A) (lo hi : nat) :
  slice (pre ++ rest) (length pre + lo) (length pre + hi) = slice rest lo hi.
Proof.
  unfold slice. rewrite skipn_app.
  rewrite skipn_all2 by lia.
  replace (length pre + lo - length pre)%nat with lo by lia.
  replace (length pre + hi - (length pre + lo))%nat with (hi - lo)%nat by lia.
  reflexivity.
Qed.

Lemma chips_cons (pre rest : signal) (spc k : nat) :
  length pre = spc ->
  map (fun i => np_mean (slice (pre ++ rest) (i * spc) (i * spc + spc)))
      (seq 0 (S k))
  = np_mean pre
    :: map (fun i => np_mean (slice rest (i * spc) (i * spc + spc))) (seq 0 k).
Proof.
  intros H. cbn [seq map]. f_equal.
  - rewrite Nat.mul_0_l. rewrite slice_first by exact H. reflexivity.
  - rewrite <- seq_shift, map_map. apply map_ext. intros i.
    replace (S i * spc)%nat with (length pre + i * spc)%nat by (subst spc; lia).
    rewrite <- Nat.add_assoc, slice_shift. reflexivity.
Qed.

Lemma split_at {A} (n : nat) (l : list A) :
  (n <= length l)%nat ->
  l = firstn n l ++ skipn n l /\ length (firstn n l) = n.
Proof.
  intros H. split; [symmetry; apply firstn_skipn|].
  rewrite length_firstn. lia.
Qed.

Lemma window_correlation (sc : R) (spc : nat) (pn e : signal) :
  Forall (fun c => c * c = 1) pn ->
  (0 < spc)%nat ->
  length e = (length pn * spc)%nat ->
  correlation_with pn (vec_mul (np_repeat (vec_scale pn sc) spc) e) spc
  = sc * np_sum e / INR spc.
Proof.
  intros Hpn Hspc. revert e.
  induction Hpn as [|c pn Hc _ IH]; intros e He.
  - destruct e; [|discriminate He]. unfold correlation_with, np_sum. simpl.
    unfold Rdiv. lra.
  - cbn [length] in He.
    destruct (split_at spc e) as (Hsplit & Hl0); [lia|].
    set (e0 := firstn spc e) in *. set (e' := skipn spc e) in *.
    assert (Hl' : length e' = (length pn * spc)%nat).
    { apply (f_equal (@length R)) in Hsplit.
      rewrite length_app in Hsplit. lia. }
    rewrite Hsplit. cbn [vec_scale map np_repeat flat_map].
    fold (vec_scale pn sc). fold (np_repeat (vec_scale pn sc) spc).
    rewrite vec_mul_app by (rewrite repeat_length; symmetry; exact Hl0).
    rewrite <- Hl0 at 1. rewrite vec_mul_repeat.
    unfold correlation_with. cbn [length].
    rewrite chips_cons by (rewrite length_map; exact Hl0).
    cbn [vec_mul]. rewrite np_sum_cons.
    fold (correlation_with pn (vec_mul (np_repeat (vec_scale pn sc) spc) e') spc).
    rewrite (IH e' Hl'). unfold np_mean.
    rewrite length_map, Hl0, np_sum_scaled, np_sum_app.
    assert (INR spc <> 0) by (apply not_0_INR; lia).
    replace (c * sc * np_sum e0 / INR spc * c)
      with ((c * c) * sc * np_sum e0 / INR spc) by (field; assumption).
    rewrite Hc. field. assumption.
Qed.

Lemma decide_bit_window (bit : Z) (spc : nat) (e : signal) :
  is_bit bit -> (0 < spc)%nat ->
  length e = (SPREADING_FACTOR * spc)%nat ->
  0 < np_sum e ->
  decide_bit (vec_mul (np_repeat (vec_scale PNC_KEY (bit_scalar bit)) spc) e) spc
  = bit.
Proof.
  intros Hb Hspc He Hpos. rewrite decide_bit_correlation.
  rewrite (window_correlation _ _ _ _ PNC_KEY_squares Hspc He).
  assert (Hs : 0 < INR spc) by (apply lt_0_INR; exact Hspc).
  assert (Hq : 0 < np_sum e / INR spc) by (apply Rdiv_lt_0_compat; assumption).
  destruct Hb as [-> | ->];
    [change (bit_scalar 0) with (-1) | change (bit_scalar 1) with 1].
  - destruct (Rlt_dec 0 (-1 * np_sum e / INR spc)) as [H|H]; [|reflexivity].
    exfalso. unfold Rdiv in *. lra.
  - destruct (Rlt_dec 0 (1 * np_sum e / INR spc)) as [H|H]; [reflexivity|].
    exfalso. unfold Rdiv in *. lra.
Qed.

End SignalFacts.

(* ------------------------------------------------------------------ *)
(** ** The detection loop on a spread signal *)

Section DetectionFacts.
Open Scope R_scope.

Lemma detect_bits_shift (n : nat) (pre l : signal) (spc p : nat) :
  detect_bits n (pre ++ l) spc (length pre + p) = detect_bits n l spc p.
Proof.
  revert p. induction n as [|n IH]; intros p; cbn [detect_bits];
    [reflexivity|].
  rewrite length_app.
  replace (length pre + length l <? length pre + p + SPREADING_FACTOR * spc)%nat
    with (length l <? p + SPREADING_FACTOR * spc)%nat.
  2:{ destruct (Nat.ltb_spec (length l) (p + SPREADING_FACTOR * spc));
      symmetry; [apply Nat.ltb_lt|apply Nat.ltb_ge]; lia. }
  destruct (_ <? _)%nat; [reflexivity|].
  rewrite <- Nat.add_assoc, slice_shift, IH. reflexivity.
Qed.

Lemma detect_bits_nil (n : nat) (spc : nat) :
  (0 < spc)%nat -> detect_bits n [] spc 0 = [].
Proof.
  intros H. destruct n as [|n]; cbn [detect_bits]; [reflexivity|].
  replace (length (@nil R) <? 0 + SPREADING_FACTOR * spc)%nat with true;
    [reflexivity|].
  symmetry. apply Nat.ltb_lt. unfold SPREADING_FACTOR. simpl length. simpl. lia.
Qed.

(** On a baseband weighted sample by sample by [es], the loop reads back
    the bits that were spread, as long as every window of [es] sums to a
    positive number. *)
Lemma detect_bits_baseband (bits : list Z) (spc : nat) :
  Forall is_bit bits -> (0 < spc)%nat ->
  forall (n : nat) (es : signal),
    length es = (length bits * (SPREADING_FACTOR * spc))%nat ->
    windows_positive (length bits) (SPREADING_FACTOR * spc) es ->
    detect_bits n (vec_mul (np_repeat (spread_bits bits) spc) es) spc 0
    = firstn n bits.
Proof.
  intros Hbits Hspc. induction Hbits as [|b bits Hb _ IH]; intros n es Hl Hw.
  - destruct es; [|discriminate Hl]. cbn [spread_bits flat_map np_repeat vec_mul].
    rewrite detect_bits_nil by exact Hspc. rewrite firstn_nil. reflexivity.
  - destruct n as [|n]; [reflexivity|].
    set (W := (SPREADING_FACTOR * spc)%nat) in *.
    cbn [length] in Hl, Hw. cbn [windows_positive] in Hw.
    destruct Hw as [Hpos Hw].
    destruct (split_at W es) as (Hsplit & Hl0); [lia|].
    set (e0 := firstn W es) in *. set (e' := skipn W es) in *.
    assert (Hl' : length e' = (length bits * W)%nat).
    { apply (f_equal (@length R)) in Hsplit.
      rewrite length_app in Hsplit. lia. }
    cbn [spread_bits flat_map]. fold (spread_bits bits).
    rewrite np_repeat_app, Hsplit.
    assert (Hlw : length (np_repeat (vec_scale PNC_KEY (bit_scalar b)) spc) = W).
    { rewrite np_repeat_length. unfold vec_scale. rewrite length_map.
      reflexivity. }
    rewrite vec_mul_app by congruence.
    set (w := vec_mul (np_repeat (vec_scale PNC_KEY (bit_scalar b)) spc) e0).
    set (rest := vec_mul (np_repeat (spread_bits bits) spc) e').
    assert (Hw0 : length w = W).
    { unfold w. rewrite vec_mul_length, Hlw, Hl0. apply Nat.min_id. }
    cbn [detect_bits]. fold W.
    replace (length (w ++ rest) <? 0 + W)%nat with false.
    2:{ symmetry. apply Nat.ltb_ge. rewrite length_app. lia. }
    rewrite slice_first by exact Hw0.
    replace (0 + W)%nat with (length w + 0)%nat by lia.
    rewrite detect_bits_shift. cbn [firstn]. f_equal.
    + apply decide_bit_window; assumption.
    + apply IH; assumption.
Qed.

End DetectionFacts.

(* ------------------------------------------------------------------ *)
(** ** The carrier replica *)

Section CarrierFacts.
Open Scope R_scope.

Lemma carrier_as_map (freq : R) (sample_rate : Z) (L : nat) :
  carrier_of freq (np_linspace 0 (INR L / IZR sample_rate) L)
  = map (carrier_sample freq sample_rate L) (seq 0 L).
Proof. unfold carrier_of, np_linspace. rewrite map_map. reflexivity. Qed.

(** At 44100 Hz the 12 kHz carrier never vanishes on two samples in a row:
    the phase advances by less than half a turn, and by more than nothing,
    from one sample to the next. *)
Lemma carrier_no_two_zeros (L i : nat) :
  (3 <= L)%nat ->
  carrier_sample 12000 44100 L i = 0 ->
  carrier_sample 12000 44100 L (S i) = 0 ->
  False.
Proof.
  intros HL H0 H1. unfold carrier_sample in H0, H1.
  apply sin_eq_0_0 in H0, H1. destruct H0 as [k Hk], H1 as [k' Hk'].
  rewrite S_INR in Hk'.
  assert (Hx : 3 <= INR L).
  { replace 3 with (INR 3) by (simpl; lra). apply le_INR. exact HL. }
  assert (Hm1 : INR (L - 1) = INR L - 1) by (rewrite minus_INR by lia; reflexivity).
  rewrite Hm1 in Hk, Hk'.
  set (x := INR L) in *.
  assert (Hd : IZR (k' - k) * PI
               = 2 * PI * 12000 * ((x / 44100 - 0) / (x - 1))).
  { rewrite minus_IZR. lra. }
  assert (Hpi : PI <> 0) by apply PI_neq0.
  assert (Hm : IZR (k' - k) * (44100 * (x - 1)) = 24000 * x).
  { apply (Rmult_eq_reg_l PI); [|exact Hpi].
    replace (PI * (IZR (k' - k) * (44100 * (x - 1))))
      with (IZR (k' - k) * PI * (44100 * (x - 1))) by ring.
    rewrite Hd. field. lra. }
  assert (Hlo : 0 < IZR (k' - k)).
  { destruct (Rlt_le_dec 0 (IZR (k' - k))) as [H|H]; [exact H|].
    exfalso. assert (IZR (k' - k) * (44100 * (x - 1)) <= 0); [|lra].
    rewrite <- (Rmult_0_l (44100 * (x - 1))).
    apply Rmult_le_compat_r; lra. }
  assert (Hhi : IZR (k' - k) < 1).
  { destruct (Rlt_le_dec (IZR (k' - k)) 1) as [H|H]; [exact H|].
    exfalso. assert (1 * (44100 * (x - 1)) <= IZR (k' - k) * (44100 * (x - 1)));
      [|lra].
    apply Rmult_le_compat_r; lra. }
  apply lt_IZR in Hlo, Hhi. lia.
Qed.

Lemma firstn_map_seq {A} (f : nat -> A) (a W r : nat) :
  firstn W (map f (seq a (W + r))) = map f (seq a W).
Proof.
  rewrite seq_app, map_app. apply firstn_app_exact.
  rewrite length_map, length_seq. reflexivity.
Qed.

Lemma skipn_map_seq {A} (f : nat -> A) (a W r : nat) :
  skipn W (map f (seq a (W + r))) = map f (seq (a + W) r).
Proof.
  rewrite seq_app, map_app. apply skipn_app_exact.
  rewrite length_map, length_seq. reflexivity.
Qed.

Lemma windows_positive_map (f : nat -> R) (W : nat) :
  (forall i, 0 <= f i) -> (forall i, 0 < f i + f (S i)) -> (2 <= W)%nat ->
  forall n a, windows_positive n W (map f (seq a (n * W))).
Proof.
  intros Hf Hpair HW. induction n as [|n IH]; intros a; [exact I|].
  cbn [Nat.mul windows_positive]. rewrite firstn_map_seq, skipn_map_seq.
  split; [|apply IH].
  destruct W as [|[|W]]; try lia. cbn [seq map]. rewrite !np_sum_cons.
  assert (0 <= np_sum (map f (seq (S (S a)) W))).
  { apply np_sum_nonneg, Forall_map, Forall_forall. intros i _. apply Hf. }
  specialize (Hpair a). lra.
Qed.

Lemma carrier_energy_positive (k : R) (L n : nat) :
  0 < k -> (3 <= L)%nat ->
  windows_positive n (SPREADING_FACTOR * 44)
    (map (fun i => k * (carrier_sample 12000 44100 L i
                        * carrier_sample 12000 44100 L i))
         (seq 0 (n * (SPREADING_FACTOR * 44)))).
Proof.
  intros Hk HL. apply windows_positive_map.
  - intros i. apply Rmult_le_pos; [lra|]. apply Rle_0_sqr.
  - intros i.
    pose proof (Rle_0_sqr (carrier_sample 12000 44100 L i)) as Ha.
    pose proof (Rle_0_sqr (carrier_sample 12000 44100 L (S i))) as Hb.
    unfold Rsqr in Ha, Hb.
    destruct (Req_dec (carrier_sample 12000 44100 L i) 0) as [E0|N0].
    + destruct (Req_dec (carrier_sample 12000 44100 L (S i)) 0) as [E1|N1].
      * exfalso. exact (carrier_no_two_zeros L i HL E0 E1).
      * assert (0 < carrier_sample 12000 44100 L (S i)
                    * carrier_sample 12000 44100 L (S i))
          by (apply Rsqr_pos_lt; exact N1).
        assert (0 < k * (carrier_sample 12000 44100 L (S i)
                         * carrier_sample 12000 44100 L (S i)))
          by (apply Rmult_lt_0_compat; assumption).
        assert (0 <= k * (carrier_sample 12000 44100 L i
                          * carrier_sample 12000 44100 L i))
          by (apply Rmult_le_pos; lra).
        lra.
    + assert (0 < carrier_sample 12000 44100 L i
                  * carrier_sample 12000 44100 L i)
        by (apply Rsqr_pos_lt; exact N0).
      assert (0 < k * (carrier_sample 12000 44100 L i
                       * carrier_sample 12000 44100 L i))
        by (apply Rmult_lt_0_compat; assumption).
      assert (0 <= k * (carrier_sample 12000 44100 L (S i)
                        * carrier_sample 12000 44100 L (S i)))
        by (apply Rmult_le_pos; lra).
      lra.
  - unfold SPREADING_FACTOR. simpl length. lia.
Qed.

End CarrierFacts.

(* ------------------------------------------------------------------ *)
(** ** [SteganographyEngine]: modulation followed by extraction *)

Section StudioRoundTrip.
Open Scope R_scope.

Lemma samples_per_chip_44100 : samples_per_chip_of 44100 = 44%nat.
Proof. reflexivity. Qed.

(** The modulated message is the baseband times the carrier replica. *)
Lemma modulate_as_product (bits : list Z) :
  let L := (length bits * (SPREADING_FACTOR * 44))%nat in
  Studio.modulate (spread_bits bits) 44100
  = vec_mul (np_repeat (spread_bits bits) 44)
            (map (carrier_sample 12000 44100 L) (seq 0 L))
  /\ length (Studio.modulate (spread_bits bits) 44100) = L.
Proof.
  intros L. unfold Studio.modulate. rewrite samples_per_chip_44100.
  assert (HL : length (np_repeat (spread_bits bits) 44) = L).
  { rewrite np_repeat_length, spread_bits_length. unfold L. lia. }
  cbv zeta. rewrite HL, carrier_as_map. split; [reflexivity|].
  rewrite vec_mul_length, HL, length_map, length_seq. apply Nat.min_id.
Qed.

(** The detection loop on a modulated message scaled by a positive [k]
    reads the bits back, at most 2080 of them. *)
Lemma demodulate_modulated (bits : list Z) (k : R) :
  Forall is_bit bits -> 0 < k -> (1 <= length bits)%nat ->
  Studio.demodulate_bits
    (vec_scale (Studio.modulate (spread_bits bits) 44100) k) 44100
  = firstn (32 + 8 * 256) bits.
Proof.
  intros Hbits Hk Hnb.
  destruct (modulate_as_product bits) as (Hmod & Hlen).
  set (L := (length bits * (SPREADING_FACTOR * 44))%nat) in *.
  unfold Studio.demodulate_bits. rewrite samples_per_chip_44100.
  assert (Hls : length (vec_scale (Studio.modulate (spread_bits bits) 44100) k)
                = L).
  { unfold vec_scale. rewrite length_map. exact Hlen. }
  cbv zeta. rewrite Hls, carrier_as_map, Hmod.
  unfold vec_scale at 1.
  replace (map (fun x => x * k)
             (vec_mul (np_repeat (spread_bits bits) 44)
                (map (carrier_sample 12000 44100 L) (seq 0 L))))
    with (vec_mul (np_repeat (spread_bits bits) 44)
            (map (fun x => k * x)
               (map (carrier_sample 12000 44100 L) (seq 0 L)))).
  2:{ generalize (np_repeat (spread_bits bits) 44).
      generalize (map (carrier_sample 12000 44100 L) (seq 0 L)).
      intros c b. revert c. induction b as [|x b IH]; intros [|y c];
        cbn [map vec_mul]; try reflexivity.
      rewrite IH. f_equal. lra. }
  rewrite vec_mul_assoc, map_map, vec_mul_map_seq.
  apply detect_bits_baseband.
  - exact Hbits.
  - lia.
  - rewrite length_map, length_seq. reflexivity.
  - replace (map (fun i => k * carrier_sample 12000 44100 L i
                           * carrier_sample 12000 44100 L i) (seq 0 L))
      with (map (fun i => k * (carrier_sample 12000 44100 L i
                               * carrier_sample 12000 44100 L i)) (seq 0 L))
      by (apply map_ext; intros; ring).
    apply carrier_energy_positive; [exact Hk|].
    unfold L, SPREADING_FACTOR. simpl length. lia.
Qed.

Lemma vec_scale_1 (a : signal) : vec_scale a 1 = a.
Proof.
  unfold vec_scale. rewrite <- (map_id a) at 2. apply map_ext. intros. lra.
Qed.

(** The frame of a message and what the extractor makes of its first 2080
    bits: the message, cut at 256 bytes. *)
Lemma extract_payload_frame (message_bytes : bytes) :
  is_bytes message_bytes ->
  (Z.of_nat (length message_bytes) < 4294967296)%Z ->
  exists bits,
    Studio.frame_bits message_bytes = Ok bits
    /\ Forall is_bit bits
    /\ length bits = (32 + 8 * length message_bytes)%nat
    /\ Studio.extract_payload bits = message_bytes
    /\ Studio.extract_payload (firstn (32 + 8 * 256) bits)
       = firstn 256 message_bytes.
Proof.
  intros Hb Hlen.
  destruct (to_bytes_4_big_ok (Z.of_nat (length message_bytes)))
    as (h & Hh & Hh4 & Hhb & Hfrom); [lia|].
  exists (bytes_to_bits (h ++ message_bytes)).
  unfold Studio.frame_bits. rewrite Hh. cbn [bind].
  split; [reflexivity|]. split; [apply bytes_to_bits_are_bits|].
  split; [rewrite bytes_to_bits_length, length_app, Hh4; lia|].
  assert (Hall : is_bytes (h ++ message_bytes)) by (apply Forall_app; split; assumption).
  assert (Hpay : forall m : bytes,
            (length m <= length message_bytes)%nat ->
            (let extracted_bytes := h ++ m in
             if (length extracted_bytes <? 4)%nat then []
             else slice extracted_bytes 4
                    (4 + Z.to_nat (from_bytes_big (firstn 4 extracted_bytes))))
            = m).
  { intros m Hm. cbv zeta.
    replace (length (h ++ m) <? 4)%nat with false
      by (symmetry; apply Nat.ltb_ge; rewrite length_app; lia).
    rewrite (firstn_app_exact h m 4 Hh4), Hfrom, Nat2Z.id.
    unfold slice. rewrite (skipn_app_exact h m 4 Hh4).
    apply firstn_all2. lia. }
  split.
  - unfold Studio.extract_payload.
    rewrite <- (app_nil_r (bytes_to_bits (h ++ message_bytes))).
    rewrite bits_to_bytes_to_bits by exact Hall.
    cbn [bits_to_bytes]. rewrite app_nil_r. apply Hpay. lia.
  - unfold Studio.extract_payload.
    change (32 + 8 * 256)%nat with (8 * 260)%nat.
    rewrite bits_to_bytes_firstn by exact Hall.
    replace (firstn 260 (h ++ message_bytes))
      with (h ++ firstn 256 message_bytes).
    2:{ replace 260%nat with (length h + 256)%nat by (rewrite Hh4; reflexivity).
        rewrite firstn_app_2. reflexivity. }
    apply Hpay. rewrite length_firstn. lia.
Qed.

(** Modulation followed by extraction, for a message of any length: the
    message comes back, cut at 256 bytes. *)
Lemma extract_modulated (message_bytes : bytes) (k : R) :
  is_bytes message_bytes ->
  (Z.of_nat (length message_bytes) < 4294967296)%Z ->
  0 < k ->
  exists bits,
    Studio.frame_bits message_bytes = Ok bits
    /\ Studio.demodulate_bits
         (vec_scale (Studio.modulate (spread_bits bits) 44100) k) 44100
       = firstn (32 + 8 * 256) bits
    /\ Studio.extract_from_audio
         (vec_scale (Studio.modulate (spread_bits bits) 44100) k) 44100
       = firstn 256 message_bytes.
Proof.
  intros Hb Hlen Hk.
  destruct (extract_payload_frame message_bytes Hb Hlen)
    as (bits & Hframe & Hbits & Hnb & _ & Hcut).
  exists bits. split; [exact Hframe|].
  assert (Hdem : Studio.demodulate_bits
                   (vec_scale (Studio.modulate (spread_bits bits) 44100) k) 44100
                 = firstn (32 + 8 * 256) bits)
    by (apply demodulate_modulated; [exact Hbits|exact Hk|lia]).
  split; [exact Hdem|].
  unfold Studio.extract_from_audio. rewrite Hdem. exact Hcut.
Qed.

End StudioRoundTrip.

(* ------------------------------------------------------------------ *)
(** ** Mixing into a carrier *)

Section MixingFacts.
Open Scope R_scope.

Lemma add_prefix_length (output m : signal) :
  length (add_prefix output m) = length output.
Proof.
  revert m. induction output as [|o output IH]; intros [|x m];
    cbn [add_prefix length]; try reflexivity.
  rewrite IH. reflexivity.
Qed.

Lemma nth_add_prefix (output m : signal) (i : nat) (d : R) :
  (length m <= i)%nat -> nth i (add_prefix output m) d = nth i output d.
Proof.
  revert m i. induction output as [|o output IH]; intros [|x m] i H;
    cbn [add_prefix]; try reflexivity.
  destruct i as [|i]; [simpl in H; lia|].
  cbn [nth]. apply IH. simpl in H. lia.
Qed.

Lemma add_prefix_zeros (m : signal) :
  add_prefix (repeat 0 (length m)) m = m.
Proof.
  induction m as [|x m IH]; cbn [length repeat add_prefix]; [reflexivity|].
  rewrite IH. f_equal. lra.
Qed.

Lemma nth_map_default (f : R -> R) (l : signal) (i : nat) :
  (i < length l)%nat -> nth i (map f l) 0 = f (nth i l 0).
Proof.
  intros H. rewrite (nth_indep _ 0 (f 0)) by (rewrite length_map; exact H).
  apply map_nth.
Qed.

Lemma unnormalised_mix_firstn (carrier_audio modulated : signal) (a : R) :
  unnormalised_mix carrier_audio modulated a
  = add_prefix carrier_audio
      (vec_scale (firstn (length carrier_audio) modulated) a).
Proof.
  unfold unnormalised_mix.
  destruct (Nat.ltb_spec (length carrier_audio) (length modulated)) as [H|H];
    [reflexivity|].
  rewrite firstn_all2 by exact H. reflexivity.
Qed.

Lemma unnormalised_mix_length (carrier_audio modulated : signal) (a : R) :
  length (unnormalised_mix carrier_audio modulated a) = length carrier_audio.
Proof. rewrite unnormalised_mix_firstn. apply add_prefix_length. Qed.

(** C7, as amended.  Where the mix returns, a sample past the end of the
    modulated signal is the carrier's sample when the peak of the mix is at
    most 1; when the peak exceeds 1 it is the carrier's sample divided by
    the peak and multiplied by 0.99, as every other sample is. *)
Theorem carrier_beyond_message (carrier_audio modulated output : signal)
        (amplitude : R) (i : nat) :
  mix_into carrier_audio modulated amplitude = Ok output ->
  (length modulated <= i < length carrier_audio)%nat ->
  exists max_val,
    np_max_abs (unnormalised_mix carrier_audio modulated amplitude) = Ok max_val
    /\ nth i output 0
       = (if Rlt_dec 1 max_val then nth i carrier_audio 0 / max_val * 0.99
          else nth i carrier_audio 0).
Proof.
  intros Hmix Hi. unfold mix_into in Hmix. cbv zeta in Hmix.
  assert (Hnth : nth i (unnormalised_mix carrier_audio modulated amplitude) 0
                 = nth i carrier_audio 0).
  { rewrite unnormalised_mix_firstn. apply nth_add_prefix.
    unfold vec_scale. rewrite length_map, length_firstn. lia. }
  destruct (np_max_abs (unnormalised_mix carrier_audio modulated amplitude))
    as [max_val|x]; cbn [bind] in Hmix; [|discriminate Hmix].
  exists max_val. split; [reflexivity|].
  destruct (Rlt_dec 1 max_val); apply Ok_inj in Hmix; subst output.
  - unfold vec_scale, vec_div. rewrite map_map.
    rewrite (nth_map_default (fun x => x / max_val * 0.99))
      by (rewrite unnormalised_mix_length; lia).
    rewrite Hnth. reflexivity.
  - exact Hnth.
Qed.

Lemma carrier_beyond_message_witness :
  exists max_val,
    np_max_abs (unnormalised_mix [1 / 2; 1 / 4] [] 1) = Ok max_val
    /\ nth 1 [1 / 2; 1 / 4] 0
       = (if Rlt_dec 1 max_val then nth 1 [1 / 2; 1 / 4] 0 / max_val * 0.99
          else nth 1 [1 / 2; 1 / 4] 0).
Proof.
  apply (carrier_beyond_message [1 / 2; 1 / 4] [] [1 / 2; 1 / 4] 1 1).
  - unfold mix_into, unnormalised_mix.
    cbn [length Nat.ltb Nat.leb vec_scale map add_prefix np_max_abs fold_left
         bind].
    destruct (Rlt_dec 1 (Rmax (Rabs (1 / 2)) (Rabs (1 / 4)))) as [H|H];
      [|reflexivity].
    exfalso. revert H. unfold Rmax, Rabs.
    destruct (Rcase_abs (1 / 2)), (Rcase_abs (1 / 4));
      match goal with |- context [Rle_dec ?a ?b] => destruct (Rle_dec a b) end;
      lra.
  - simpl. lia.
Defined.

(** C7 fails as stated: with no payload and a one-sample carrier at the
    lowest 16-bit level, -32768/32767, the sample that lies past the (empty)
    embedded region comes out as -0.99. *)
Lemma carrier_sample_rescaled :
  exists output,
    Masker.generate_with_carrier (Masker.init (-20) 12000) []
      [-32768 / 32767] = Ok output
    /\ nth 0 output 0 = -0.99
    /\ nth 0 output 0 <> nth 0 [-32768 / 32767] 0.
Proof.
  assert (Habs : Rabs (-32768 / 32767) = 32768 / 32767).
  { rewrite Rabs_left by lra. lra. }
  exists [-32768 / 32767 / (32768 / 32767) * 0.99]. split.
  - unfold Masker.generate_with_carrier, mix_into, unnormalised_mix.
    cbn [Masker._bytes_to_bits bytes_to_bits flat_map Masker._spread_bits
         spread_bits Masker._modulate_signal np_repeat vec_mul length
         Nat.ltb Nat.leb vec_scale map add_prefix np_max_abs fold_left bind].
    rewrite Habs.
    destruct (Rlt_dec 1 (32768 / 32767)) as [H|H]; [reflexivity|].
    exfalso. lra.
  - cbn [nth]. split; [lra|lra].
Qed.

(** The amplitude of [embed_in_audio] is positive. *)
Lemma studio_amplitude_positive (snr_db : R) :
  0 < Studio.signal_amplitude snr_db.
Proof.
  unfold Studio.signal_amplitude, snr_linear_of, Rpower.
  apply Rmult_lt_0_compat; [|lra]. apply sqrt_lt_R0, exp_pos.
Qed.

(** Mixing into silence of the same length scales the modulated signal by
    a positive factor. *)
Lemma mix_into_silence (modulated : signal) (a : R) :
  0 < a -> modulated <> [] ->
  exists k, 0 < k
            /\ mix_into (repeat 0 (length modulated)) modulated a
               = Ok (vec_scale modulated k).
Proof.
  intros Ha Hne. unfold mix_into. cbv zeta.
  rewrite unnormalised_mix_firstn, repeat_length, firstn_all.
  replace (length modulated) with (length (vec_scale modulated a))
    by (unfold vec_scale; apply length_map).
  rewrite add_prefix_zeros.
  destruct modulated as [|x m]; [congruence|].
  cbn [vec_scale map np_max_abs bind]. fold (vec_scale m a).
  set (max_val := fold_left Rmax (map Rabs (vec_scale m a)) (Rabs (x * a))).
  destruct (Rlt_dec 1 max_val) as [H|H].
  - exists (a / max_val * 0.99). split.
    + apply Rmult_lt_0_compat; [|lra]. apply Rdiv_lt_0_compat; lra.
    + f_equal. unfold vec_div, vec_scale. cbn [map]. rewrite !map_map.
      f_equal; [unfold Rdiv; ring|]. apply map_ext. intros y. unfold Rdiv. ring.
  - exists a. split; [exact Ha|reflexivity].
Qed.

(** C9, as amended.  [generate_with_carrier] scales the modulated signal by
    the square root of the carrier's mean square times 10^(snr_db/10);
    [embed_in_audio] scales it by half the square root of 10^(snr_db/10),
    whatever the carrier: the two agree exactly on carriers whose mean
    square is 1/4. *)
Theorem amplitude_scalars (self : Masker.DSSSMasker) (snr : R)
        (carrier_audio : signal) :
  (forall payload_bytes,
      Masker.generate_with_carrier self payload_bytes carrier_audio
      = mix_into carrier_audio
          (Masker._modulate_signal self (spread_bits (bytes_to_bits payload_bytes)))
          (sqrt (np_mean (map (fun x => x * x) carrier_audio)
                 * Rpower 10 (Masker.snr_db self / 10))))
  /\ (forall message_bytes sample_rate,
         Studio.embed_in_audio snr carrier_audio message_bytes sample_rate
         = (bits <- Studio.frame_bits message_bytes ;;
            mix_into carrier_audio
              (Studio.modulate (spread_bits bits) sample_rate)
              (sqrt (Rpower 10 (snr / 10)) * 0.5)))
  /\ (Studio.signal_amplitude snr
      = sqrt (np_mean (map (fun x => x * x) carrier_audio)
              * Rpower 10 (snr / 10))
      <-> np_mean (map (fun x => x * x) carrier_audio) = 1 / 4).
Proof.
  split; [reflexivity|]. split; [reflexivity|].
  set (P := np_mean (map (fun x => x * x) carrier_audio)).
  assert (HP : 0 <= P).
  { unfold P, np_mean. rewrite length_map.
    destruct carrier_audio as [|c carrier_audio].
    - unfold np_sum. cbn [map fold_right]. unfold Rdiv. lra.
    - apply Rmult_le_pos.
      + apply np_sum_nonneg, Forall_map, Forall_forall. intros x _.
        apply Rle_0_sqr.
      + left. apply Rinv_0_lt_compat, lt_0_INR. simpl. lia. }
  unfold Studio.signal_amplitude, snr_linear_of.
  set (s := Rpower 10 (snr / 10)).
  assert (Hs : 0 < s) by (unfold s, Rpower; apply exp_pos).
  assert (Hss : 0 < sqrt s) by (apply sqrt_lt_R0; exact Hs).
  rewrite sqrt_mult by lra.
  split.
  - intros H.
    assert (Hp : sqrt P = 0.5).
    { apply (Rmult_eq_reg_r (sqrt s)); [lra|lra]. }
    rewrite <- (sqrt_sqrt P HP), Hp. lra.
  - intros ->. replace (1 / 4) with (Rsqr (1 / 2)) by (unfold Rsqr; lra).
    rewrite sqrt_Rsqr by lra. lra.
Qed.

(** C9 fails as stated: at -20 dB and for a carrier of mean square 1, the
    scalar of [embed_in_audio] is not the square root of the carrier power
    times 10^(snr_db/10). *)
Lemma studio_amplitude_ignores_carrier :
  np_mean (map (fun x => x * x) [1; -1]) = 1
  /\ Studio.signal_amplitude (-20)
     <> sqrt (np_mean (map (fun x => x * x) [1; -1]) * Rpower 10 (-20 / 10)).
Proof.
  assert (H1 : np_mean (map (fun x => x * x) [1; -1]) = 1).
  { unfold np_mean, np_sum. cbn [map fold_right length INR]. field. }
  split; [exact H1|]. rewrite H1, Rmult_1_l.
  unfold Studio.signal_amplitude, snr_linear_of.
  assert (0 < sqrt (Rpower 10 (-20 / 10)))
    by (apply sqrt_lt_R0; unfold Rpower; apply exp_pos).
  lra.
Qed.

Lemma np_max_abs_nonempty (l : signal) :
  l <> [] -> exists max_val, np_max_abs l = Ok max_val.
Proof.
  destruct l as [|x l]; [congruence|]. intros _. eexists. reflexivity.
Qed.

Lemma masker_modulated_length (self : Masker.DSSSMasker) (bits : list Z) :
  length (Masker._modulate_signal self (spread_bits bits))
  = (length bits * SPREADING_FACTOR
     * samples_per_chip_of (Masker.sample_rate self))%nat.
Proof.
  unfold Masker._modulate_signal. cbv zeta.
  rewrite vec_mul_length. unfold carrier_of, np_linspace.
  rewrite !length_map, length_seq, Nat.min_id, np_repeat_length,
    spread_bits_length.
  reflexivity.
Qed.

(** C8: the pure-noise path does not accept the empty payload.  Whatever
    the SNR, the carrier frequency and the noise, [generate_masked_audio]
    raises exactly on the empty payload: it takes the maximum of an empty
    array there, and of a non-empty one everywhere else. *)
Theorem generate_masked_audio_empty (snr freq : R) (z : nat -> R)
        (payload_bytes : bytes) :
  Masker.generate_masked_audio (Masker.init snr freq) z payload_bytes
  = Raise ZeroSizeReduction
  <-> payload_bytes = [].
Proof.
  split; [|intros ->; reflexivity].
  intros H. destruct payload_bytes as [|b payload_bytes]; [reflexivity|].
  exfalso. revert H.
  unfold Masker.generate_masked_audio, Masker._apply_noise_masking.
  unfold Masker._bytes_to_bits, Masker._spread_bits. cbv zeta.
  set (modulated := Masker._modulate_signal (Masker.init snr freq)
                      (spread_bits (bytes_to_bits (b :: payload_bytes)))).
  assert (Hl : (0 < length modulated)%nat).
  { unfold modulated. rewrite masker_modulated_length, bytes_to_bits_length.
    change (samples_per_chip_of (Masker.sample_rate (Masker.init snr freq)))
      with 44%nat.
    unfold SPREADING_FACTOR. simpl length. lia. }
  match goal with
  | |- context [np_max_abs ?m] =>
      destruct (np_max_abs_nonempty m) as (max_val & ->)
  end.
  - intros E. apply (f_equal (@length R)) in E.
    rewrite length_map, length_combine in E. unfold Masker.random_normal in E.
    rewrite length_map, length_seq, Nat.min_id in E.
    change (length (@nil R)) with 0%nat in E. lia.
  - cbn [bind]. destruct (Rlt_dec 0 max_val); discriminate.
Qed.

End MixingFacts.

(* ------------------------------------------------------------------ *)
(** ** The codec end to end *)

Section EndToEnd.
Open Scope R_scope.

Lemma modulate_nonempty (bits : list Z) :
  (1 <= length bits)%nat -> Studio.modulate (spread_bits bits) 44100 <> [].
Proof.
  intros H E. apply (f_equal (@length R)) in E.
  destruct (modulate_as_product bits) as (_ & Hlen). rewrite Hlen in E.
  unfold SPREADING_FACTOR in E. simpl length in E. lia.
Qed.

(** C1.  For every payload of at most 256 bytes, with no noise: the frame
    is built, the detection loop reads from the modulated frame exactly the
    bits of the frame, the extractor gives the payload back from them, and
    so [extract_from_audio] of the modulated frame is the payload; the same
    holds through [embed_in_audio] when the carrier audio is silence of the
    length of the modulated frame, at any SNR. *)
Theorem noiseless_round_trip (message_bytes : bytes) :
  is_bytes message_bytes ->
  (length message_bytes <= 256)%nat ->
  exists bits,
    Studio.frame_bits message_bytes = Ok bits
    /\ Studio.demodulate_bits (Studio.modulate (spread_bits bits) 44100) 44100
       = bits
    /\ Studio.extract_payload bits = message_bytes
    /\ Studio.extract_from_audio (Studio.modulate (spread_bits bits) 44100) 44100
       = message_bytes
    /\ forall snr_db,
        exists stego,
          Studio.embed_in_audio snr_db
            (repeat 0 (length (Studio.modulate (spread_bits bits) 44100)))
            message_bytes 44100 = Ok stego
          /\ Studio.extract_from_audio stego 44100 = message_bytes.
Proof.
  intros Hb Hlen.
  assert (H32 : (Z.of_nat (length message_bytes) < 4294967296)%Z) by lia.
  destruct (extract_payload_frame message_bytes Hb H32)
    as (bits & Hframe & Hbits & Hnb & Hpay & _).
  assert (Hall : firstn (32 + 8 * 256) bits = bits)
    by (apply firstn_all2; lia).
  assert (Hcut : firstn 256 message_bytes = message_bytes)
    by (apply firstn_all2; exact Hlen).
  assert (Hk : forall k, 0 < k ->
            Studio.demodulate_bits
              (vec_scale (Studio.modulate (spread_bits bits) 44100) k) 44100
            = bits).
  { intros k Hk. rewrite demodulate_modulated; [exact Hall|exact Hbits|exact Hk|lia]. }
  exists bits. split; [exact Hframe|].
  assert (Hdem : Studio.demodulate_bits
                   (Studio.modulate (spread_bits bits) 44100) 44100 = bits).
  { rewrite <- (vec_scale_1 (Studio.modulate (spread_bits bits) 44100)) at 1.
    apply Hk. lra. }
  split; [exact Hdem|]. split; [exact Hpay|].
  split; [unfold Studio.extract_from_audio; rewrite Hdem; exact Hpay|].
  intros snr_db.
  destruct (mix_into_silence (Studio.modulate (spread_bits bits) 44100)
              (Studio.signal_amplitude snr_db))
    as (k & Hkpos & Hmix).
  { apply studio_amplitude_positive. }
  { apply modulate_nonempty. lia. }
  exists (vec_scale (Studio.modulate (spread_bits bits) 44100) k). split.
  - unfold Studio.embed_in_audio. rewrite Hframe. cbn [bind]. exact Hmix.
  - unfold Studio.extract_from_audio. rewrite (Hk k Hkpos). exact Hpay.
Qed.

Lemma noiseless_round_trip_witness :
  exists bits,
    Studio.frame_bits [72; 105]%Z = Ok bits
    /\ Studio.demodulate_bits (Studio.modulate (spread_bits bits) 44100) 44100
       = bits
    /\ Studio.extract_payload bits = [72; 105]%Z
    /\ Studio.extract_from_audio (Studio.modulate (spread_bits bits) 44100) 44100
       = [72; 105]%Z
    /\ forall snr_db,
        exists stego,
          Studio.embed_in_audio snr_db
            (repeat 0 (length (Studio.modulate (spread_bits bits) 44100)))
            [72; 105]%Z 44100 = Ok stego
          /\ Studio.extract_from_audio stego 44100 = [72; 105]%Z.
Proof.
  apply (noiseless_round_trip [72; 105]%Z).
  - repeat (apply Forall_cons; [unfold is_byte; lia|]). apply Forall_nil.
  - simpl. lia.
Defined.

End EndToEnd.

(* ================================================================== *)
(** * Further properties of the codec *)

(* ------------------------------------------------------------------ *)
(** ** Peaks *)

Section PeakFacts.
Open Scope R_scope.

Lemma fold_left_Rmax_ge (l : signal) (a : R) : a <= fold_left Rmax l a.
Proof.
  revert a. induction l as [|x l IH]; intros a; cbn [fold_left]; [lra|].
  apply Rle_trans with (Rmax a x); [apply Rmax_l|apply IH].
Qed.

Lemma fold_left_Rmax_bound (l : signal) (a : R) :
  Forall (fun x => x <= fold_left Rmax l a) l.
Proof.
  revert a. induction l as [|x l IH]; intros a; cbn [fold_left]; constructor.
  - apply Rle_trans with (Rmax a x); [apply Rmax_r|apply fold_left_Rmax_ge].
  - apply IH.
Qed.

Lemma fold_left_Rmax_attained (l : signal) (a : R) :
  fold_left Rmax l a = a \/ In (fold_left Rmax l a) l.
Proof.
  revert a. induction l as [|x l IH]; intros a; cbn [fold_left]; [left; reflexivity|].
  destruct (IH (Rmax a x)) as [H|H].
  - rewrite H. unfold Rmax. destruct (Rle_dec a x); [right; left|left]; reflexivity.
  - right. right. exact H.
Qed.

(** The peak that [np.max(np.abs(a))] returns bounds every sample, is the
    magnitude of one of them, and is not negative. *)
Lemma np_max_abs_peak (l : signal) (max_val : R) :
  np_max_abs l = Ok max_val ->
  Forall (fun x => Rabs x <= max_val) l
  /\ (exists x, In x l /\ Rabs x = max_val)
  /\ 0 <= max_val.
Proof.
  destruct l as [|x l]; cbn [np_max_abs]; [discriminate|].
  intros H. apply Ok_inj in H. subst max_val.
  assert (Hb : Forall (fun y => Rabs y <= fold_left Rmax (map Rabs l) (Rabs x))
                      (x :: l)).
  { constructor; [apply fold_left_Rmax_ge|].
    pose proof (fold_left_Rmax_bound (map Rabs l) (Rabs x)) as H.
    rewrite Forall_map in H. exact H. }
  split; [exact Hb|]. split.
  - destruct (fold_left_Rmax_attained (map Rabs l) (Rabs x)) as [H|H].
    + exists x. split; [left; reflexivity|symmetry; exact H].
    + apply in_map_iff in H. destruct H as (y & Hy & Hin).
      exists y. split; [right; exact Hin|exact Hy].
  - apply Rle_trans with (Rabs x); [apply Rabs_pos|apply fold_left_Rmax_ge].
Qed.

Lemma np_max_abs_raises (l : signal) (x : exn) :
  np_max_abs l = Raise x -> l = [] /\ x = ZeroSizeReduction.
Proof.
  destruct l; cbn [np_max_abs]; [|discriminate].
  intros H. split; [reflexivity|congruence].
Qed.

(** Dividing by a positive peak and multiplying by [c] leaves every sample
    at most [c] in magnitude. *)
Lemma normalised_bound (l : signal) (max_val c : R) :
  0 < max_val -> 0 <= c ->
  Forall (fun x => Rabs x <= max_val) l ->
  Forall (fun x => Rabs x <= c) (vec_scale (vec_div l max_val) c).
Proof.
  intros Hm Hc H. unfold vec_scale, vec_div. rewrite map_map.
  apply Forall_map. revert H. apply Forall_impl. intros x Hx.
  unfold Rdiv. rewrite !Rabs_mult.
  rewrite (Rabs_pos_eq c) by exact Hc.
  rewrite (Rabs_pos_eq (/ max_val)) by (left; apply Rinv_0_lt_compat; exact Hm).
  assert (Rabs x * / max_val <= 1).
  { apply (Rmult_le_reg_r max_val); [exact Hm|].
    rewrite Rmult_assoc, Rinv_l by lra. lra. }
  assert (0 <= Rabs x * / max_val).
  { apply Rmult_le_pos; [apply Rabs_pos|left; apply Rinv_0_lt_compat; exact Hm]. }
  replace c with (1 * c) at 2 by ring. apply Rmult_le_compat_r; assumption.
Qed.

End PeakFacts.

(* ------------------------------------------------------------------ *)
(** ** What the two carrier embeddings return *)

Section EmbeddingOutcome.
Open Scope R_scope.

(** The mix raises exactly on an empty carrier; what it returns has the
    length of the carrier and no sample above 1 in magnitude. *)
Lemma mix_into_outcome (carrier_audio modulated : signal) (a : R) :
  match mix_into carrier_audio modulated a with
  | Ok output =>
      carrier_audio <> []
      /\ length output = length carrier_audio
      /\ Forall (fun x => Rabs x <= 1) output
  | Raise x => carrier_audio = [] /\ x = ZeroSizeReduction
  end.
Proof.
  unfold mix_into. cbv zeta.
  pose proof (unnormalised_mix_length carrier_audio modulated a) as Hl.
  destruct (np_max_abs (unnormalised_mix carrier_audio modulated a))
    as [max_val|x] eqn:Hmax; cbn [bind].
  - destruct (np_max_abs_peak _ _ Hmax) as (Hb & _ & _).
    assert (Hne : carrier_audio <> []).
    { intros ->. destruct (unnormalised_mix [] modulated a); [discriminate|].
      discriminate Hl. }
    destruct (Rlt_dec 1 max_val) as [H|H].
    + split; [exact Hne|]. split.
      * unfold vec_scale, vec_div. rewrite !length_map. exact Hl.
      * assert (H99 : Forall (fun x => Rabs x <= 0.99)
                        (vec_scale
                           (vec_div (unnormalised_mix carrier_audio modulated a)
                                    max_val) 0.99))
          by (apply normalised_bound; [lra|lra|exact Hb]).
        revert H99. apply Forall_impl. intros x Hx. lra.
    + split; [exact Hne|]. split; [exact Hl|].
      revert Hb. apply Forall_impl. intros x Hx. lra.
  - destruct (np_max_abs_raises _ _ Hmax) as (E & ->).
    split; [|reflexivity].
    rewrite E in Hl. destruct carrier_audio; [reflexivity|discriminate Hl].
Qed.

(** X1.  [embed_in_audio] at a positive sample rate, on a carrier that is
    not empty, for a message shorter than 2^32 bytes: it returns audio of
    the carrier's length in which no sample exceeds 1 in magnitude.  (At a
    sample rate of 0 the code divides by it, and below -999 [np.repeat] is
    given a negative count: neither is part of the embedding.) *)
Theorem embed_in_audio_returns (snr_db : R) (carrier_audio : signal)
        (message_bytes : bytes) (sample_rate : Z) :
  (0 < sample_rate)%Z ->
  carrier_audio <> [] ->
  (Z.of_nat (length message_bytes) < 4294967296)%Z ->
  exists output,
    Studio.embed_in_audio snr_db carrier_audio message_bytes sample_rate
    = Ok output
    /\ length output = length carrier_audio
    /\ Forall (fun x => Rabs x <= 1) output.
Proof.
  intros _ Hne Hlen. unfold Studio.embed_in_audio, Studio.frame_bits.
  destruct (to_bytes_4_big_ok (Z.of_nat (length message_bytes)))
    as (h & -> & _); [lia|].
  cbn [bind].
  match goal with
  | |- context [mix_into ?c ?m ?a] =>
      pose proof (mix_into_outcome c m a) as H; destruct (mix_into c m a)
  end.
  - destruct H as (_ & Hl & Hb). eexists. repeat split; assumption.
  - destruct H as (E & _). contradiction.
Qed.

Lemma embed_in_audio_returns_witness :
  exists output,
    Studio.embed_in_audio (-20) [1 / 2; -1 / 4] [72; 105]%Z 44100 = Ok output
    /\ length output = length [1 / 2; -1 / 4]
    /\ Forall (fun x => Rabs x <= 1) output.
Proof.
  apply (embed_in_audio_returns (-20) [1 / 2; -1 / 4] [72; 105]%Z 44100).
  - lia.
  - discriminate.
  - simpl. lia.
Defined.

(** X2.  At a positive sample rate [embed_in_audio] raises on an empty
    carrier, whatever the message (the maximum of an empty array), unless
    the message is too long for its 4-byte length, which raises first. *)
Theorem embed_in_audio_empty_carrier (snr_db : R) (message_bytes : bytes)
        (sample_rate : Z) :
  (0 < sample_rate)%Z ->
  Studio.embed_in_audio snr_db [] message_bytes sample_rate
  = if (Z.of_nat (length message_bytes) <? 4294967296)%Z
    then Raise ZeroSizeReduction else Raise OverflowError.
Proof.
  intros _. unfold Studio.embed_in_audio, Studio.frame_bits, to_bytes_4_big.
  destruct (Z.ltb_spec (Z.of_nat (length message_bytes)) 0) as [H0|H0]; [lia|].
  cbn [orb].
  destruct (Z.ltb_spec (Z.of_nat (length message_bytes)) 4294967296) as [H1|H1].
  - replace (4294967296 <=? Z.of_nat (length message_bytes))%Z with false
      by (symmetry; apply Z.leb_gt; exact H1).
    cbn [bind].
    match goal with
    | |- mix_into [] ?m ?a = _ =>
        pose proof (mix_into_outcome [] m a) as H; destruct (mix_into [] m a)
    end.
    + destruct H as (H & _). congruence.
    + destruct H as (_ & ->). reflexivity.
  - replace (4294967296 <=? Z.of_nat (length message_bytes))%Z with true
      by (symmetry; apply Z.leb_le; exact H1).
    reflexivity.
Qed.

Lemma embed_in_audio_empty_carrier_witness :
  Studio.embed_in_audio (-20) [] [72; 105]%Z 44100
  = if (Z.of_nat (length [72; 105]%Z) <? 4294967296)%Z
    then Raise ZeroSizeReduction else Raise OverflowError.
Proof.
  apply (embed_in_audio_empty_carrier (-20) [72; 105]%Z 44100). lia.
Defined.

(** X3.  [generate_with_carrier] raises exactly on an empty carrier; on any
    other it returns audio of the carrier's length in which no sample
    exceeds 1 in magnitude. *)
Theorem generate_with_carrier_outcome (self : Masker.DSSSMasker)
        (payload_bytes : bytes) (carrier_audio : signal) :
  (Masker.generate_with_carrier self payload_bytes carrier_audio
   = Raise ZeroSizeReduction <-> carrier_audio = [])
  /\ (carrier_audio = []
      \/ exists output,
          Masker.generate_with_carrier self payload_bytes carrier_audio
          = Ok output
          /\ length output = length carrier_audio
          /\ Forall (fun x => Rabs x <= 1) output).
Proof.
  unfold Masker.generate_with_carrier. cbv zeta.
  match goal with
  | |- context [mix_into ?c ?m ?a] =>
      pose proof (mix_into_outcome c m a) as H; destruct (mix_into c m a)
  end.
  - destruct H as (Hne & Hl & Hb). split.
    + split; [discriminate|]. intros E. contradiction.
    + right. eexists. repeat split; assumption.
  - destruct H as (E & ->). split.
    + split; [intros _; exact E|reflexivity].
    + left. exact E.
Qed.

End EmbeddingOutcome.

(* ------------------------------------------------------------------ *)
(** ** Pure-noise masking *)

Section NoiseMasking.
Open Scope R_scope.

(** The masking step on a signal that is not empty: as many samples, none
    above 0.95 in magnitude. *)
Lemma apply_noise_masking_outcome (self : Masker.DSSSMasker) (z : nat -> R)
      (modulated : signal) :
  modulated <> [] ->
  exists masked,
    Masker._apply_noise_masking self z modulated = Ok masked
    /\ length masked = length modulated
    /\ Forall (fun x => Rabs x <= 0.95) masked.
Proof.
  intros Hne. unfold Masker._apply_noise_masking. cbv zeta.
  match goal with
  | |- context [np_max_abs ?m] => set (masked := m)
  end.
  assert (Hlm : length masked = length modulated).
  { unfold masked, Masker.random_normal.
    rewrite length_map, length_combine, length_map, length_seq.
    apply Nat.min_id. }
  destruct (np_max_abs masked) as [max_val|x] eqn:Hmax; cbn [bind].
  - destruct (np_max_abs_peak _ _ Hmax) as (Hb & _ & Hpos).
    destruct (Rlt_dec 0 max_val) as [H|H].
    + eexists. split; [reflexivity|]. split.
      * unfold vec_scale, vec_div. rewrite !length_map. exact Hlm.
      * apply normalised_bound; [exact H|lra|exact Hb].
    + eexists. split; [reflexivity|]. split; [exact Hlm|].
      revert Hb. apply Forall_impl. intros y Hy. lra.
  - exfalso. destruct (np_max_abs_raises _ _ Hmax) as (E & _).
    rewrite E in Hlm. destruct modulated; [congruence|discriminate].
Qed.

(** The modulated signal of a payload has 8 x 31 x 44 samples per byte. *)
Lemma masker_payload_samples (snr freq : R) (payload_bytes : bytes) :
  length (Masker._modulate_signal (Masker.init snr freq)
            (spread_bits (bytes_to_bits payload_bytes)))
  = (length payload_bytes * 8 * 31 * 44)%nat.
Proof.
  rewrite masker_modulated_length, bytes_to_bits_length.
  change (samples_per_chip_of (Masker.sample_rate (Masker.init snr freq)))
    with 44%nat.
  unfold SPREADING_FACTOR. replace (length PNC_KEY) with 31%nat by reflexivity.
  lia.
Qed.

(** X4.  For a payload that is not empty, [generate_masked_audio] of a
    masker as [__init__] builds it returns 8 x 31 x 44 samples per payload
    byte, none above 0.95 in magnitude, whatever the noise drawn. *)
Theorem generate_masked_audio_returns (snr freq : R) (z : nat -> R)
        (payload_bytes : bytes) :
  payload_bytes <> [] ->
  exists masked,
    Masker.generate_masked_audio (Masker.init snr freq) z payload_bytes
    = Ok masked
    /\ length masked = (length payload_bytes * 8 * 31 * 44)%nat
    /\ Forall (fun x => Rabs x <= 0.95) masked.
Proof.
  intros Hne.
  unfold Masker.generate_masked_audio, Masker._bytes_to_bits,
    Masker._spread_bits. cbv zeta.
  destruct (apply_noise_masking_outcome (Masker.init snr freq) z
              (Masker._modulate_signal (Masker.init snr freq)
                 (spread_bits (bytes_to_bits payload_bytes))))
    as (masked & Hm & Hl & Hb).
  - intros E. apply (f_equal (@length R)) in E.
    rewrite masker_payload_samples in E.
    destruct payload_bytes; [congruence|]. cbn [length] in E. lia.
  - exists masked. split; [exact Hm|]. split; [|exact Hb].
    rewrite Hl. apply masker_payload_samples.
Qed.

Lemma generate_masked_audio_returns_witness :
  exists masked,
    Masker.generate_masked_audio (Masker.init (-20) 12000) (fun _ => 1)
      [72; 105]%Z = Ok masked
    /\ length masked = (length [72; 105]%Z * 8 * 31 * 44)%nat
    /\ Forall (fun x => Rabs x <= 0.95) masked.
Proof.
  apply (generate_masked_audio_returns (-20) 12000 (fun _ => 1) [72; 105]%Z).
  discriminate.
Defined.

End NoiseMasking.

(* ------------------------------------------------------------------ *)
(** ** How many bits the detection loop reads *)

Section DetectionCount.

(** From position [p], the loop reads one bit per whole window that is
    left, up to [n]. *)
Lemma detect_bits_count (n : nat) (demodulated : signal) (spc p : nat) :
  (0 < spc)%nat ->
  length (detect_bits n demodulated spc p)
  = Nat.min n ((length demodulated - p) / (SPREADING_FACTOR * spc)).
Proof.
  intros Hspc.
  set (W := (SPREADING_FACTOR * spc)%nat).
  assert (HW : (0 < W)%nat) by (unfold W, SPREADING_FACTOR; simpl length; lia).
  revert p. induction n as [|n IH]; intros p; cbn [detect_bits]; fold W;
    [reflexivity|].
  destruct (Nat.ltb_spec (length demodulated) (p + W)) as [H|H].
  - rewrite Nat.div_small by lia. rewrite Nat.min_0_r. reflexivity.
  - cbn [length]. rewrite IH.
    replace (length demodulated - p)%nat
      with (1 * W + (length demodulated - (p + W)))%nat by lia.
    rewrite Nat.div_add_l by lia. lia.
Qed.

(** X5.  At a sample rate of 1000 Hz or more, [extract_from_audio] of the
    studio returns the empty byte string for every audio shorter than 32
    windows of 31 chips: no length can be read from it. *)
Theorem studio_extract_short_audio (stego_audio : signal) (sample_rate : Z) :
  (1000 <= sample_rate)%Z ->
  (length stego_audio < 32 * (31 * samples_per_chip_of sample_rate))%nat ->
  Studio.extract_from_audio stego_audio sample_rate = [].
Proof.
  intros Hsr Hshort.
  assert (Hspc : (0 < samples_per_chip_of sample_rate)%nat).
  { unfold samples_per_chip_of.
    assert (1 <= Z.quot sample_rate 1000)%Z
      by (apply Z.quot_le_lower_bound; lia).
    lia. }
  unfold Studio.extract_from_audio, Studio.extract_payload.
  assert (Hn : (length (Studio.demodulate_bits stego_audio sample_rate) < 32)%nat).
  { unfold Studio.demodulate_bits. cbv zeta.
    rewrite detect_bits_count by exact Hspc.
    rewrite vec_mul_length. unfold carrier_of, np_linspace.
    rewrite !length_map, length_seq, Nat.min_id, Nat.sub_0_r.
    apply Nat.min_lt_iff. right.
    apply Nat.Div0.div_lt_upper_bound.
    replace (length PNC_KEY) with 31%nat by reflexivity.
    unfold SPREADING_FACTOR. replace (length PNC_KEY) with 31%nat by reflexivity.
    lia. }
  rewrite bits_to_bytes_length.
  replace (_ <? 4)%nat with true; [reflexivity|].
  symmetry. apply Nat.ltb_lt. apply Nat.Div0.div_lt_upper_bound. lia.
Qed.

Lemma studio_extract_short_audio_witness :
  Studio.extract_from_audio [1 / 2; -1 / 4]%R 44100 = [].
Proof.
  apply (studio_extract_short_audio [1 / 2; -1 / 4]%R 44100).
  - lia.
  - change (samples_per_chip_of 44100) with 44%nat. cbn [length]. lia.
Defined.

(** X6.  The masker has no length prefix: from audio of [L] samples,
    [extract_from_audio] of a masker as [__init__] builds it returns one
    byte for every 8 whole windows of 1364 samples, up to 512 bytes,
    whatever the audio holds. *)
Theorem masker_extract_length (snr freq : R) (audio : signal) :
  length (Masker.extract_from_audio (Masker.init snr freq) audio)
  = Nat.min 512 (length audio / 1364 / 8).
Proof.
  unfold Masker.extract_from_audio, Masker._bits_to_bytes. cbv zeta.
  rewrite bits_to_bytes_length.
  change (samples_per_chip_of (Masker.sample_rate (Masker.init snr freq)))
    with 44%nat.
  rewrite detect_bits_count by lia.
  rewrite vec_mul_length. unfold carrier_of, np_linspace.
  rewrite !length_map, length_seq, Nat.min_id, Nat.sub_0_r.
  change (SPREADING_FACTOR * 44)%nat with 1364%nat.
  destruct (Nat.le_ge_cases 4096 (length audio / 1364)) as [H|H].
  - rewrite (Nat.min_l 4096) by exact H.
    change (4096 / 8)%nat with 512%nat.
    symmetry. apply Nat.min_l. change 512%nat with (4096 / 8)%nat.
    apply Nat.Div0.div_le_mono. exact H.
  - rewrite (Nat.min_r 4096) by exact H.
    symmetry. apply Nat.min_r. change 512%nat with (4096 / 8)%nat.
    apply Nat.Div0.div_le_mono. exact H.
Qed.

End DetectionCount.

(* ------------------------------------------------------------------ *)
(** ** The masker without noise *)

Section MaskerRoundTrip.
Open Scope R_scope.

(** The detection loop, allowed [n] bits, on a modulated bit sequence. *)
Lemma detect_modulated (n : nat) (bits : list Z) :
  Forall is_bit bits ->
  let modulated := Studio.modulate (spread_bits bits) 44100 in
  detect_bits n
    (vec_mul modulated
       (carrier_of 12000
          (np_linspace 0 (INR (length modulated) / 44100) (length modulated))))
    44 0
  = firstn n bits.
Proof.
  intros Hbits modulated.
  destruct (Nat.eq_dec (length bits) 0) as [E|E].
  { apply length_zero_iff_nil in E. subst bits modulated.
    cbn [spread_bits flat_map]. unfold Studio.modulate.
    cbn [np_repeat flat_map vec_mul length].
    rewrite detect_bits_nil by lia. rewrite firstn_nil. reflexivity. }
  assert (Hnb : (1 <= length bits)%nat) by lia.
  destruct (modulate_as_product bits) as (Hmod & Hlen).
  set (L := (length bits * (SPREADING_FACTOR * 44))%nat) in *.
  fold modulated in Hmod, Hlen. rewrite Hlen, carrier_as_map, Hmod.
  rewrite vec_mul_assoc, vec_mul_map_seq.
  apply detect_bits_baseband.
  - exact Hbits.
  - lia.
  - rewrite length_map, length_seq. reflexivity.
  - replace (map (fun i => carrier_sample 12000 44100 L i
                           * carrier_sample 12000 44100 L i) (seq 0 L))
      with (map (fun i => 1 * (carrier_sample 12000 44100 L i
                               * carrier_sample 12000 44100 L i)) (seq 0 L))
      by (apply map_ext; intros; ring).
    apply carrier_energy_positive; [lra|].
    unfold L, SPREADING_FACTOR. simpl length. lia.
Qed.

(** X7.  Without the noise, a masker on the default 12 kHz carrier reads
    back what it modulated: the payload, cut at 512 bytes. *)
Theorem masker_noiseless_round_trip (snr : R) (payload_bytes : bytes) :
  is_bytes payload_bytes ->
  let self := Masker.init snr 12000 in
  Masker.extract_from_audio self
    (Masker._modulate_signal self
       (Masker._spread_bits (Masker._bytes_to_bits payload_bytes)))
  = firstn 512 payload_bytes.
Proof.
  intros Hb self.
  unfold Masker.extract_from_audio, Masker._bits_to_bytes,
    Masker._spread_bits, Masker._bytes_to_bits. cbv zeta.
  change (Masker._modulate_signal self (spread_bits (bytes_to_bits payload_bytes)))
    with (Studio.modulate (spread_bits (bytes_to_bits payload_bytes)) 44100).
  change (samples_per_chip_of (Masker.sample_rate self)) with 44%nat.
  change (Masker.carrier_freq self) with 12000.
  change (IZR (Masker.sample_rate self)) with 44100.
  rewrite (detect_modulated 4096 _ (bytes_to_bits_are_bits payload_bytes)).
  change 4096%nat with (8 * 512)%nat.
  apply bits_to_bytes_firstn. exact Hb.
Qed.

Lemma masker_noiseless_round_trip_witness :
  Masker.extract_from_audio (Masker.init (-20) 12000)
    (Masker._modulate_signal (Masker.init (-20) 12000)
       (Masker._spread_bits (Masker._bytes_to_bits [72; 105]%Z)))
  = firstn 512 [72; 105]%Z.
Proof.
  apply (masker_noiseless_round_trip (-20) [72; 105]%Z).
  repeat (apply Forall_cons; [unfold is_byte; lia|]). apply Forall_nil.
Defined.

(** C10.  The detection loop returns at most as many bits as it is allowed,
    2080 in the studio and 4096 in the masker, so the studio never returns
    more than 256 bytes and the masker never more than 512, whatever the
    audio and whatever length the audio declares; and a longer message
    comes back cut: what the studio modulated, at 256 bytes, and what the
    masker modulated, at 512. *)
Theorem decode_size_cap :
  (forall n demodulated samples_per_chip position,
      (length (detect_bits n demodulated samples_per_chip position) <= n)%nat)
  /\ (forall stego_audio sample_rate,
         (length (Studio.demodulate_bits stego_audio sample_rate)
          <= 32 + 8 * 256)%nat
         /\ (length (Studio.extract_from_audio stego_audio sample_rate)
             <= 256)%nat)
  /\ (forall self audio,
         (length (Masker.extract_from_audio self audio) <= 512)%nat)
  /\ (forall message_bytes,
         is_bytes message_bytes ->
         (Z.of_nat (length message_bytes) < 4294967296)%Z ->
         exists bits,
           Studio.frame_bits message_bytes = Ok bits
           /\ Studio.extract_from_audio
                (Studio.modulate (spread_bits bits) 44100) 44100
              = firstn 256 message_bytes)
  /\ (forall snr payload_bytes,
         is_bytes payload_bytes ->
         Masker.extract_from_audio (Masker.init snr 12000)
           (Masker._modulate_signal (Masker.init snr 12000)
              (Masker._spread_bits (Masker._bytes_to_bits payload_bytes)))
         = firstn 512 payload_bytes).
Proof.
  split; [exact detect_bits_length|].
  split.
  { intros stego_audio sample_rate. split.
    - apply detect_bits_length.
    - apply studio_extract_cap. }
  split; [exact masker_extract_cap|].
  split.
  { intros message_bytes Hb Hlen.
    destruct (extract_modulated message_bytes 1 Hb Hlen) as (bits & Hf & _ & He);
      [lra|].
    exists bits. split; [exact Hf|].
    rewrite vec_scale_1 in He. exact He. }
  intros snr payload_bytes Hb.
  unfold Masker.extract_from_audio, Masker._bits_to_bytes,
    Masker._spread_bits, Masker._bytes_to_bits. cbv zeta.
  change (Masker._modulate_signal (Masker.init snr 12000)
            (spread_bits (bytes_to_bits payload_bytes)))
    with (Studio.modulate (spread_bits (bytes_to_bits payload_bytes)) 44100).
  change (samples_per_chip_of (Masker.sample_rate (Masker.init snr 12000)))
    with 44%nat.
  change (Masker.carrier_freq (Masker.init snr 12000)) with 12000.
  change (IZR (Masker.sample_rate (Masker.init snr 12000))) with 44100.
  rewrite (detect_modulated 4096 _ (bytes_to_bits_are_bits payload_bytes)).
  change 4096%nat with (8 * 512)%nat.
  apply bits_to_bytes_firstn. exact Hb.
Qed.

End MaskerRoundTrip.

(* ------------------------------------------------------------------ *)
(** ** Carriers that are silent, and carriers that are quiet *)

Section QuietCarriers.
Open Scope R_scope.

Lemma np_sum_zeros (n : nat) : np_sum (repeat 0 n) = 0.
Proof.
  induction n as [|n IH]; cbn [repeat]; [reflexivity|].
  rewrite np_sum_cons, IH. lra.
Qed.

Lemma add_prefix_nothing (output m : signal) :
  add_prefix output (vec_scale m 0) = output.
Proof.
  revert m. induction output as [|o output IH]; intros [|x m];
    cbn [vec_scale map add_prefix]; try reflexivity.
  fold (vec_scale m 0). rewrite IH. f_equal. lra.
Qed.

Lemma peak_of_zeros (n : nat) :
  fold_left Rmax (map Rabs (repeat 0 n)) 0 = 0.
Proof.
  induction n as [|k IH]; cbn [repeat map fold_left]; [reflexivity|].
  rewrite Rabs_R0. unfold Rmax at 2. destruct (Rle_dec 0 0); exact IH.
Qed.

(** X8.  Into a silent carrier [generate_with_carrier] embeds nothing: the
    amplitude it derives from the carrier's power is zero, and it returns
    the silence it was given, whatever the payload. *)
Theorem generate_with_silent_carrier (self : Masker.DSSSMasker)
        (payload_bytes : bytes) (n : nat) :
  Masker.signal_amplitude self (repeat 0 (S n)) = 0
  /\ Masker.generate_with_carrier self payload_bytes (repeat 0 (S n))
     = Ok (repeat 0 (S n)).
Proof.
  assert (Ha : Masker.signal_amplitude self (repeat 0 (S n)) = 0).
  { unfold Masker.signal_amplitude, np_mean. cbv zeta.
    replace (map (fun x => x * x) (repeat 0 (S n))) with (repeat 0 (S n)).
    2:{ rewrite map_repeat. f_equal. lra. }
    rewrite np_sum_zeros. unfold Rdiv. rewrite !Rmult_0_l. apply sqrt_0. }
  split; [exact Ha|].
  unfold Masker.generate_with_carrier. cbv zeta. rewrite Ha.
  unfold mix_into, unnormalised_mix. cbv zeta.
  rewrite add_prefix_nothing. cbn [repeat np_max_abs bind].
  rewrite Rabs_R0, peak_of_zeros.
  destruct (Rlt_dec 1 0) as [H|H]; [lra|reflexivity].
Qed.

Lemma Forall_firstn_any {A} (P : A -> Prop) (n : nat) (l : list A) :
  Forall P l -> Forall P (firstn n l).
Proof.
  intros H. revert n. induction H; intros [|n]; cbn [firstn]; auto.
Qed.

Lemma Forall_vec_mul_bound (a b : signal) :
  Forall (fun x => Rabs x <= 1) a -> Forall (fun x => Rabs x <= 1) b ->
  Forall (fun x => Rabs x <= 1) (vec_mul a b).
Proof.
  intros Ha. revert b. induction Ha as [|x a Hx _ IH]; intros b Hb;
    [constructor|].
  destruct Hb as [|y b Hy Hb]; cbn [vec_mul]; constructor.
  - rewrite Rabs_mult. replace 1 with (1 * 1) by ring.
    apply Rmult_le_compat; try apply Rabs_pos; assumption.
  - apply IH. exact Hb.
Qed.

Lemma spread_bits_bound (bits : list Z) :
  Forall (fun x => Rabs x <= 1) (spread_bits bits).
Proof.
  induction bits as [|b bits IH]; cbn [spread_bits flat_map]; [constructor|].
  apply Forall_app. split; [|exact IH].
  unfold vec_scale. apply Forall_map.
  pose proof PNC_KEY_squares as H. revert H. apply Forall_impl.
  intros c Hc. rewrite Rabs_mult.
  assert (Rabs c = 1).
  { assert (Hcc : Rabs c * Rabs c = 1) by (rewrite <- Rabs_mult, Hc; apply Rabs_R1).
    pose proof (Rabs_pos c). nra. }
  assert (Rabs (bit_scalar b) = 1).
  { unfold bit_scalar. destruct (b =? 1)%Z; [apply Rabs_R1|].
    rewrite Rabs_left by lra. lra. }
  nra.
Qed.

Lemma np_repeat_bound (a : signal) (n : nat) :
  Forall (fun x => Rabs x <= 1) a ->
  Forall (fun x => Rabs x <= 1) (np_repeat a n).
Proof.
  induction 1 as [|x a Hx _ IH]; cbn [np_repeat flat_map]; [constructor|].
  apply Forall_app. split; [|exact IH].
  apply Forall_forall. intros y Hy. apply repeat_spec in Hy. subst y. exact Hx.
Qed.

(** The modulated signal never leaves [-1, 1]. *)
Lemma modulate_bound (bits : list Z) (sample_rate : Z) :
  Forall (fun x => Rabs x <= 1) (Studio.modulate (spread_bits bits) sample_rate).
Proof.
  unfold Studio.modulate. cbv zeta. apply Forall_vec_mul_bound.
  - apply np_repeat_bound, spread_bits_bound.
  - unfold carrier_of. apply Forall_map, Forall_forall. intros t _.
    apply Rabs_le. pose proof (SIN_bound (2 * PI * 12000 * t)). lra.
Qed.

Lemma studio_amplitude_half (snr_db : R) :
  snr_db <= 0 -> Studio.signal_amplitude snr_db <= 1 / 2.
Proof.
  intros H. unfold Studio.signal_amplitude, snr_linear_of, Rpower.
  assert (Hln : 0 < ln 10) by (rewrite <- ln_1; apply ln_increasing; lra).
  assert (Hexp : exp (snr_db / 10 * ln 10) <= 1).
  { rewrite <- exp_0.
    destruct (Req_dec (snr_db / 10 * ln 10) 0) as [E|E]; [rewrite E; lra|].
    left. apply exp_increasing.
    assert (snr_db / 10 * ln 10 <= 0); [|lra].
    replace 0 with (0 * ln 10) by ring.
    apply Rmult_le_compat_r; lra. }
  assert (sqrt (exp (snr_db / 10 * ln 10)) <= 1).
  { rewrite <- sqrt_1. apply sqrt_le_1_alt. exact Hexp. }
  lra.
Qed.

Lemma add_prefix_bound (output m : signal) :
  Forall (fun x => Rabs x <= 1 / 2) output ->
  Forall (fun x => Rabs x <= 1 / 2) m ->
  Forall (fun x => Rabs x <= 1) (add_prefix output m).
Proof.
  intros Ho. revert m. induction Ho as [|o output Ho Hout IH]; intros m Hm;
    [constructor|].
  destruct Hm as [|x m Hx Hm]; cbn [add_prefix].
  - constructor; [lra|].
    revert Hout. apply Forall_impl. intros y Hy. lra.
  - constructor; [|apply IH; exact Hm].
    pose proof (Rabs_triang o x). lra.
Qed.

(** X9.  At a positive sample rate, a carrier whose samples stay within
    [-1/2, 1/2] is never rescaled by [embed_in_audio] at an SNR of 0 dB or
    less: the output is the carrier plus the scaled message, so that the
    samples past the message are the carrier's own. *)
Theorem embed_in_quiet_carrier (snr_db : R) (carrier_audio : signal)
        (message_bytes : bytes) (sample_rate : Z) :
  (0 < sample_rate)%Z ->
  carrier_audio <> [] ->
  Forall (fun x => Rabs x <= 1 / 2) carrier_audio ->
  snr_db <= 0 ->
  (Z.of_nat (length message_bytes) < 4294967296)%Z ->
  exists bits,
    Studio.frame_bits message_bytes = Ok bits
    /\ Studio.embed_in_audio snr_db carrier_audio message_bytes sample_rate
       = Ok (unnormalised_mix carrier_audio
               (Studio.modulate (spread_bits bits) sample_rate)
               (Studio.signal_amplitude snr_db))
    /\ forall i output,
        Studio.embed_in_audio snr_db carrier_audio message_bytes sample_rate
        = Ok output ->
        (length (Studio.modulate (spread_bits bits) sample_rate) <= i)%nat ->
        nth i output 0 = nth i carrier_audio 0.
Proof.
  intros _ Hne Hq Hsnr Hlen.
  destruct (to_bytes_4_big_ok (Z.of_nat (length message_bytes)))
    as (h & Hh & _); [lia|].
  exists (bytes_to_bits (h ++ message_bytes)).
  assert (Hf : Studio.frame_bits message_bytes
               = Ok (bytes_to_bits (h ++ message_bytes)))
    by (unfold Studio.frame_bits; rewrite Hh; reflexivity).
  split; [exact Hf|].
  set (modulated := Studio.modulate
                      (spread_bits (bytes_to_bits (h ++ message_bytes)))
                      sample_rate).
  set (a := Studio.signal_amplitude snr_db).
  assert (Ha0 : 0 < a) by apply studio_amplitude_positive.
  assert (Ha : a <= 1 / 2) by (apply studio_amplitude_half; exact Hsnr).
  assert (Hmix : mix_into carrier_audio modulated a
                 = Ok (unnormalised_mix carrier_audio modulated a)).
  { unfold mix_into. cbv zeta.
    assert (Hb : Forall (fun x => Rabs x <= 1)
                   (unnormalised_mix carrier_audio modulated a)).
    { rewrite unnormalised_mix_firstn. apply add_prefix_bound; [exact Hq|].
      unfold vec_scale. apply Forall_map.
      assert (Hm : Forall (fun x => Rabs x <= 1)
                     (firstn (length carrier_audio) modulated))
        by (apply Forall_firstn_any, modulate_bound).
      revert Hm. apply Forall_impl. intros x Hx. rewrite Rabs_mult.
      rewrite (Rabs_pos_eq a) by lra. pose proof (Rabs_pos x). nra. }
    destruct (np_max_abs (unnormalised_mix carrier_audio modulated a))
      as [max_val|x] eqn:Hmax; cbn [bind].
    - destruct (np_max_abs_peak _ _ Hmax) as (_ & (x & Hin & Hx) & _).
      rewrite Forall_forall in Hb. specialize (Hb x Hin).
      destruct (Rlt_dec 1 max_val) as [H|H]; [lra|reflexivity].
    - exfalso. destruct (np_max_abs_raises _ _ Hmax) as (E & _).
      apply (f_equal (@length R)) in E.
      rewrite unnormalised_mix_length in E.
      destruct carrier_audio; [congruence|discriminate E]. }
  assert (Hemb : Studio.embed_in_audio snr_db carrier_audio message_bytes
                   sample_rate
                 = Ok (unnormalised_mix carrier_audio modulated a)).
  { unfold Studio.embed_in_audio. rewrite Hf. cbn [bind]. exact Hmix. }
  split; [exact Hemb|].
  intros i output Hout Hi. rewrite Hemb in Hout. apply Ok_inj in Hout.
  subst output. rewrite unnormalised_mix_firstn. apply nth_add_prefix.
  unfold vec_scale. rewrite length_map, length_firstn. fold modulated in Hi. lia.
Qed.

Lemma embed_in_quiet_carrier_witness :
  exists bits,
    Studio.frame_bits [72; 105]%Z = Ok bits
    /\ Studio.embed_in_audio (-20) [1 / 2; -1 / 4] [72; 105]%Z 44100
       = Ok (unnormalised_mix [1 / 2; -1 / 4]
               (Studio.modulate (spread_bits bits) 44100)
               (Studio.signal_amplitude (-20)))
    /\ forall i output,
        Studio.embed_in_audio (-20) [1 / 2; -1 / 4] [72; 105]%Z 44100
        = Ok output ->
        (length (Studio.modulate (spread_bits bits) 44100) <= i)%nat ->
        nth i output 0 = nth i [1 / 2; -1 / 4] 0.
Proof.
  apply (embed_in_quiet_carrier (-20) [1 / 2; -1 / 4] [72; 105]%Z 44100).
  - lia.
  - discriminate.
  - repeat (apply Forall_cons; [apply Rabs_le; lra|]). apply Forall_nil.
  - lra.
  - simpl. lia.
Defined.

End QuietCarriers.

(* ------------------------------------------------------------------ *)
(** ** Bits and bytes, both ways *)

Section BitsBothWays.
Open Scope Z_scope.

(** X10.  [_bits_to_bytes] undoes [_bytes_to_bits] on every byte
    string. *)
Theorem bits_to_bytes_of_bytes (data : bytes) :
  is_bytes data ->
  Masker._bits_to_bytes (Masker._bytes_to_bits data) = data
  /\ length (Masker._bytes_to_bits data) = (8 * length data)%nat
  /\ Forall is_bit (Masker._bytes_to_bits data).
Proof.
  intros H. unfold Masker._bits_to_bytes, Masker._bytes_to_bits.
  split; [|split].
  - rewrite <- (app_nil_r (bytes_to_bits data)).
    rewrite (bits_to_bytes_to_bits data [] H). apply app_nil_r.
  - apply bytes_to_bits_length.
  - apply bytes_to_bits_are_bits.
Qed.

Lemma bits_to_bytes_of_bytes_witness :
  Masker._bits_to_bytes (Masker._bytes_to_bits [0; 72; 255]) = [0; 72; 255]
  /\ length (Masker._bytes_to_bits [0; 72; 255]) = (8 * length [0; 72; 255])%nat
  /\ Forall is_bit (Masker._bytes_to_bits [0; 72; 255]).
Proof.
  apply (bits_to_bytes_of_bytes [0; 72; 255]).
  repeat (apply Forall_cons; [unfold is_byte; lia|]). apply Forall_nil.
Defined.

Lemma byte_of_eight_bits (b0 b1 b2 b3 b4 b5 b6 b7 : Z) :
  is_bit b0 -> is_bit b1 -> is_bit b2 -> is_bit b3 ->
  is_bit b4 -> is_bit b5 -> is_bit b6 -> is_bit b7 ->
  let byte := 0 + Z.shiftl b0 7 + Z.shiftl b1 6 + Z.shiftl b2 5
              + Z.shiftl b3 4 + Z.shiftl b4 3 + Z.shiftl b5 2
              + Z.shiftl b6 1 + Z.shiftl b7 0 in
  is_byte byte /\ byte_bits byte = [b0; b1; b2; b3; b4; b5; b6; b7].
Proof.
  intros [-> | ->] [-> | ->] [-> | ->] [-> | ->]
         [-> | ->] [-> | ->] [-> | ->] [-> | ->];
    (split; [unfold is_byte; cbn; lia | reflexivity]).
Qed.

(** X11.  On a sequence of bits, [_bits_to_bytes] yields bytes, and
    [_bytes_to_bits] of them gives back the bits of the complete groups of
    eight: the incomplete group at the end is dropped. *)
Theorem bytes_to_bits_of_bits (bits : list Z) :
  Forall is_bit bits ->
  is_bytes (Masker._bits_to_bytes bits)
  /\ Masker._bytes_to_bits (Masker._bits_to_bytes bits)
     = firstn (8 * (length bits / 8)) bits.
Proof.
  unfold Masker._bits_to_bytes, Masker._bytes_to_bits.
  remember (length bits) as n eqn:Hn. revert bits Hn.
  induction n as [n IH] using lt_wf_ind. intros bits Hn Hbits.
  destruct (Nat.lt_ge_cases n 8) as [Hlt|Hge].
  - rewrite bits_to_bytes_short by lia. rewrite Nat.div_small by lia.
    split; [constructor|reflexivity].
  - destruct bits as [|b0 [|b1 [|b2 [|b3 [|b4 [|b5 [|b6 [|b7 bits]]]]]]]];
      try (simpl in Hn; lia).
    repeat match goal with
           | H : Forall is_bit (_ :: _) |- _ => inversion_clear H
           end.
    cbn [bits_to_bytes]. cbn [length] in Hn.
    destruct (IH (length bits)) with (bits := bits) as (IH1 & IH2);
      [lia|reflexivity|assumption|].
    destruct (byte_of_eight_bits b0 b1 b2 b3 b4 b5 b6 b7) as (Hb & Hbits8);
      try assumption.
    cbv zeta in Hb, Hbits8. split.
    + constructor; [exact Hb|exact IH1].
    + cbn [bytes_to_bits flat_map]. fold (bytes_to_bits (bits_to_bytes bits)).
      rewrite Hbits8, IH2. subst n.
      replace (S (S (S (S (S (S (S (S (length bits)))))))))
        with (1 * 8 + length bits)%nat by lia.
      rewrite Nat.div_add_l by lia.
      replace (8 * (1 + length bits / 8))%nat
        with (8 + 8 * (length bits / 8))%nat by lia.
      reflexivity.
Qed.

Lemma bytes_to_bits_of_bits_witness :
  is_bytes (Masker._bits_to_bytes [1; 0; 1; 0; 0; 0; 0; 1; 1; 1])
  /\ Masker._bytes_to_bits (Masker._bits_to_bytes [1; 0; 1; 0; 0; 0; 0; 1; 1; 1])
     = firstn (8 * (length [1; 0; 1; 0; 0; 0; 0; 1; 1; 1] / 8))
         [1; 0; 1; 0; 0; 0; 0; 1; 1; 1].
Proof.
  apply (bytes_to_bits_of_bits [1; 0; 1; 0; 0; 0; 0; 1; 1; 1]).
  repeat (apply Forall_cons; [unfold is_bit; lia|]). apply Forall_nil.
Defined.

End BitsBothWays.

(* ------------------------------------------------------------------ *)
(** ** The SNR setting *)

Section SnrSetting.
Open Scope R_scope.

Lemma clamp_snr_range (snr : R) :
  -30 <= clamp_snr snr <= -10
  /\ (snr <= -30 -> clamp_snr snr = -30)
  /\ (-30 <= snr <= -10 -> clamp_snr snr = snr)
  /\ (-10 <= snr -> clamp_snr snr = -10).
Proof.
  unfold clamp_snr, Rmax, Rmin.
  destruct (Rle_dec (-10) snr); destruct (Rle_dec (-30) _);
    repeat split; intros; lra.
Qed.

(** X12.  However a masker is built and however often its SNR is set, its
    SNR lies in [-30, -10]: a value in that range is kept, one outside is
    moved to the nearer end; setting the SNR changes neither the carrier
    frequency nor the sample rate. *)
Theorem masker_snr_in_range (snr freq snr' : R) :
  let self := Masker.init snr freq in
  let self' := Masker.set_snr self snr' in
  -30 <= Masker.snr_db self <= -10
  /\ -30 <= Masker.snr_db self' <= -10
  /\ (snr' <= -30 -> Masker.snr_db self' = -30)
  /\ (-30 <= snr' <= -10 -> Masker.snr_db self' = snr')
  /\ (-10 <= snr' -> Masker.snr_db self' = -10)
  /\ Masker.carrier_freq self' = freq
  /\ Masker.sample_rate self' = 44100%Z.
Proof.
  cbv zeta. cbn [Masker.init Masker.set_snr Masker.snr_db Masker.carrier_freq
                 Masker.sample_rate].
  pose proof (clamp_snr_range snr) as (H1 & _).
  pose proof (clamp_snr_range snr') as (H2 & H3 & H4 & H5).
  repeat split; try tauto; try lra; reflexivity.
Qed.

End SnrSetting.

(* ------------------------------------------------------------------ *)
(** ** Byte strings in the envelope *)

Section EnvelopeBytes.
Open Scope Z_scope.

Lemma lxor_byte (a b : Z) : is_byte a -> is_byte b -> is_byte (Z.lxor a b).
Proof.
  unfold is_byte. intros Ha Hb.
  assert (H0 : 0 <= Z.lxor a b) by (apply Z.lxor_nonneg; lia).
  split; [exact H0|].
  destruct (Z.eq_dec (Z.lxor a b) 0) as [E|E]; [lia|].
  change 256 with (2 ^ 8). apply Z.log2_lt_pow2; [lia|].
  pose proof (Z.log2_lxor a b ltac:(lia) ltac:(lia)) as Hl.
  assert (Z.log2 a < 8).
  { destruct (Z.eq_dec a 0) as [->|]; [cbn; lia|].
    apply Z.log2_lt_pow2; [lia|]. change (2 ^ 8) with 256. lia. }
  assert (Z.log2 b < 8).
  { destruct (Z.eq_dec b 0) as [->|]; [cbn; lia|].
    apply Z.log2_lt_pow2; [lia|]. change (2 ^ 8) with 256. lia. }
  lia.
Qed.

Lemma utf8_encode_cp_bytes (c : Z) (b : bytes) :
  utf8_encode_cp c = Ok b -> is_bytes b /\ (1 <= length b <= 4)%nat.
Proof.
  unfold utf8_encode_cp.
  destruct (Z.ltb_spec c 0); [discriminate|].
  destruct (Z.ltb_spec c 0x80).
  { intros Hb; apply Ok_inj in Hb; subst b. split; [|simpl; lia].
    repeat constructor; lia. }
  destruct (Z.ltb_spec c 0x800).
  { intros Hb; apply Ok_inj in Hb; subst b. split; [|simpl; lia].
    repeat constructor; Z.div_mod_to_equations; lia. }
  destruct (Z.ltb_spec c 0x10000).
  { destruct (is_surrogate c); [discriminate|].
    intros Hb; apply Ok_inj in Hb; subst b. split; [|simpl; lia].
    repeat constructor; Z.div_mod_to_equations; lia. }
  destruct (Z.leb_spec c 0x10FFFF); [|discriminate].
  intros Hb; apply Ok_inj in Hb; subst b. split; [|simpl; lia].
  repeat constructor; Z.div_mod_to_equations; lia.
Qed.

Lemma utf8_encode_bytes (s : str) (b : bytes) :
  utf8_encode s = Ok b ->
  is_bytes b /\ (length s <= length b <= 4 * length s)%nat.
Proof.
  revert b. induction s as [|c s IH]; intros b; cbn [utf8_encode].
  - intros H. apply Ok_inj in H. subst b. split; [constructor|simpl; lia].
  - destruct (utf8_encode_cp c) as [bc|] eqn:Hc; [|discriminate].
    destruct (utf8_encode s) as [bs|] eqn:Hs; [|discriminate].
    cbn [bind]. intros H. apply Ok_inj in H. subst b.
    destruct (utf8_encode_cp_bytes c bc Hc) as (H1 & H2).
    destruct (IH bs eq_refl) as (H3 & H4).
    split; [apply Forall_app; split; assumption|].
    rewrite length_app. cbn [length]. lia.
Qed.

Lemma utf8_encode_app (s t : str) (a b : bytes) :
  utf8_encode s = Ok a -> utf8_encode t = Ok b ->
  utf8_encode (s ++ t) = Ok (a ++ b).
Proof.
  revert a. induction s as [|c s IH]; intros a; cbn [utf8_encode app].
  - intros H. apply Ok_inj in H. subst a. intros ->. reflexivity.
  - destruct (utf8_encode_cp c) as [bc|]; [|discriminate].
    destruct (utf8_encode s) as [bs|]; [|discriminate].
    cbn [bind]. intros H Ht. apply Ok_inj in H. subst a.
    rewrite (IH bs eq_refl Ht). cbn [bind]. rewrite app_assoc. reflexivity.
Qed.

Lemma utf8_ascii (s : str) :
  Forall (fun c => 0 <= c < 128) s ->
  utf8_encode s = Ok s /\ utf8_decode s = Ok s.
Proof.
  induction 1 as [|c s Hc _ (IHe & IHd)]; [split; reflexivity|].
  split.
  - cbn [utf8_encode]. unfold utf8_encode_cp.
    destruct (Z.ltb_spec c 0); [lia|]. destruct (Z.ltb_spec c 128); [|lia].
    cbn [bind]. rewrite IHe. reflexivity.
  - rewrite utf8_decode_1 by lia. rewrite IHd. reflexivity.
Qed.

Lemma xor_with_key_bytes (key : bytes) (i : nat) (data ct : bytes) :
  is_bytes key -> is_bytes data ->
  xor_with_key key i data = Ok ct -> is_bytes ct.
Proof.
  intros Hk Hd. revert i ct. induction Hd as [|b data Hb _ IH]; intros i ct;
    cbn [xor_with_key].
  - intros H. apply Ok_inj in H. subst ct. constructor.
  - destruct (length key =? 0)%nat eqn:E; [discriminate|].
    destruct (xor_with_key key (S i) data) as [rest|] eqn:Hr; [|discriminate].
    cbn [bind]. intros H. apply Ok_inj in H. subst ct.
    constructor; [|eapply IH; exact Hr].
    apply lxor_byte; [exact Hb|].
    unfold is_bytes in Hk. rewrite Forall_forall in Hk. apply Hk, nth_In.
    apply Nat.mod_upper_bound. apply Nat.eqb_neq in E. exact E.
Qed.

Lemma xor_with_stream_bytes (ks : nat -> Z) (i : nat) (data : bytes) :
  (forall j, is_byte (ks j)) -> is_bytes data ->
  is_bytes (xor_with_stream ks i data).
Proof.
  intros Hk Hd. revert i. induction Hd as [|b data Hb _ IH]; intros i;
    cbn [xor_with_stream]; constructor.
  - apply lxor_byte; [exact Hb|apply Hk].
  - apply IH.
Qed.

Lemma xor_with_key_firstn (key : bytes) (i n : nat) (data ct : bytes) :
  xor_with_key key i data = Ok ct ->
  xor_with_key key i (firstn n data) = Ok (firstn n ct).
Proof.
  revert i n ct. induction data as [|b data IH]; intros i n ct;
    cbn [xor_with_key].
  - intros H. apply Ok_inj in H. subst ct. rewrite !firstn_nil. reflexivity.
  - destruct (length key =? 0)%nat eqn:E; [discriminate|].
    destruct (xor_with_key key (S i) data) as [rest|] eqn:Hr; [|discriminate].
    cbn [bind]. intros H. apply Ok_inj in H. subst ct.
    destruct n as [|n]; [reflexivity|].
    cbn [firstn xor_with_key]. rewrite E, (IH _ n _ Hr). reflexivity.
Qed.

Lemma xor_with_stream_firstn (ks : nat -> Z) (i n : nat) (data : bytes) :
  xor_with_stream ks i (firstn n data) = firstn n (xor_with_stream ks i data).
Proof.
  revert i n. induction data as [|b data IH]; intros i n.
  - rewrite !firstn_nil. reflexivity.
  - destruct n as [|n]; [reflexivity|].
    cbn [firstn xor_with_stream]. rewrite IH. reflexivity.
Qed.

Lemma xor_with_key_xor_bytes (key : bytes) (i : nat) (ct data delta : bytes) :
  xor_with_key key i ct = Ok data ->
  length delta = length ct ->
  xor_with_key key i (xor_bytes ct delta) = Ok (xor_bytes data delta).
Proof.
  revert i data delta. induction ct as [|c ct IH]; intros i data delta;
    cbn [xor_with_key].
  - intros H _. apply Ok_inj in H. subst data. reflexivity.
  - destruct (length key =? 0)%nat eqn:E; [discriminate|].
    destruct (xor_with_key key (S i) ct) as [rest|] eqn:Hr; [|discriminate].
    cbn [bind]. intros H Hl. apply Ok_inj in H. subst data.
    destruct delta as [|d delta]; [discriminate Hl|].
    cbn [xor_bytes xor_with_key]. rewrite E.
    rewrite (IH _ _ delta Hr) by (simpl in Hl; lia). cbn [bind].
    do 2 f_equal.
    rewrite !Z.lxor_assoc. f_equal. apply Z.lxor_comm.
Qed.

Lemma xor_with_stream_xor_bytes (ks : nat -> Z) (i : nat) (ct delta : bytes) :
  length delta = length ct ->
  xor_with_stream ks i (xor_bytes ct delta)
  = xor_bytes (xor_with_stream ks i ct) delta.
Proof.
  revert i delta. induction ct as [|c ct IH]; intros i delta Hl;
    [reflexivity|].
  destruct delta as [|d delta]; [discriminate Hl|].
  cbn [xor_bytes xor_with_stream]. rewrite IH by (simpl in Hl; lia).
  f_equal. rewrite !Z.lxor_assoc. f_equal. apply Z.lxor_comm.
Qed.

End EnvelopeBytes.

(* ------------------------------------------------------------------ *)
(** ** The envelope through the audio *)

Section EnvelopeThroughAudio.
Open Scope R_scope.

Variable lib : crypto_backend.

(** A frame modulated into silence of its own length comes back, cut at
    256 bytes, at any SNR. *)
Lemma embed_extract_silence (snr_db : R) (message_bytes : bytes) :
  is_bytes message_bytes ->
  (Z.of_nat (length message_bytes) < 4294967296)%Z ->
  exists bits stego,
    Studio.frame_bits message_bytes = Ok bits
    /\ Studio.embed_in_audio snr_db
         (repeat 0 (length (Studio.modulate (spread_bits bits) 44100)))
         message_bytes 44100 = Ok stego
    /\ Studio.extract_from_audio stego 44100 = firstn 256 message_bytes.
Proof.
  intros Hb Hlen.
  destruct (extract_payload_frame message_bytes Hb Hlen)
    as (bits & Hframe & Hbits & Hnb & _ & Hcut).
  destruct (mix_into_silence (Studio.modulate (spread_bits bits) 44100)
              (Studio.signal_amplitude snr_db))
    as (k & Hkpos & Hmix).
  { apply studio_amplitude_positive. }
  { apply modulate_nonempty. lia. }
  exists bits, (vec_scale (Studio.modulate (spread_bits bits) 44100) k).
  split; [exact Hframe|]. split.
  - unfold Studio.embed_in_audio. rewrite Hframe. cbn [bind]. exact Hmix.
  - unfold Studio.extract_from_audio.
    rewrite demodulate_modulated; [exact Hcut|exact Hbits|exact Hkpos|lia].
Qed.

Lemma MAGIC_HEADER_bytes : is_bytes MAGIC_HEADER.
Proof. repeat (apply Forall_cons; [unfold is_byte; lia|]). apply Forall_nil. Qed.

Lemma entropy_map_bytes (e : entropy) (a n : nat) :
  entropy_bytes e -> is_bytes (map e (seq a n)).
Proof. intros H. apply Forall_map, Forall_forall. intros i _. apply H. Qed.

(** The blob that [encrypt] returns is a byte string. *)
Lemma encrypt_blob_bytes (plaintext password : str) (e : entropy)
      (data ct : bytes) :
  entropy_bytes e ->
  (CRYPTO_AVAILABLE lib = true -> keystream_bytes lib) ->
  utf8_encode plaintext = Ok data ->
  (exists key,
      derive_key lib password (Some (salt_of e)) (fun i => e (16 + i)%nat)
      = Ok (key, salt_of e, fun i => e (16 + i)%nat)
      /\ (if CRYPTO_AVAILABLE lib
          then exists keystream,
              ChaCha20 lib key (nonce_of e) = Some keystream
              /\ ct = xor_with_stream keystream 0 data
          else xor_with_key key 0 data = Ok ct)) ->
  is_bytes (MAGIC_HEADER ++ salt_of e ++ nonce_of e ++ ct).
Proof.
  intros He Hks Hd (key & Hk & Hct).
  destruct (utf8_encode_bytes _ _ Hd) as (Hdb & _).
  apply Forall_app. split; [apply MAGIC_HEADER_bytes|].
  apply Forall_app. split; [apply entropy_map_bytes; exact He|].
  apply Forall_app. split; [apply entropy_map_bytes; exact He|].
  destruct (CRYPTO_AVAILABLE lib) eqn:Hav.
  - destruct Hct as (keystream & Hc & ->).
    apply xor_with_stream_bytes; [|exact Hdb].
    intros j. exact (Hks eq_refl _ _ _ j Hc).
  - apply (xor_with_key_bytes key 0 data); [|exact Hdb|exact Hct].
    revert Hk. rewrite derive_key_salt, Hav. cbn [negb].
    destruct (utf8_encode (firstn 32 (str_repeat password 32))) as [k|] eqn:Ek;
      cbn [bind]; [|discriminate].
    intros H. apply Ok_inj in H.
    assert (k = key) by congruence. subst k.
    exact (proj1 (utf8_encode_bytes _ _ Ek)).
Qed.

(** What [encrypt] seals opens again when cut at 256 bytes: [decrypt]
    then decodes the plaintext's encoding cut at 217. *)
Lemma sealed_blob_opens (plaintext password : str) (data : bytes)
      (e : entropy) :
  utf8_encode plaintext = Ok data ->
  Forall scalar_value plaintext ->
  Forall scalar_value password -> password <> [] ->
  entropy_bytes e ->
  (CRYPTO_AVAILABLE lib = true -> accepts_nonce_12 lib /\ keystream_bytes lib) ->
  exists blob,
    encrypt lib plaintext password e = Ok (blob, entropy_after e)
    /\ is_bytes blob
    /\ length blob = (39 + length data)%nat
    /\ forall e',
        decrypt lib (firstn 256 blob) password e'
        = (s <- utf8_decode (firstn 217 data) ;; Ok (s, e')).
Proof.
  intros Hd Hp Hpw Hne He Hlib.
  destruct (encrypt_returns lib plaintext password e Hp Hpw)
    as (key & data' & ct & Hk & Hd' & Hct & Hl & Henc).
  { intros _ E. contradiction. }
  { intros Hav. exact (proj1 (Hlib Hav)). }
  assert (data' = data) by congruence. subst data'.
  set (blob := MAGIC_HEADER ++ salt_of e ++ nonce_of e ++ ct) in *.
  assert (Hbb : is_bytes blob).
  { apply (encrypt_blob_bytes plaintext password e data ct He); try assumption.
    - intros Hav. exact (proj2 (Hlib Hav)).
    - exists key. split; assumption. }
  assert (Hbl : length blob = (39 + length data)%nat).
  { unfold blob. rewrite !length_app, salt_of_length, nonce_of_length, Hl.
    reflexivity. }
  exists blob.
  split; [exact Henc|]. split; [exact Hbb|]. split; [exact Hbl|].
  intros e'.
  assert (Hcut : firstn 256 blob
                 = MAGIC_HEADER ++ salt_of e ++ nonce_of e ++ firstn 217 ct).
  { unfold blob.
    change 256%nat with (length MAGIC_HEADER + 245)%nat.
    rewrite firstn_app_2.
    change 245%nat with (length (salt_of e) + 229)%nat.
    rewrite firstn_app_2.
    change 229%nat with (length (nonce_of e) + 217)%nat.
    rewrite firstn_app_2. reflexivity. }
  rewrite Hcut, decrypt_parsed by reflexivity.
  rewrite (derive_key_entropy lib _ _ _ _ e' Hk). cbn [bind]. cbv iota beta.
  destruct (CRYPTO_AVAILABLE lib); cbn [negb].
  - destruct Hct as (keystream & -> & ->).
    rewrite <- xor_with_stream_firstn, xor_with_stream_involutive.
    reflexivity.
  - apply xor_with_key_involutive in Hct.
    rewrite (xor_with_key_firstn key 0 217 ct data Hct). reflexivity.
Qed.

(** Sealing, embedding into silence, extracting and opening, for a
    plaintext of any length: what [decrypt] is given is the blob cut at 256
    bytes, and what it decodes is the plaintext's encoding cut at 217. *)
Lemma studio_pipeline_general (plaintext password : str) (data : bytes)
      (e : entropy) (snr_db : R) :
  utf8_encode plaintext = Ok data ->
  Forall scalar_value plaintext ->
  Forall scalar_value password -> password <> [] ->
  entropy_bytes e ->
  (CRYPTO_AVAILABLE lib = true -> accepts_nonce_12 lib /\ keystream_bytes lib) ->
  (Z.of_nat (length data) < 4294967000)%Z ->
  exists blob bits stego,
    encrypt lib plaintext password e = Ok (blob, entropy_after e)
    /\ length blob = (39 + length data)%nat
    /\ Studio.frame_bits blob = Ok bits
    /\ Studio.embed_in_audio snr_db
         (repeat 0 (length (Studio.modulate (spread_bits bits) 44100)))
         blob 44100 = Ok stego
    /\ Studio.extract_from_audio stego 44100 = firstn 256 blob
    /\ forall e',
        decrypt lib (Studio.extract_from_audio stego 44100) password e'
        = (s <- utf8_decode (firstn 217 data) ;; Ok (s, e')).
Proof.
  intros Hd Hp Hpw Hne He Hlib Hlen.
  destruct (sealed_blob_opens plaintext password data e Hd Hp Hpw Hne He Hlib)
    as (blob & Henc & Hbb & Hbl & Hdec).
  destruct (embed_extract_silence snr_db blob Hbb) as (bits & stego & Hf & Hemb & Hex).
  { rewrite Hbl. lia. }
  exists blob, bits, stego.
  split; [exact Henc|]. split; [exact Hbl|]. split; [exact Hf|].
  split; [exact Hemb|]. split; [exact Hex|].
  intros e'. rewrite Hex. apply Hdec.
Qed.

(** X13.  The studio's encode and decode steps compose: a plaintext whose
    UTF-8 encoding has at most 217 bytes, sealed with a non-empty password,
    embedded at any SNR into silence of the length of the modulated frame,
    extracted and opened with the same password, comes back. *)
Theorem studio_pipeline_round_trip (plaintext password : str) (data : bytes)
        (e : entropy) (snr_db : R) :
  utf8_encode plaintext = Ok data ->
  (length data <= 217)%nat ->
  Forall scalar_value plaintext ->
  Forall scalar_value password -> password <> [] ->
  entropy_bytes e ->
  (CRYPTO_AVAILABLE lib = true -> accepts_nonce_12 lib /\ keystream_bytes lib) ->
  exists blob bits stego,
    encrypt lib plaintext password e = Ok (blob, entropy_after e)
    /\ Studio.frame_bits blob = Ok bits
    /\ Studio.embed_in_audio snr_db
         (repeat 0 (length (Studio.modulate (spread_bits bits) 44100)))
         blob 44100 = Ok stego
    /\ Studio.extract_from_audio stego 44100 = blob
    /\ forall e',
        decrypt lib (Studio.extract_from_audio stego 44100) password e'
        = Ok (plaintext, e').
Proof.
  intros Hd Hlen Hp Hpw Hne He Hlib.
  destruct (studio_pipeline_general plaintext password data e snr_db)
    as (blob & bits & stego & Henc & Hbl & Hf & Hemb & Hex & Hdec);
    try assumption; [lia|].
  exists blob, bits, stego.
  split; [exact Henc|]. split; [exact Hf|]. split; [exact Hemb|].
  split.
  - rewrite Hex. apply firstn_all2. lia.
  - intros e'. rewrite Hdec, firstn_all2 by exact Hlen.
    rewrite (utf8_decode_encode _ _ Hd). reflexivity.
Qed.

(** X14.  A longer message is cut without notice: for an ASCII plaintext of
    more than 217 characters the same steps return its first 217
    characters, the extractor having handed over the first 256 bytes of the
    blob only. *)
Theorem studio_pipeline_truncates (plaintext password : str)
        (e : entropy) (snr_db : R) :
  Forall (fun c => 0 <= c < 128)%Z plaintext ->
  (217 < length plaintext)%nat ->
  (Z.of_nat (length plaintext) < 4294967000)%Z ->
  Forall scalar_value password -> password <> [] ->
  entropy_bytes e ->
  (CRYPTO_AVAILABLE lib = true -> accepts_nonce_12 lib /\ keystream_bytes lib) ->
  exists blob bits stego,
    encrypt lib plaintext password e = Ok (blob, entropy_after e)
    /\ Studio.frame_bits blob = Ok bits
    /\ Studio.embed_in_audio snr_db
         (repeat 0 (length (Studio.modulate (spread_bits bits) 44100)))
         blob 44100 = Ok stego
    /\ Studio.extract_from_audio stego 44100 = firstn 256 blob
    /\ length (Studio.extract_from_audio stego 44100) = 256%nat
    /\ forall e',
        decrypt lib (Studio.extract_from_audio stego 44100) password e'
        = Ok (firstn 217 plaintext, e').
Proof.
  intros Hascii Hlong Hlen Hpw Hne He Hlib.
  destruct (utf8_ascii plaintext Hascii) as (Henc8 & _).
  assert (Hp : Forall scalar_value plaintext).
  { revert Hascii. apply Forall_impl. intros c Hc. split; [lia|].
    unfold is_surrogate. destruct (Z.leb_spec 55296 c); [lia|reflexivity]. }
  destruct (studio_pipeline_general plaintext password plaintext e snr_db)
    as (blob & bits & stego & Henc & Hbl & Hf & Hemb & Hex & Hdec);
    try assumption.
  exists blob, bits, stego.
  split; [exact Henc|]. split; [exact Hf|]. split; [exact Hemb|].
  split; [exact Hex|]. split.
  - rewrite Hex, length_firstn, Hbl. lia.
  - intros e'. rewrite Hdec.
    destruct (utf8_ascii (firstn 217 plaintext)) as (_ & ->);
      [apply Forall_firstn; exact Hascii|reflexivity].
Qed.

(** X15.  Nothing authenticates the ciphertext: XOR-ing any bytes [delta]
    into the ciphertext of a sealed blob XORs the same bytes into what
    [decrypt] decodes, and no check notices. *)
Theorem decrypt_is_malleable (plaintext password : str) (e : entropy) :
  Forall scalar_value plaintext ->
  Forall scalar_value password -> password <> [] ->
  (CRYPTO_AVAILABLE lib = true -> accepts_nonce_12 lib) ->
  exists data ct,
    utf8_encode plaintext = Ok data
    /\ encrypt lib plaintext password e
       = Ok (MAGIC_HEADER ++ salt_of e ++ nonce_of e ++ ct, entropy_after e)
    /\ forall delta e',
        length delta = length ct ->
        decrypt lib (MAGIC_HEADER ++ salt_of e ++ nonce_of e
                       ++ xor_bytes ct delta) password e'
        = (s <- utf8_decode (xor_bytes data delta) ;; Ok (s, e')).
Proof.
  intros Hp Hpw Hne Hacc.
  destruct (encrypt_returns lib plaintext password e Hp Hpw)
    as (key & data & ct & Hk & Hd & Hct & Hl & Henc).
  { intros _ E. contradiction. }
  { exact Hacc. }
  exists data, ct. split; [exact Hd|]. split; [exact Henc|].
  intros delta e' Hdl.
  rewrite decrypt_parsed by reflexivity.
  rewrite (derive_key_entropy lib _ _ _ _ e' Hk). cbn [bind]. cbv iota beta.
  destruct (CRYPTO_AVAILABLE lib); cbn [negb].
  - destruct Hct as (keystream & -> & ->).
    rewrite xor_with_stream_xor_bytes by exact Hdl.
    rewrite xor_with_stream_involutive. reflexivity.
  - apply xor_with_key_involutive in Hct.
    rewrite (xor_with_key_xor_bytes key 0 ct data delta Hct Hdl).
    reflexivity.
Qed.

(** X16.  Without the package the salt and the nonce do nothing: the
    ciphertext that [encrypt] makes of a plaintext under a password is the
    same whatever the entropy, and [decrypt] returns the same whatever 16
    and 12 bytes stand in the salt and nonce fields. *)
Theorem fallback_ignores_salt_and_nonce (plaintext password : str)
        (e1 e2 : entropy) :
  CRYPTO_AVAILABLE lib = false ->
  Forall scalar_value plaintext ->
  Forall scalar_value password -> password <> [] ->
  exists ct,
    encrypt lib plaintext password e1
    = Ok (MAGIC_HEADER ++ salt_of e1 ++ nonce_of e1 ++ ct, entropy_after e1)
    /\ encrypt lib plaintext password e2
       = Ok (MAGIC_HEADER ++ salt_of e2 ++ nonce_of e2 ++ ct, entropy_after e2)
    /\ forall salt nonce e',
        length salt = 16%nat -> length nonce = 12%nat ->
        decrypt lib (MAGIC_HEADER ++ salt ++ nonce ++ ct) password e'
        = Ok (plaintext, e').
Proof.
  intros Hav Hp Hpw Hne.
  destruct (encrypt_returns lib plaintext password e1 Hp Hpw)
    as (key1 & data1 & ct1 & Hk1 & Hd1 & Hct1 & _ & Henc1).
  { intros _ E. contradiction. }
  { rewrite Hav. discriminate. }
  destruct (encrypt_returns lib plaintext password e2 Hp Hpw)
    as (key2 & data2 & ct2 & Hk2 & Hd2 & Hct2 & _ & Henc2).
  { intros _ E. contradiction. }
  { rewrite Hav. discriminate. }
  assert (data2 = data1) by congruence. subst data2.
  rewrite Hav in Hct1, Hct2.
  assert (Hkey : forall salt e0 key,
             derive_key lib password (Some salt) e0 = Ok (key, salt, e0) ->
             utf8_encode (firstn 32 (str_repeat password 32)) = Ok key).
  { intros salt e0 key. rewrite derive_key_salt, Hav. cbn [negb].
    destruct (utf8_encode (firstn 32 (str_repeat password 32))) as [k|];
      cbn [bind]; [|discriminate].
    intros H. apply Ok_inj in H. congruence. }
  pose proof (Hkey _ _ _ Hk1) as E1. pose proof (Hkey _ _ _ Hk2) as E2.
  assert (key2 = key1) by congruence. subst key2.
  assert (ct2 = ct1) by congruence. subst ct2.
  exists ct1. split; [exact Henc1|]. split; [exact Henc2|].
  intros salt nonce e' Hs Hn.
  rewrite decrypt_parsed by assumption.
  rewrite derive_key_salt, Hav. cbn [negb]. rewrite E1. cbn [bind].
  rewrite (xor_with_key_involutive _ _ _ _ Hct1). cbn [bind].
  rewrite (utf8_decode_encode _ _ Hd1). reflexivity.
Qed.

End EnvelopeThroughAudio.

Section EnvelopeExamples.
Open Scope R_scope.

Lemma counting_entropy_bytes : entropy_bytes counting_entropy.
Proof.
  intros i. unfold is_byte, counting_entropy. apply Z.mod_pos_bound. lia.
Qed.

Lemma toy_cryptography_keystream_bytes : keystream_bytes toy_cryptography.
Proof.
  intros key nonce keystream i. cbn [toy_cryptography ChaCha20].
  destruct (length nonce =? 12)%nat; [|discriminate].
  intros H. injection H as <-. unfold is_byte. apply Z.mod_pos_bound. lia.
Qed.

Lemma ascii_scalar_values (s : str) :
  Forall (fun c => 0 <= c < 128)%Z s -> Forall scalar_value s.
Proof.
  apply Forall_impl. intros c Hc. split; [lia|].
  unfold is_surrogate. destruct (Z.leb_spec 55296 c); [lia|reflexivity].
Qed.

Lemma Forall_repeat_any {A : Type} (P : A -> Prop) (x : A) (n : nat) :
  P x -> Forall P (repeat x n).
Proof. intros H. induction n; cbn [repeat]; constructor; assumption. Qed.

Lemma studio_pipeline_round_trip_witness :
  exists blob bits stego,
    encrypt toy_cryptography [104; 105]%Z [107]%Z counting_entropy
    = Ok (blob, entropy_after counting_entropy)
    /\ Studio.frame_bits blob = Ok bits
    /\ Studio.embed_in_audio (-20)
         (repeat 0 (length (Studio.modulate (spread_bits bits) 44100)))
         blob 44100 = Ok stego
    /\ Studio.extract_from_audio stego 44100 = blob
    /\ forall e',
        decrypt toy_cryptography (Studio.extract_from_audio stego 44100)
          [107]%Z e'
        = Ok ([104; 105]%Z, e').
Proof.
  apply (studio_pipeline_round_trip toy_cryptography [104; 105]%Z [107]%Z
           [104; 105]%Z counting_entropy (-20)).
  - reflexivity.
  - simpl. lia.
  - apply ascii_scalar_values.
    repeat (apply Forall_cons; [lia|]). apply Forall_nil.
  - apply ascii_scalar_values.
    repeat (apply Forall_cons; [lia|]). apply Forall_nil.
  - discriminate.
  - exact counting_entropy_bytes.
  - intros _. split; [exact toy_cryptography_accepts
                     |exact toy_cryptography_keystream_bytes].
Defined.

Lemma studio_pipeline_truncates_witness :
  exists blob bits stego,
    encrypt no_cryptography (repeat 65%Z 218) [107]%Z counting_entropy
    = Ok (blob, entropy_after counting_entropy)
    /\ Studio.frame_bits blob = Ok bits
    /\ Studio.embed_in_audio (-20)
         (repeat 0 (length (Studio.modulate (spread_bits bits) 44100)))
         blob 44100 = Ok stego
    /\ Studio.extract_from_audio stego 44100 = firstn 256 blob
    /\ length (Studio.extract_from_audio stego 44100) = 256%nat
    /\ forall e',
        decrypt no_cryptography (Studio.extract_from_audio stego 44100)
          [107]%Z e'
        = Ok (firstn 217 (repeat 65%Z 218), e').
Proof.
  apply (studio_pipeline_truncates no_cryptography (repeat 65%Z 218) [107]%Z
           counting_entropy (-20)).
  - apply Forall_repeat_any. lia.
  - rewrite repeat_length. lia.
  - rewrite repeat_length. lia.
  - apply ascii_scalar_values.
    repeat (apply Forall_cons; [lia|]). apply Forall_nil.
  - discriminate.
  - exact counting_entropy_bytes.
  - discriminate.
Defined.

Lemma decrypt_is_malleable_witness :
  exists data ct,
    utf8_encode [104; 105]%Z = Ok data
    /\ encrypt toy_cryptography [104; 105]%Z [107]%Z counting_entropy
       = Ok (MAGIC_HEADER ++ salt_of counting_entropy
               ++ nonce_of counting_entropy ++ ct,
             entropy_after counting_entropy)
    /\ forall delta e',
        length delta = length ct ->
        decrypt toy_cryptography
          (MAGIC_HEADER ++ salt_of counting_entropy
             ++ nonce_of counting_entropy ++ xor_bytes ct delta) [107]%Z e'
        = (s <- utf8_decode (xor_bytes data delta) ;; Ok (s, e')).
Proof.
  apply (decrypt_is_malleable toy_cryptography [104; 105]%Z [107]%Z
           counting_entropy).
  - apply ascii_scalar_values.
    repeat (apply Forall_cons; [lia|]). apply Forall_nil.
  - apply ascii_scalar_values.
    repeat (apply Forall_cons; [lia|]). apply Forall_nil.
  - discriminate.
  - intros _. exact toy_cryptography_accepts.
Defined.

Lemma fallback_ignores_salt_and_nonce_witness :
  exists ct,
    encrypt no_cryptography [104; 105]%Z [107]%Z counting_entropy
    = Ok (MAGIC_HEADER ++ salt_of counting_entropy
            ++ nonce_of counting_entropy ++ ct,
          entropy_after counting_entropy)
    /\ encrypt no_cryptography [104; 105]%Z [107]%Z (fun _ => 7%Z)
       = Ok (MAGIC_HEADER ++ salt_of (fun _ => 7%Z)
               ++ nonce_of (fun _ => 7%Z) ++ ct,
             entropy_after (fun _ => 7%Z))
    /\ forall salt nonce e',
        length salt = 16%nat -> length nonce = 12%nat ->
        decrypt no_cryptography (MAGIC_HEADER ++ salt ++ nonce ++ ct)
          [107]%Z e'
        = Ok ([104; 105]%Z, e').
Proof.
  apply (fallback_ignores_salt_and_nonce no_cryptography [104; 105]%Z [107]%Z
           counting_entropy (fun _ => 7%Z)).
  - reflexivity.
  - apply ascii_scalar_values.
    repeat (apply Forall_cons; [lia|]). apply Forall_nil.
  - apply ascii_scalar_values.
    repeat (apply Forall_cons; [lia|]). apply Forall_nil.
  - discriminate.
Defined.

End EnvelopeExamples.

(* ------------------------------------------------------------------ *)
(** ** The commander's packets and the receiver's engine *)

Section CommandPackets.
Open Scope Z_scope.

Lemma packet_header_scalar (target_unit priority : str) :
  Forall scalar_value target_unit -> Forall scalar_value priority ->
  Forall scalar_value (Commander.packet_header target_unit priority).
Proof.
  intros Ht Hp. unfold Commander.packet_header.
  assert (Hc : forall c, 0 <= c < 128 -> scalar_value c).
  { intros c Hc. split; [lia|]. unfold is_surrogate.
    destruct (Z.leb_spec 55296 c); [lia|reflexivity]. }
  repeat (apply Forall_cons; [apply Hc; lia|]); cbn [app].
  apply Forall_app. split; [exact Ht|].
  apply Forall_cons; [apply Hc; lia|].
  apply Forall_app. split; [exact Hp|].
  apply Forall_cons; [apply Hc; lia|]. apply Forall_nil.
Qed.

(** What [encrypt_packet] does on strings that can be encoded. *)
Lemma encrypt_packet_outcome (lib : crypto_backend)
      (self : Commander.EncryptionCore)
      (plaintext target_unit priority : str) (e : entropy) :
  Forall scalar_value plaintext ->
  Forall scalar_value target_unit -> Forall scalar_value priority ->
  exists blob e',
    Commander.encrypt_packet lib self plaintext target_unit priority e
    = (Ok blob, {| Commander.session_count :=
                     S (Commander.session_count self) |}, e')
    /\ utf8_encode (Commander.packet_header target_unit priority ++ plaintext)
       = Ok blob
    /\ (6 <= length blob)%nat.
Proof.
  intros Hm Ht Hp.
  pose proof (packet_header_scalar _ _ Ht Hp) as Hh.
  destruct (utf8_encode_scalar _ Hh) as (header & Eh & _).
  destruct (utf8_encode_scalar _ Hm) as (payload & Em & _).
  assert (Hblob : utf8_encode
                    (Commander.packet_header target_unit priority ++ plaintext)
                  = Ok (header ++ payload)).
  { rewrite (utf8_encode_app _ _ _ _ Eh Em). reflexivity. }
  assert (Hlen : (6 <= length (header ++ payload))%nat).
  { rewrite length_app.
    destruct (utf8_encode_bytes _ _ Eh) as (_ & Hl & _).
    unfold Commander.packet_header in Hl. rewrite !length_app in Hl.
    cbn [length] in Hl. lia. }
  unfold Commander.encrypt_packet. rewrite Eh, Em.
  destruct (CRYPTO_AVAILABLE lib); cbn [negb].
  - cbv zeta. destruct (os_urandom 32 e) as [session_key e1].
    destruct (os_urandom 12 e1) as [nonce e2].
    destruct (ChaCha20 lib session_key nonce);
      exists (header ++ payload), e2; (split; [reflexivity|]);
      (split; [exact Hblob|exact Hlen]).
  - exists (header ++ payload), e.
    split; [reflexivity|]. split; [exact Hblob|exact Hlen].
Qed.

(** X17.  [encrypt_packet] encrypts nothing: with or without the package,
    and whether or not the cipher can be built, the packet it returns is the
    UTF-8 encoding of "CMD:target:priority:" followed by the plaintext, so
    that decoding the packet gives the order in clear; the session count goes
    up by one. *)
Theorem encrypt_packet_in_clear (lib : crypto_backend)
        (self : Commander.EncryptionCore)
        (plaintext target_unit priority : str) (e : entropy) :
  Forall scalar_value plaintext ->
  Forall scalar_value target_unit -> Forall scalar_value priority ->
  exists blob e',
    Commander.encrypt_packet lib self plaintext target_unit priority e
    = (Ok blob, {| Commander.session_count :=
                     S (Commander.session_count self) |}, e')
    /\ utf8_decode blob
       = Ok ([67; 77; 68; 58] ++ target_unit ++ [58] ++ priority ++ [58]
               ++ plaintext).
Proof.
  intros Hm Ht Hp.
  destruct (encrypt_packet_outcome lib self plaintext target_unit priority e
              Hm Ht Hp) as (blob & e' & Hret & Hblob & _).
  exists blob, e'. split; [exact Hret|].
  rewrite (utf8_decode_encode _ _ Hblob). unfold Commander.packet_header.
  rewrite <- !app_assoc. reflexivity.
Qed.

(** X18.  Steps 1 and 2 of [send_order] always give audio, also for an
    empty message: the packet is never empty, so the masker's division by
    the peak of nothing cannot happen; the audio has 8 x 31 x 44 samples per
    packet byte, more than the 512 that the spectrum display asks for, none
    above 0.95 in magnitude. *)
Theorem send_order_audio_returns (lib : crypto_backend)
        (crypto : Commander.EncryptionCore) (z : nat -> R)
        (message target priority : str) (e : entropy) :
  Forall scalar_value message ->
  Forall scalar_value target -> Forall scalar_value priority ->
  exists audio_packet crypto' e',
    Commander.send_order_audio lib crypto z message target priority e
    = (Ok audio_packet, crypto', e')
    /\ (512 < length audio_packet)%nat
    /\ (length audio_packet
        >= (6 + length message + length target + length priority)
           * 8 * 31 * 44)%nat
    /\ Forall (fun x => (Rabs x <= 0.95)%R) audio_packet.
Proof.
  intros Hm Ht Hp.
  destruct (encrypt_packet_outcome lib crypto message target priority e
              Hm Ht Hp) as (blob & e' & Hret & Hblob & Hlen).
  unfold Commander.send_order_audio. rewrite Hret.
  unfold Masker.generate_masked_audio, Masker._bytes_to_bits,
    Masker._spread_bits. cbv zeta.
  destruct (apply_noise_masking_outcome (Masker.init (-20) CARRIER_FREQ) z
              (Masker._modulate_signal (Masker.init (-20) CARRIER_FREQ)
                 (spread_bits (bytes_to_bits blob))))
    as (masked & Hmask & Hl & Hb).
  - intros E. apply (f_equal (@length R)) in E.
    rewrite masker_payload_samples in E. cbn [length] in E. lia.
  - rewrite masker_payload_samples in Hl.
    exists masked, {| Commander.session_count :=
                        S (Commander.session_count crypto) |}, e'.
    split; [rewrite Hmask; reflexivity|].
    split; [lia|]. split; [|exact Hb].
    destruct (utf8_encode_bytes _ _ Hblob) as (_ & Hlb & _).
    unfold Commander.packet_header in Hlb. rewrite !length_app in Hlb.
    cbn [length] in Hlb. nia.
Qed.

End CommandPackets.

Section CommandPacketExamples.

Lemma encrypt_packet_in_clear_witness :
  exists blob e',
    Commander.encrypt_packet toy_cryptography
      {| Commander.session_count := 0 |} [71; 79]%Z [65; 76; 76]%Z
      [70; 76; 65; 83; 72]%Z counting_entropy
    = (Ok blob, {| Commander.session_count := 1 |}, e')
    /\ utf8_decode blob
       = Ok ([67; 77; 68; 58] ++ [65; 76; 76] ++ [58] ++ [70; 76; 65; 83; 72]
               ++ [58] ++ [71; 79])%Z.
Proof.
  apply (encrypt_packet_in_clear toy_cryptography
           {| Commander.session_count := 0 |} [71; 79]%Z [65; 76; 76]%Z
           [70; 76; 65; 83; 72]%Z counting_entropy);
    apply ascii_scalar_values;
    repeat (apply Forall_cons; [lia|]); apply Forall_nil.
Defined.

Lemma send_order_audio_returns_witness :
  exists audio_packet crypto' e',
    Commander.send_order_audio no_cryptography
      {| Commander.session_count := 0 |} (fun _ => 1%R) []
      [65; 76; 76]%Z [70; 76; 65; 83; 72]%Z counting_entropy
    = (Ok audio_packet, crypto', e')
    /\ (512 < length audio_packet)%nat
    /\ (length audio_packet
        >= (6 + length (@nil Z) + length [65; 76; 76]%Z
            + length [70; 76; 65; 83; 72]%Z) * 8 * 31 * 44)%nat
    /\ Forall (fun x => (Rabs x <= 0.95)%R) audio_packet.
Proof.
  apply (send_order_audio_returns no_cryptography
           {| Commander.session_count := 0 |} (fun _ => 1%R) []
           [65; 76; 76]%Z [70; 76; 65; 83; 72]%Z counting_entropy);
    apply ascii_scalar_values;
    repeat (apply Forall_cons; [lia|]); apply Forall_nil.
Defined.

End CommandPacketExamples.

(* ------------------------------------------------------------------ *)
(** ** The receiver's engine *)

Section ReceiverEngine.
Open Scope Z_scope.

(** Whether the receiver has the package, and its lenient decoder. *)
Variable has_package : bool.
Variable utf8_decode_ignore : bytes -> str.


(** No call changes a burned engine. *)
Lemma run_call_burned (self : Receiver.CryptoEngine) (c : Receiver.call) :
  Receiver.is_burned self = true ->
  Receiver.private_key self = repeat 0 32 ->
  Receiver.session_key self = None ->
  Receiver.run_call has_package utf8_decode_ignore self c
  = {| Receiver.private_key := repeat 0 32;
       Receiver.session_key := None;
       Receiver.is_burned := true;
       Receiver.messages_decrypted := Receiver.messages_decrypted self |}.
Proof.
  intros Hb Hk Hs. destruct self as [k s b n]. cbn in Hb, Hk, Hs. subst.
  destruct c; reflexivity.
Qed.

(** X19.  Burning is final.  After [burn_keys], whatever calls follow
    (decrypting, verifying, burning again, asking the status), the private
    key stays 32 zero bytes, the count of decrypted messages stays what it
    was, every [decrypt_payload] refuses with "KEYS BURNED - CANNOT
    DECRYPT", every signature is rejected and the status is "BURNED". *)
Theorem burn_keys_is_final (self : Receiver.CryptoEngine)
        (calls : list Receiver.call) :
  let burned :=
    fold_left (Receiver.run_call has_package utf8_decode_ignore) calls
      (snd (Receiver.burn_keys self)) in
  Receiver.is_burned burned = true
  /\ Receiver.private_key burned = repeat 0 32
  /\ Receiver.session_key burned = None
  /\ Receiver.messages_decrypted burned = Receiver.messages_decrypted self
  /\ (forall encrypted_blob,
         Receiver.decrypt_payload has_package utf8_decode_ignore burned
           encrypted_blob
         = (None, Receiver.KEYS_BURNED, Receiver.PRIORITY_ROUTINE, burned))
  /\ (forall message signature,
         Receiver.verify_signature burned message signature = false)
  /\ Receiver.get_status burned = [66; 85; 82; 78; 69; 68].
Proof.
  cbv zeta.
  assert (H : fold_left (Receiver.run_call has_package utf8_decode_ignore)
                calls (snd (Receiver.burn_keys self))
              = snd (Receiver.burn_keys self)).
  { cbn [Receiver.burn_keys snd].
    induction calls as [|c calls IH]; [reflexivity|].
    cbn [fold_left]. rewrite run_call_burned by reflexivity. exact IH. }
  rewrite H. cbn [Receiver.burn_keys snd].
  repeat split.
Qed.

Lemma split_max_0 (sep : Z) (s : str) : Receiver.split_max sep 0 s = [s].
Proof.
  induction s as [|c s IH]; [reflexivity|].
  cbn [Receiver.split_max]. rewrite IH. reflexivity.
Qed.

(** A field without the separator is split off whole. *)
Lemma split_max_field (sep : Z) (n : nat) (a rest : str) :
  ~ In sep a ->
  Receiver.split_max sep (S n) (a ++ sep :: rest)
  = a :: Receiver.split_max sep n rest.
Proof.
  induction a as [|x a IH]; intros Hin.
  - cbn [app Receiver.split_max]. rewrite Z.eqb_refl. reflexivity.
  - cbn [app Receiver.split_max].
    destruct (Z.eqb_spec x sep) as [E|E]; [exfalso; apply Hin; left; exact E|].
    rewrite IH by (intros H; apply Hin; right; exact H). reflexivity.
Qed.

Lemma str_eqb_eq (a b : str) : Receiver.str_eqb a b = true <-> a = b.
Proof.
  revert b. induction a as [|x a IH]; intros [|y b]; cbn [Receiver.str_eqb];
    try (split; [discriminate|congruence]); [split; reflexivity|].
  rewrite andb_true_iff, Z.eqb_eq, IH. split.
  - intros (-> & ->). reflexivity.
  - intros E. injection E as -> ->. split; reflexivity.
Qed.

Lemma priority_known (p : str) :
  existsb (Receiver.str_eqb p) Receiver.PRIORITY_COLORS_keys = true
  <-> In p Receiver.PRIORITY_COLORS_keys.
Proof.
  rewrite existsb_exists. split.
  - intros (q & Hq & E). apply str_eqb_eq in E. subst q. exact Hq.
  - intros H. exists p. split; [exact H|]. apply str_eqb_eq. reflexivity.
Qed.

(** What the engine reads from a decoded text of four fields. *)
Lemma decrypt_payload_fields (self : Receiver.CryptoEngine)
      (blob : bytes) (target priority message : str) :
  has_package = true ->
  Receiver.is_burned self = false ->
  utf8_decode blob
  = Ok ([67; 77; 68; 58] ++ target ++ [58] ++ priority ++ [58] ++ message) ->
  ~ In 58 target -> ~ In 58 priority ->
  Receiver.decrypt_payload has_package utf8_decode_ignore self blob
  = (Some message, Receiver.VERIFIED,
     (if existsb (Receiver.str_eqb priority) Receiver.PRIORITY_COLORS_keys
      then priority else Receiver.PRIORITY_ROUTINE),
     Receiver.count_message self).
Proof.
  intros Hav Hb Hd Ht Hp.
  unfold Receiver.decrypt_payload.
  rewrite Hb, Hav, Hd. cbn [negb]. rewrite startswith_app.
  change ([67; 77; 68; 58] ++ target ++ [58] ++ priority ++ [58] ++ message)
    with ([67; 77; 68] ++ 58 :: target ++ 58 :: priority ++ 58 :: message).
  rewrite split_max_field by (cbn; intros [H|[H|[H|[]]]]; discriminate).
  rewrite split_max_field by exact Ht.
  rewrite split_max_field by exact Hp.
  rewrite split_max_0. reflexivity.
Qed.

(** X20.  An unburned receiver that has the package reads back what the
    commander packed: for a target and a priority without a colon, the
    message (colons and all), marked "VERIFIED", with the priority if it is
    one of FLASH, IMMEDIATE, PRIORITY, ROUTINE and ROUTINE otherwise; the
    count of decrypted messages goes up by one. *)
Theorem receiver_reads_commander_packet (lib : crypto_backend)
        (core core' : Commander.EncryptionCore) (self : Receiver.CryptoEngine)
        (plaintext target priority : str) (blob : bytes) (e e' : entropy) :
  has_package = true ->
  Receiver.is_burned self = false ->
  ~ In 58 target -> ~ In 58 priority ->
  Commander.encrypt_packet lib core plaintext target priority e
  = (Ok blob, core', e') ->
  exists shown,
    Receiver.decrypt_payload has_package utf8_decode_ignore self blob
    = (Some plaintext, Receiver.VERIFIED, shown, Receiver.count_message self)
    /\ (In priority Receiver.PRIORITY_COLORS_keys -> shown = priority)
    /\ (~ In priority Receiver.PRIORITY_COLORS_keys ->
        shown = Receiver.PRIORITY_ROUTINE).
Proof.
  intros Hav Hb Ht Hp Hpacket.
  assert (Hd : utf8_decode blob
               = Ok ([67; 77; 68; 58] ++ target ++ [58] ++ priority ++ [58]
                       ++ plaintext)).
  { revert Hpacket. unfold Commander.encrypt_packet.
    destruct (utf8_encode (Commander.packet_header target priority))
      as [header|] eqn:Eh; [|discriminate].
    destruct (utf8_encode plaintext) as [payload|] eqn:Em; [|discriminate].
    pose proof (utf8_encode_app _ _ _ _ Eh Em) as Happ.
    apply utf8_decode_encode in Happ.
    unfold Commander.packet_header in Happ. rewrite <- !app_assoc in Happ.
    destruct (negb (CRYPTO_AVAILABLE lib)).
    - intros H. injection H as <- _ _. exact Happ.
    - cbv zeta. destruct (os_urandom 32 e) as [session_key e1].
      destruct (os_urandom 12 e1) as [nonce e2].
      destruct (ChaCha20 lib session_key nonce);
        intros H; injection H as <- _ _; exact Happ. }
  eexists. split.
  - apply (decrypt_payload_fields self blob target priority plaintext);
      assumption.
  - split.
    + intros Hin. apply priority_known in Hin. rewrite Hin. reflexivity.
    + intros Hin.
      destruct (existsb _ _) eqn:E; [|reflexivity].
      apply priority_known in E. contradiction.
Qed.

(** X21.  A colon in the target shifts the fields: for a target
    [t1:t2] the receiver takes [t2] for the priority and shows the
    commander's priority, a colon and the message as the message. *)
Theorem target_with_colon_shifts_fields (lib : crypto_backend)
        (core core' : Commander.EncryptionCore) (self : Receiver.CryptoEngine)
        (plaintext t1 t2 priority : str) (blob : bytes) (e e' : entropy) :
  has_package = true ->
  Receiver.is_burned self = false ->
  ~ In 58 t1 -> ~ In 58 t2 ->
  Commander.encrypt_packet lib core plaintext (t1 ++ [58] ++ t2) priority e
  = (Ok blob, core', e') ->
  exists shown,
    Receiver.decrypt_payload has_package utf8_decode_ignore self blob
    = (Some (priority ++ [58] ++ plaintext), Receiver.VERIFIED, shown,
       Receiver.count_message self)
    /\ (In t2 Receiver.PRIORITY_COLORS_keys -> shown = t2)
    /\ (~ In t2 Receiver.PRIORITY_COLORS_keys ->
        shown = Receiver.PRIORITY_ROUTINE).
Proof.
  intros Hav Hb Ht1 Ht2 Hpacket.
  assert (Hd : utf8_decode blob
               = Ok ([67; 77; 68; 58] ++ t1 ++ [58] ++ t2 ++ [58]
                       ++ (priority ++ [58] ++ plaintext))).
  { revert Hpacket. unfold Commander.encrypt_packet.
    destruct (utf8_encode (Commander.packet_header (t1 ++ [58] ++ t2) priority))
      as [header|] eqn:Eh; [|discriminate].
    destruct (utf8_encode plaintext) as [payload|] eqn:Em; [|discriminate].
    pose proof (utf8_encode_app _ _ _ _ Eh Em) as Happ.
    apply utf8_decode_encode in Happ.
    unfold Commander.packet_header in Happ. rewrite <- !app_assoc in Happ.
    destruct (negb (CRYPTO_AVAILABLE lib)).
    - intros H. injection H as <- _ _. exact Happ.
    - cbv zeta. destruct (os_urandom 32 e) as [session_key e1].
      destruct (os_urandom 12 e1) as [nonce e2].
      destruct (ChaCha20 lib session_key nonce);
        intros H; injection H as <- _ _; exact Happ. }
  eexists. split.
  - apply (decrypt_payload_fields self blob t1 t2 (priority ++ [58] ++ plaintext));
      assumption.
  - split.
    + intros Hin. apply priority_known in Hin. rewrite Hin. reflexivity.
    + intros Hin.
      destruct (existsb _ _) eqn:E; [|reflexivity].
      apply priority_known in E. contradiction.
Qed.

End ReceiverEngine.

Section ReceiverExamples.
Open Scope Z_scope.

Lemma receiver_reads_commander_packet_witness :
  exists shown,
    Receiver.decrypt_payload true (fun b => b) Receiver.init
      [67; 77; 68; 58; 65; 76; 76; 58; 70; 76; 65; 83; 72; 58; 71; 58; 79]
    = (Some [71; 58; 79], Receiver.VERIFIED, shown,
       Receiver.count_message Receiver.init)
    /\ (In [70; 76; 65; 83; 72] Receiver.PRIORITY_COLORS_keys ->
        shown = [70; 76; 65; 83; 72])
    /\ (~ In [70; 76; 65; 83; 72] Receiver.PRIORITY_COLORS_keys ->
        shown = Receiver.PRIORITY_ROUTINE).
Proof.
  apply (receiver_reads_commander_packet true (fun b => b) no_cryptography
           {| Commander.session_count := 0 |}
           {| Commander.session_count := 1 |} Receiver.init
           [71; 58; 79] [65; 76; 76] [70; 76; 65; 83; 72]
           [67; 77; 68; 58; 65; 76; 76; 58; 70; 76; 65; 83; 72; 58; 71; 58; 79]
           counting_entropy counting_entropy).
  - reflexivity.
  - reflexivity.
  - intros H. repeat (destruct H as [H|H]; [discriminate|]). exact H.
  - intros H. repeat (destruct H as [H|H]; [discriminate|]). exact H.
  - reflexivity.
Defined.

Lemma target_with_colon_shifts_fields_witness :
  exists shown,
    Receiver.decrypt_payload true (fun b => b) Receiver.init
      [67; 77; 68; 58; 65; 58; 66; 58; 70; 76; 65; 83; 72; 58; 71; 79]
    = (Some ([70; 76; 65; 83; 72] ++ [58] ++ [71; 79]), Receiver.VERIFIED,
       shown, Receiver.count_message Receiver.init)
    /\ (In [66] Receiver.PRIORITY_COLORS_keys -> shown = [66])
    /\ (~ In [66] Receiver.PRIORITY_COLORS_keys ->
        shown = Receiver.PRIORITY_ROUTINE).
Proof.
  apply (target_with_colon_shifts_fields true (fun b => b) no_cryptography
           {| Commander.session_count := 0 |}
           {| Commander.session_count := 1 |} Receiver.init
           [71; 79] [65] [66] [70; 76; 65; 83; 72]
           [67; 77; 68; 58; 65; 58; 66; 58; 70; 76; 65; 83; 72; 58; 71; 79]
           counting_entropy counting_entropy).
  - reflexivity.
  - reflexivity.
  - intros H. repeat (destruct H as [H|H]; [discriminate|]). exact H.
  - intros H. repeat (destruct H as [H|H]; [discriminate|]). exact H.
  - reflexivity.
Defined.

End ReceiverExamples.

(* ------------------------------------------------------------------ *)
(** ** WAV files *)

Section CastFacts.
Open Scope R_scope.

Lemma trunc_nonneg (x : R) :
  0 <= x -> IZR (Wav.trunc x) <= x < IZR (Wav.trunc x) + 1.
Proof.
  intros H. unfold Wav.trunc. destruct (Rle_dec 0 x) as [_|N]; [|contradiction].
  destruct (base_Int_part x) as (H1 & H2). lra.
Qed.

Lemma trunc_neg (x : R) :
  x < 0 -> x <= IZR (Wav.trunc x) < x + 1.
Proof.
  intros H. unfold Wav.trunc. destruct (Rle_dec 0 x) as [P|_]; [lra|].
  rewrite opp_IZR. destruct (base_Int_part (- x)) as (H1 & H2). lra.
Qed.

Lemma trunc_0 : Wav.trunc 0 = 0%Z.
Proof.
  destruct (trunc_nonneg 0 (Rle_refl 0)) as (H1 & H2).
  assert (-1 < Wav.trunc 0 < 1)%Z; [|lia].
  split; apply lt_IZR; lra.
Qed.

(** Dropping the fraction moves a value towards 0 by less than 1. *)
Lemma trunc_error (x : R) :
  Rabs (IZR (Wav.trunc x) - x) < 1 /\ Rabs (IZR (Wav.trunc x)) <= Rabs x.
Proof.
  destruct (Rle_lt_dec 0 x) as [H|H].
  - destruct (trunc_nonneg x H) as (H1 & H2).
    assert (0 <= IZR (Wav.trunc x)).
    { apply IZR_le. apply Z.lt_succ_r. apply lt_IZR. rewrite succ_IZR. lra. }
    split.
    + apply Rabs_def1; lra.
    + rewrite !Rabs_right by lra. exact H1.
  - destruct (trunc_neg x H) as (H1 & H2).
    assert (IZR (Wav.trunc x) <= 0).
    { apply IZR_le. apply Z.lt_succ_r. apply lt_IZR. rewrite succ_IZR. lra. }
    split.
    + apply Rabs_def1; lra.
    + rewrite (Rabs_left x) by lra.
      destruct (Req_dec (IZR (Wav.trunc x)) 0) as [E|E].
      * rewrite E, Rabs_R0. lra.
      * rewrite Rabs_left by lra. lra.
Qed.

(** A value between two whole numbers stays between them. *)
Lemma trunc_range (x : R) (b : Z) :
  Rabs x <= IZR b -> (- b <= Wav.trunc x <= b)%Z.
Proof.
  intros H. destruct (trunc_error x) as (_ & H1).
  assert (H2 : Rabs (IZR (Wav.trunc x)) <= IZR b) by lra.
  assert (H3 : - IZR b <= IZR (Wav.trunc x) <= IZR b).
  { revert H2. unfold Rabs. destruct (Rcase_abs (IZR (Wav.trunc x))); lra. }
  rewrite <- opp_IZR in H3. split; apply le_IZR; lra.
Qed.

Lemma trunc_opp (x : R) : Wav.trunc (- x) = (- Wav.trunc x)%Z.
Proof.
  destruct (Rtotal_order x 0) as [H|[H|H]].
  - unfold Wav.trunc. destruct (Rle_dec 0 (- x)) as [_|N]; [|lra].
    destruct (Rle_dec 0 x) as [P|_]; [lra|]. lia.
  - subst x. rewrite Ropp_0, trunc_0. reflexivity.
  - unfold Wav.trunc. destruct (Rle_dec 0 (- x)) as [P|_]; [lra|].
    destruct (Rle_dec 0 x) as [_|N]; [|lra]. rewrite Ropp_involutive.
    reflexivity.
Qed.

(** The whole part has the sign of the value. *)
Lemma trunc_sign (x : R) : 0 <= IZR (Wav.trunc x) * x.
Proof.
  destruct (Rle_lt_dec 0 x) as [H|H].
  - destruct (trunc_nonneg x H) as (H1 & H2).
    apply Rmult_le_pos; [|exact H].
    apply IZR_le. apply Z.lt_succ_r. apply lt_IZR. rewrite succ_IZR. lra.
  - destruct (trunc_neg x H) as (H1 & H2).
    assert (IZR (Wav.trunc x) <= 0).
    { apply IZR_le. apply Z.lt_succ_r. apply lt_IZR. rewrite succ_IZR. lra. }
    replace (IZR (Wav.trunc x) * x) with ((- IZR (Wav.trunc x)) * (- x)) by ring.
    apply Rmult_le_pos; lra.
Qed.

Lemma trunc_sign_strict (x : R) : 1 <= Rabs x -> 0 < IZR (Wav.trunc x) * x.
Proof.
  intros H. destruct (Rle_lt_dec 0 x) as [P|N].
  - rewrite Rabs_right in H by lra.
    destruct (trunc_nonneg x P) as (H1 & H2).
    assert (1 <= IZR (Wav.trunc x)).
    { assert (0 < Wav.trunc x)%Z by (apply lt_IZR; lra).
      apply (IZR_le 1). lia. }
    apply Rmult_lt_0_compat; lra.
  - rewrite Rabs_left in H by lra.
    destruct (trunc_neg x N) as (H1 & H2).
    assert (IZR (Wav.trunc x) <= -1).
    { assert (Wav.trunc x < 0)%Z by (apply lt_IZR; lra).
      apply (IZR_le _ (-1)). lia. }
    replace (IZR (Wav.trunc x) * x) with ((- IZR (Wav.trunc x)) * (- x)) by ring.
    apply Rmult_lt_0_compat; lra.
Qed.

End CastFacts.

Section SampleBytes.
Open Scope Z_scope.

Lemma int16_tobytes_bytes (v : Z) : is_bytes (Wav.int16_tobytes v).
Proof.
  unfold Wav.int16_tobytes.
  repeat (apply Forall_cons; [unfold is_byte; apply Z.mod_pos_bound; lia|]).
  apply Forall_nil.
Qed.

(** An int16 element comes back from the two bytes that store it. *)
Lemma element_int16_tobytes (v : Z) :
  Wav.is_int16 v -> Wav.element 2 true (Wav.int16_tobytes v) = v.
Proof.
  unfold Wav.is_int16. intros Hv. unfold Wav.element, Wav.int16_tobytes.
  cbn [Wav.le_value andb].
  change (2 ^ (8 * Z.of_nat 2 - 1)) with 32768.
  change (2 ^ (8 * Z.of_nat 2)) with 65536.
  assert (E : v mod 256 + 256 * ((v / 256) mod 256 + 256 * 0) = v mod 65536).
  { change 65536 with (256 * 256). rewrite Z.rem_mul_r by lia. lia. }
  rewrite E.
  destruct (Z.leb_spec 32768 (v mod 65536)) as [H|H].
  - assert (v < 0).
    { destruct (Z.lt_ge_cases v 0) as [N|P]; [exact N|].
      rewrite Z.mod_small in H by lia. lia. }
    assert (v mod 65536 = v + 65536).
    { symmetry. apply (Z.mod_unique v 65536 (-1)); lia. }
    lia.
  - destruct (Z.lt_ge_cases v 0) as [N|P].
    + assert (v mod 65536 = v + 65536).
      { symmetry. apply (Z.mod_unique v 65536 (-1)); lia. }
      lia.
    + apply Z.mod_small. lia.
Qed.

Lemma tobytes_length (a : list Z) : length (Wav.tobytes a) = (2 * length a)%nat.
Proof.
  induction a as [|v a IH]; [reflexivity|].
  cbn [Wav.tobytes flat_map length app Wav.int16_tobytes] in *.
  fold (Wav.tobytes a). rewrite IH. lia.
Qed.

Lemma tobytes_bytes (a : list Z) : is_bytes (Wav.tobytes a).
Proof.
  induction a as [|v a IH]; [constructor|].
  cbn [Wav.tobytes flat_map]. apply Forall_app. split;
    [apply int16_tobytes_bytes|exact IH].
Qed.

Lemma groups_tobytes (a : list Z) :
  Wav.groups 2 (length a) (Wav.tobytes a) = map Wav.int16_tobytes a.
Proof.
  induction a as [|v a IH]; [reflexivity|].
  change (Wav.tobytes (v :: a))
    with ((v mod 256) :: ((v / 256) mod 256) :: Wav.tobytes a).
  cbn [length Wav.groups map firstn skipn]. rewrite IH. reflexivity.
Qed.

(** [np.frombuffer] reads back the int16 array that [tobytes] wrote. *)
Lemma frombuffer_tobytes (a : list Z) :
  Forall Wav.is_int16 a ->
  Wav.frombuffer 2 true (Wav.tobytes a) = Wav.Done a.
Proof.
  intros Ha. unfold Wav.frombuffer. rewrite tobytes_length.
  replace (2 * length a)%nat with (length a * 2)%nat by lia.
  rewrite Nat.Div0.mod_mul, Nat.div_mul by lia. cbn [Nat.eqb].
  rewrite groups_tobytes, map_map. f_equal.
  rewrite <- (map_id a) at 2. apply map_ext_in. intros v Hv.
  apply element_int16_tobytes.
  rewrite Forall_forall in Ha. apply Ha. exact Hv.
Qed.

End SampleBytes.

Section WavFiles.
Open Scope R_scope.

Lemma Forall2_map_self {A B : Type} (P : A -> B -> Prop) (f : A -> B)
      (l : list A) :
  (forall x, In x l -> P x (f x)) -> Forall2 P l (map f l).
Proof.
  induction l as [|x l IH]; intros H; cbn [map]; constructor.
  - apply H. left. reflexivity.
  - apply IH. intros y Hy. apply H. right. exact Hy.
Qed.

(** Loading a mono 16-bit file whose data are the bytes of an int16
    array. *)
Lemma load_written (ints : list Z) (sample_rate : Z) :
  Forall Wav.is_int16 ints ->
  Wav.load_wav {| Wav.nchannels := 1; Wav.sampwidth := 2;
                  Wav.framerate := sample_rate;
                  Wav.audio_data := Wav.tobytes ints |}
  = Wav.Done (map (fun v => IZR v / 32767) ints, sample_rate, 1%Z).
Proof.
  intros Hi. unfold Wav.load_wav, Wav.readframes_all.
  cbn [Wav.nchannels Wav.sampwidth Wav.framerate Wav.audio_data].
  change (Z.to_nat (1 * 2)) with 2%nat.
  change (2 =? 1)%Z with false. change (2 =? 2)%Z with true.
  change (1 =? 2)%Z with false. cbv iota beta.
  assert (E : (length (Wav.tobytes ints) / 2 * 2)%nat
              = length (Wav.tobytes ints)).
  { rewrite tobytes_length.
    replace (2 * length ints)%nat with (length ints * 2)%nat by lia.
    rewrite Nat.div_mul by lia. reflexivity. }
  rewrite E, firstn_all, (frombuffer_tobytes ints Hi).
  reflexivity.
Qed.

Lemma load_quantised (f : R -> R) (audio : signal) (sample_rate : Z) :
  (forall x, In x audio -> Rabs (f x) <= 32767) ->
  Wav.load_wav {| Wav.nchannels := 1; Wav.sampwidth := 2;
                  Wav.framerate := sample_rate;
                  Wav.audio_data :=
                    Wav.tobytes (map (fun x => Wav.trunc (f x)) audio) |}
  = Wav.Done (map (fun x => IZR (Wav.trunc (f x)) / 32767) audio,
              sample_rate, 1%Z).
Proof.
  intros Hf. rewrite load_written.
  - rewrite map_map. reflexivity.
  - apply Forall_map, Forall_forall. intros x Hx.
    pose proof (trunc_range (f x) 32767 (Hf x Hx)) as H.
    unfold Wav.is_int16. lia.
Qed.

Lemma save_wav_outcome (audio : signal) (sample_rate : Z) (max_val : R) :
  np_max_abs audio = Ok max_val -> (0 < sample_rate)%Z ->
  Wav.save_wav audio sample_rate
  = Wav.Done {| Wav.nchannels := 1; Wav.sampwidth := 2;
                Wav.framerate := sample_rate;
                Wav.audio_data :=
                  Wav.tobytes
                    (map (fun x =>
                            Wav.trunc (Wav.normalised_sample max_val x * 32767))
                         audio) |}.
Proof.
  intros Hmax Hsr. unfold Wav.save_wav. rewrite Hmax.
  cbn [Wav.of_numpy Wav.wav_bind]. unfold Wav.wave_write.
  destruct (Z.leb_spec sample_rate 0) as [H|_]; [lia|].
  do 2 f_equal. f_equal. unfold Wav.astype_int16, Wav.normalised_sample.
  destruct (Rlt_dec 0 max_val); unfold vec_scale, vec_div;
    rewrite !map_map; reflexivity.
Qed.

Lemma normalised_sample_bound (audio : signal) (max_val x : R) :
  np_max_abs audio = Ok max_val -> In x audio ->
  Rabs (Wav.normalised_sample max_val x) <= 0.99.
Proof.
  intros Hmax Hx. destruct (np_max_abs_peak _ _ Hmax) as (Hb & _ & Hpos).
  rewrite Forall_forall in Hb. specialize (Hb x Hx).
  unfold Wav.normalised_sample. destruct (Rlt_dec 0 max_val) as [P|N].
  - pose proof (normalised_bound [x] max_val 0.99 P) as H.
    assert (H' : Forall (fun x => Rabs x <= 0.99)
                   (vec_scale (vec_div [x] max_val) 0.99)).
    { apply H; [lra|]. constructor; [exact Hb|constructor]. }
    inversion H' as [|? ? H1 _]. exact H1.
  - assert (Rabs x = 0) by (pose proof (Rabs_pos x); lra).
    lra.
Qed.

(** X22.  [save_wav] followed by [load_wav]: for audio that is not empty,
    a positive sample rate below 2^31 and less than 4 GiB of file (what the
    32-bit fields of the header hold), the file is mono, 16-bit, at that
    rate, with two bytes a sample, and loading it gives back the rate, one
    channel and as many samples, each within 1/32767 of the audio normalised
    to a peak of 0.99 (of the audio itself when it is all zero) and none
    above 0.99 in magnitude. *)
Theorem save_wav_load_wav (audio : signal) (sample_rate : Z) (max_val : R) :
  np_max_abs audio = Ok max_val ->
  (0 < sample_rate < 2147483648)%Z ->
  (2 * Z.of_nat (length audio) + 36 < 4294967296)%Z ->
  exists wf loaded,
    Wav.save_wav audio sample_rate = Wav.Done wf
    /\ Wav.nchannels wf = 1%Z /\ Wav.sampwidth wf = 2%Z
    /\ Wav.framerate wf = sample_rate
    /\ length (Wav.audio_data wf) = (2 * length audio)%nat
    /\ Wav.load_wav wf = Wav.Done (loaded, sample_rate, 1%Z)
    /\ Forall2 (fun x y =>
                  Rabs (y - (if Rlt_dec 0 max_val
                             then x / max_val * 0.99 else x)) < 1 / 32767
                  /\ Rabs y <= 0.99)
               audio loaded.
Proof.
  intros Hmax (Hsr & _) _.
  assert (Hq : forall x, In x audio ->
                 Rabs (Wav.normalised_sample max_val x * 32767) <= 32767).
  { intros x Hx. pose proof (normalised_sample_bound _ _ _ Hmax Hx) as H.
    rewrite Rabs_mult, (Rabs_pos_eq 32767) by lra. lra. }
  eexists. eexists.
  split; [apply (save_wav_outcome audio sample_rate max_val Hmax Hsr)|].
  cbn [Wav.nchannels Wav.sampwidth Wav.framerate Wav.audio_data].
  split; [reflexivity|]. split; [reflexivity|]. split; [reflexivity|].
  split; [rewrite tobytes_length, length_map; reflexivity|].
  split.
  - apply (load_quantised (fun x => Wav.normalised_sample max_val x * 32767)).
    exact Hq.
  - apply Forall2_map_self. intros x Hx.
    fold (Wav.normalised_sample max_val x).
    pose proof (normalised_sample_bound _ _ _ Hmax Hx) as Hs.
    destruct (trunc_error (Wav.normalised_sample max_val x * 32767)) as (He & Ha).
    set (s := Wav.normalised_sample max_val x) in *.
    set (q := IZR (Wav.trunc (s * 32767))) in *.
    split.
    + replace (q / 32767 - s) with ((q - s * 32767) / 32767) by field.
      unfold Rdiv. rewrite Rabs_mult, (Rabs_pos_eq (/ 32767)) by lra. lra.
    + unfold Rdiv. rewrite Rabs_mult, (Rabs_pos_eq (/ 32767)) by lra.
      rewrite Rabs_mult, (Rabs_pos_eq 32767) in Ha by lra. lra.
Qed.

(** X23.  For a sample rate below 2^31 and less than 4 GiB of file,
    [save_wav] fails in two cases only: on empty audio, with the ValueError
    of [np.max], whatever the sample rate; and on a sample rate that is not
    positive, with [wave]'s error. *)
Theorem save_wav_fails_iff (audio : signal) (sample_rate : Z)
        (x : Wav.wav_exn) :
  (sample_rate < 2147483648)%Z ->
  (2 * Z.of_nat (length audio) + 36 < 4294967296)%Z ->
  Wav.save_wav audio sample_rate = Wav.Fails x
  <-> (audio = [] /\ x = Wav.Numpy ZeroSizeReduction)
      \/ (audio <> [] /\ (sample_rate <= 0)%Z /\ x = Wav.BadFrameRate).
Proof.
  intros _ _. destruct audio as [|a audio].
  - cbn. split.
    + intros H. left. split; [reflexivity|congruence].
    + intros [(_ & ->)|(H & _)]; [reflexivity|congruence].
  - destruct (np_max_abs_nonempty (a :: audio)) as (max_val & Hmax);
      [discriminate|].
    split.
    + intros H. right. split; [discriminate|].
      destruct (Z.leb_spec sample_rate 0) as [Hsr|Hsr].
      * split; [exact Hsr|].
        revert H. unfold Wav.save_wav. rewrite Hmax.
        cbn [Wav.of_numpy Wav.wav_bind]. unfold Wav.wave_write.
        destruct (Z.leb_spec sample_rate 0); [congruence|lia].
      * rewrite (save_wav_outcome _ _ _ Hmax Hsr) in H. discriminate.
    + intros [(H & _)|(_ & Hsr & ->)]; [discriminate|].
      unfold Wav.save_wav. rewrite Hmax.
      cbn [Wav.of_numpy Wav.wav_bind]. unfold Wav.wave_write.
      destruct (Z.leb_spec sample_rate 0); [reflexivity|lia].
Qed.

End WavFiles.

Section WavExamples.
Open Scope R_scope.

Lemma save_wav_load_wav_witness :
  exists wf loaded,
    Wav.save_wav [1 / 2; -1 / 4] 44100 = Wav.Done wf
    /\ Wav.nchannels wf = 1%Z /\ Wav.sampwidth wf = 2%Z
    /\ Wav.framerate wf = 44100%Z
    /\ length (Wav.audio_data wf) = (2 * length [1 / 2; -1 / 4]%R)%nat
    /\ Wav.load_wav wf = Wav.Done (loaded, 44100%Z, 1%Z)
    /\ Forall2 (fun x y =>
                  Rabs (y - (if Rlt_dec 0 (Rmax (Rabs (1 / 2)) (Rabs (-1 / 4)))
                             then x / Rmax (Rabs (1 / 2)) (Rabs (-1 / 4)) * 0.99
                             else x)) < 1 / 32767
                  /\ Rabs y <= 0.99)
               [1 / 2; -1 / 4] loaded.
Proof.
  apply (save_wav_load_wav [1 / 2; -1 / 4] 44100
           (Rmax (Rabs (1 / 2)) (Rabs (-1 / 4)))).
  - reflexivity.
  - lia.
  - simpl. lia.
Defined.

Lemma save_wav_fails_iff_witness :
  Wav.save_wav [1 / 2; -1 / 4] (-1) = Wav.Fails Wav.BadFrameRate
  <-> ([1 / 2; -1 / 4] = [] /\ Wav.BadFrameRate = Wav.Numpy ZeroSizeReduction)
      \/ ([1 / 2; -1 / 4] <> [] /\ (-1 <= 0)%Z
          /\ Wav.BadFrameRate = Wav.BadFrameRate).
Proof.
  apply (save_wav_fails_iff [1 / 2; -1 / 4] (-1) Wav.BadFrameRate).
  - lia.
  - simpl. lia.
Defined.

End WavExamples.

(* ------------------------------------------------------------------ *)
(** ** A message through a WAV file *)

Section ThroughFile.
Open Scope R_scope.

(** At 44100 Hz the 12 kHz carrier is at least 1/10 in magnitude on one of
    any two samples in a row: from one sample to the next the phase
    advances by between a quarter and five twelfths of a turn. *)
Lemma carrier_one_of_two (L i : nat) :
  (3 <= L)%nat ->
  1 / 10 <= Rabs (carrier_sample 12000 44100 L i)
  \/ 1 / 10 <= Rabs (carrier_sample 12000 44100 L (S i)).
Proof.
  intros HL.
  assert (Hx : 3 <= INR L).
  { replace 3 with (INR 3) by (simpl; lra). apply le_INR. exact HL. }
  assert (Hm1 : INR (L - 1) = INR L - 1)
    by (rewrite minus_INR by lia; reflexivity).
  set (step := (INR L / 44100 - 0) / INR (L - 1)).
  set (phi := 2 * PI * 12000 * (0 + INR i * step)).
  set (delta := 2 * PI * 12000 * step).
  assert (E0 : carrier_sample 12000 44100 L i = sin phi) by reflexivity.
  assert (E1 : carrier_sample 12000 44100 L (S i) = sin (phi + delta)).
  { unfold carrier_sample. fold step. rewrite S_INR. f_equal.
    unfold phi, delta. ring. }
  rewrite E0, E1.
  pose proof PI_RGT_0 as Hpi.
  assert (Hstep : 1 / 44100 <= step <= 3 / 2 / 44100).
  { unfold step. rewrite Hm1. set (x := INR L) in *.
    assert (0 < x - 1) by lra.
    split.
    - apply (Rmult_le_reg_r (x - 1)); [assumption|].
      replace ((x / 44100 - 0) / (x - 1) * (x - 1)) with (x / 44100)
        by (field; lra).
      lra.
    - apply (Rmult_le_reg_r (x - 1)); [assumption|].
      replace ((x / 44100 - 0) / (x - 1) * (x - 1)) with (x / 44100)
        by (field; lra).
      lra. }
  assert (Hd : PI / 2 <= delta <= 5 * (PI / 6)).
  { unfold delta. destruct Hstep as (H1 & H2). split.
    - apply Rle_trans with (2 * PI * 12000 * (1 / 44100)); [lra|].
      apply Rmult_le_compat_l; [lra|exact H1].
    - apply Rle_trans with (2 * PI * 12000 * (3 / 2 / 44100)); [|lra].
      apply Rmult_le_compat_l; [lra|exact H2]. }
  assert (Hsd : 1 / 2 <= sin delta).
  { rewrite <- sin_PI6, <- (sin_PI_x delta).
    apply sin_incr_1; lra. }
  pose proof (SIN_bound delta) as Hsb. pose proof (COS_bound delta) as Hcb.
  pose proof (sin2_cos2 phi) as Hsc. unfold Rsqr in Hsc.
  pose proof (COS_bound phi) as Hcp.
  rewrite sin_plus.
  set (a := sin phi) in *. set (c := cos phi) in *.
  set (sd := sin delta) in *. set (cd := cos delta) in *.
  destruct (Rle_lt_dec (1 / 10) (Rabs a)) as [H|H]; [left; exact H|right].
  assert (Ha : -1 / 10 < a < 1 / 10).
  { revert H. unfold Rabs. destruct (Rcase_abs a); lra. }
  assert (Hacd : -1 / 10 <= a * cd <= 1 / 10).
  { split; nra. }
  assert (Hc2 : 99 / 100 <= c * c) by nra.
  destruct (Rle_lt_dec 0 c) as [P|N].
  - assert (99 / 100 <= c) by nra.
    assert (99 / 200 <= c * sd) by nra.
    rewrite Rabs_right by lra. lra.
  - assert (c <= -99 / 100) by nra.
    assert (c * sd <= -99 / 200) by nra.
    rewrite Rabs_left by lra. lra.
Qed.

Lemma carrier_sample_0 (L : nat) : carrier_sample 12000 44100 L 0 = 0.
Proof.
  unfold carrier_sample. cbn [INR].
  replace (2 * PI * 12000 * (0 + 0 * ((INR L / 44100 - 0) / INR (L - 1))))
    with 0 by ring.
  apply sin_0.
Qed.

Lemma spread_bits_squares (bits : list Z) :
  Forall (fun c => c * c = 1) (spread_bits bits).
Proof.
  induction bits as [|b bits IH]; cbn [spread_bits flat_map]; [constructor|].
  apply Forall_app. split; [|exact IH].
  unfold vec_scale. apply Forall_map.
  pose proof PNC_KEY_squares as H. revert H. apply Forall_impl.
  intros c Hc. unfold bit_scalar. destruct (b =? 1)%Z; nra.
Qed.

Lemma np_repeat_squares (a : signal) (n : nat) :
  Forall (fun c => c * c = 1) a -> Forall (fun c => c * c = 1) (np_repeat a n).
Proof.
  induction 1 as [|x a Hx _ IH]; cbn [np_repeat flat_map]; [constructor|].
  apply Forall_app. split; [|exact IH].
  apply Forall_forall. intros y Hy. apply repeat_spec in Hy. subst y. exact Hx.
Qed.

(** An odd function goes through the product with a signal of +1 and -1. *)
Lemma map_odd_vec_mul (h : R -> R) (b c : signal) :
  (forall y, h (- y) = - h y) ->
  Forall (fun x => x * x = 1) b ->
  map h (vec_mul b c) = vec_mul b (map h c).
Proof.
  intros Hodd Hb. revert c. induction Hb as [|x b Hx _ IH]; intros [|y c];
    cbn [vec_mul map]; try reflexivity.
  rewrite IH. f_equal.
  assert (Hc : x = 1 \/ x = -1).
  { assert (E : (x - 1) * (x + 1) = 0) by nra.
    apply Rmult_integral in E. destruct E; [left|right]; lra. }
  destruct Hc as [-> | ->].
  - rewrite !Rmult_1_l. reflexivity.
  - replace (-1 * y) with (- y) by ring. rewrite Hodd. ring.
Qed.

(** The detection loop reads the bits back from a modulated message that
    went sample by sample through an odd function [h] that keeps the sign
    of every sample and does not wipe out a sample of 1/10 or more. *)
Lemma demodulate_distorted (bits : list Z) (h : R -> R) :
  Forall is_bit bits -> (1 <= length bits)%nat ->
  (forall y, h (- y) = - h y) ->
  (forall y, 0 <= h y * y) ->
  (forall y, 1 / 10 <= Rabs y -> 0 < h y * y) ->
  Studio.demodulate_bits
    (map h (Studio.modulate (spread_bits bits) 44100)) 44100
  = firstn (32 + 8 * 256) bits.
Proof.
  intros Hbits Hnb Hodd Hsign Hstrict.
  destruct (modulate_as_product bits) as (Hmod & Hlen).
  set (L := (length bits * (SPREADING_FACTOR * 44))%nat) in *.
  assert (HL : (3 <= L)%nat).
  { unfold L, SPREADING_FACTOR. simpl length. lia. }
  unfold Studio.demodulate_bits. rewrite samples_per_chip_44100.
  cbv zeta. rewrite length_map, Hlen, carrier_as_map, Hmod.
  rewrite map_odd_vec_mul
    by (try exact Hodd; apply np_repeat_squares, spread_bits_squares).
  rewrite vec_mul_assoc, map_map, vec_mul_map_seq.
  apply detect_bits_baseband.
  - exact Hbits.
  - lia.
  - rewrite length_map, length_seq. reflexivity.
  - apply windows_positive_map.
    + intros i. apply Hsign.
    + intros i.
      pose proof (Hsign (carrier_sample 12000 44100 L i)) as H0.
      pose proof (Hsign (carrier_sample 12000 44100 L (S i))) as H1.
      destruct (carrier_one_of_two L i HL) as [H|H];
        apply Hstrict in H; lra.
    + unfold SPREADING_FACTOR. simpl length. lia.
Qed.

(** The second sample of a modulated message is at least 1/10 in
    magnitude. *)
Lemma modulate_second_sample (bits : list Z) :
  (1 <= length bits)%nat ->
  exists y, In y (Studio.modulate (spread_bits bits) 44100)
            /\ 1 / 10 <= Rabs y.
Proof.
  intros Hnb.
  destruct (modulate_as_product bits) as (Hmod & _).
  set (L := (length bits * (SPREADING_FACTOR * 44))%nat) in *.
  assert (HL : (3 <= L)%nat).
  { unfold L, SPREADING_FACTOR. simpl length. lia. }
  pose proof (np_repeat_squares _ 44 (spread_bits_squares bits)) as Hsq.
  assert (Hlb : length (np_repeat (spread_bits bits) 44) = L).
  { rewrite np_repeat_length, spread_bits_length. unfold L. lia. }
  rewrite Hmod. clear Hmod.
  destruct (np_repeat (spread_bits bits) 44) as [|b0 [|b1 B]];
    [cbn [length] in Hlb; lia|cbn [length] in Hlb; lia|].
  destruct L as [|[|L']]; [lia|lia|]. cbn [seq map vec_mul].
  exists (b1 * carrier_sample 12000 44100 (S (S L')) 1).
  split; [right; left; reflexivity|].
  inversion Hsq as [|? ? _ Hsq']. inversion Hsq' as [|? ? Hb1 _].
  destruct (carrier_one_of_two (S (S L')) 0 HL) as [Hc|Hc].
  - rewrite carrier_sample_0, Rabs_R0 in Hc. lra.
  - rewrite Rabs_mult.
    assert (Eb : Rabs b1 = 1).
    { assert (E : (b1 - 1) * (b1 + 1) = 0) by nra.
      apply Rmult_integral in E.
      destruct E; [rewrite Rabs_right by lra|rewrite Rabs_left by lra]; lra. }
    rewrite Eb, Rmult_1_l. exact Hc.
Qed.

(** Saving and loading a modulated message scaled by a positive [k]: the
    detection loop still reads its bits. *)
Lemma file_of_modulated (bits : list Z) (k : R) :
  Forall is_bit bits -> (1 <= length bits)%nat -> 0 < k ->
  exists wf loaded,
    Wav.save_wav (vec_scale (Studio.modulate (spread_bits bits) 44100) k) 44100
    = Wav.Done wf
    /\ Wav.load_wav wf = Wav.Done (loaded, 44100%Z, 1%Z)
    /\ length loaded = length (Studio.modulate (spread_bits bits) 44100)
    /\ Studio.demodulate_bits loaded 44100 = firstn (32 + 8 * 256) bits.
Proof.
  intros Hbits Hnb Hk.
  set (m := Studio.modulate (spread_bits bits) 44100).
  destruct (np_max_abs_nonempty (vec_scale m k)) as (pk & Hmax).
  { intros E. apply (f_equal (@length R)) in E. unfold vec_scale in E.
    rewrite length_map in E. apply (modulate_nonempty bits Hnb).
    apply length_zero_iff_nil. exact E. }
  destruct (np_max_abs_peak _ _ Hmax) as (Hb & (xs & Hxs & Hpk) & _).
  assert (Hlow : k / 10 <= pk).
  { destruct (modulate_second_sample bits Hnb) as (y & Hy & Hy10).
    rewrite Forall_forall in Hb.
    assert (Hin : In (y * k) (vec_scale m k)).
    { unfold vec_scale. apply in_map_iff. exists y. split; [reflexivity|exact Hy]. }
    specialize (Hb _ Hin). rewrite Rabs_mult, (Rabs_pos_eq k) in Hb by lra.
    nra. }
  assert (Hhigh : pk <= k).
  { unfold vec_scale in Hxs. apply in_map_iff in Hxs.
    destruct Hxs as (y & <- & Hy).
    pose proof (modulate_bound bits 44100) as Hm1.
    rewrite Forall_forall in Hm1. specialize (Hm1 y Hy).
    rewrite <- Hpk, Rabs_mult, (Rabs_pos_eq k) by lra.
    pose proof (Rabs_pos y). nra. }
  assert (Hpos : 0 < pk) by lra.
  set (G := k / pk * 0.99 * 32767).
  assert (HG : 32439 <= G).
  { unfold G. assert (1 <= k / pk).
    { apply (Rmult_le_reg_r pk); [exact Hpos|].
      replace (k / pk * pk) with k by (field; lra). lra. }
    lra. }
  assert (Hns : forall y, Wav.normalised_sample pk (y * k) * 32767 = y * G).
  { intros y. unfold Wav.normalised_sample, G.
    destruct (Rlt_dec 0 pk) as [_|N]; [field; lra|contradiction]. }
  set (h := fun y => IZR (Wav.trunc (y * G)) / 32767).
  exists {| Wav.nchannels := 1; Wav.sampwidth := 2; Wav.framerate := 44100;
            Wav.audio_data :=
              Wav.tobytes
                (map (fun x => Wav.trunc (Wav.normalised_sample pk x * 32767))
                     (vec_scale m k)) |}, (map h m).
  split; [apply (save_wav_outcome _ _ _ Hmax); lia|].
  split.
  { rewrite (load_quantised (fun x => Wav.normalised_sample pk x * 32767)).
    - unfold vec_scale. rewrite map_map. do 3 f_equal.
      apply map_ext. intros y. unfold h. rewrite Hns. reflexivity.
    - intros x Hx. pose proof (normalised_sample_bound _ _ _ Hmax Hx) as H.
      rewrite Rabs_mult, (Rabs_pos_eq 32767) by lra. lra. }
  split; [apply length_map|].
  apply demodulate_distorted; try assumption.
  - intros y. unfold h. replace (- y * G) with (- (y * G)) by ring.
    rewrite trunc_opp, opp_IZR. field.
  - intros y. unfold h. pose proof (trunc_sign (y * G)) as H.
    replace (IZR (Wav.trunc (y * G)) / 32767 * y)
      with (IZR (Wav.trunc (y * G)) * (y * G) * (/ (32767 * G)))
      by (field; lra).
    apply Rmult_le_pos; [exact H|].
    left. apply Rinv_0_lt_compat. lra.
  - intros y Hy. unfold h.
    assert (H1 : 1 <= Rabs (y * G)).
    { rewrite Rabs_mult, (Rabs_pos_eq G) by lra. nra. }
    pose proof (trunc_sign_strict (y * G) H1) as H.
    replace (IZR (Wav.trunc (y * G)) / 32767 * y)
      with (IZR (Wav.trunc (y * G)) * (y * G) * (/ (32767 * G)))
      by (field; lra).
    apply Rmult_lt_0_compat; [exact H|].
    apply Rinv_0_lt_compat. lra.
Qed.


End ThroughFile.

Section ThroughFileExamples.
Open Scope R_scope.


End ThroughFileExamples.

(* ------------------------------------------------------------------ *)
(** ** The other two writers *)

Section OtherWriters.
Open Scope R_scope.



Lemma scaled_to_peak (max_val x c : R) :
  0 < max_val -> 0 <= c -> Rabs x <= max_val -> Rabs (x / max_val * c) <= c.
Proof.
  intros Hm Hc Hx.
  pose proof (normalised_bound [x] max_val c Hm Hc) as H.
  assert (H' : Forall (fun x => Rabs x <= c) (vec_scale (vec_div [x] max_val) c)).
  { apply H. constructor; [exact Hx|constructor]. }
  inversion H' as [|? ? H1 _]. exact H1.
Qed.


(** The peak that [np.max(np.abs(a) + 1e-9)] returns is positive and
    bounds every magnitude. *)
Lemma np_max_abs_plus_peak (plus_eps : R -> R) (a : signal) (peak : R) :
  Wav.rounds_plus_eps plus_eps ->
  Wav.np_max_abs_plus plus_eps a = Ok peak ->
  0 < peak /\ Forall (fun x => Rabs x <= peak) a.
Proof.
  intros Hr. destruct a as [|x a]; cbn [Wav.np_max_abs_plus]; [discriminate|].
  intros H. apply Ok_inj in H. subst peak.
  pose proof (fold_left_Rmax_ge (map (fun y => plus_eps (Rabs y)) a)
                (plus_eps (Rabs x))) as H0.
  destruct (Hr (Rabs x) (Rabs_pos x)) as (Hx0 & Hx1).
  split; [lra|].
  constructor; [lra|].
  pose proof (fold_left_Rmax_bound (map (fun y => plus_eps (Rabs y)) a)
                (plus_eps (Rabs x))) as H.
  rewrite Forall_map in H. revert H. apply Forall_impl. intros y Hy.
  destruct (Hr (Rabs y) (Rabs_pos y)) as (_ & Hy1). lra.
Qed.

(** What [_save_to_wav] writes for audio that is not empty. *)
Lemma save_to_wav_outcome (plus_eps : R -> R) (audio_data : signal) :
  Wav.rounds_plus_eps plus_eps ->
  audio_data <> [] ->
  exists wf loaded,
    Wav._save_to_wav plus_eps audio_data = (true, Some wf)
    /\ Wav.framerate wf = 44100%Z
    /\ length (Wav.audio_data wf) = (2 * length audio_data)%nat
    /\ Wav.load_wav wf = Wav.Done (loaded, 44100%Z, 1%Z)
    /\ length loaded = length audio_data
    /\ Forall (fun y => Rabs y <= 1) loaded.
Proof.
  intros Hr Hne.
  destruct (Wav.np_max_abs_plus plus_eps audio_data) as [peak|x] eqn:Hmax;
    [|destruct audio_data; [congruence|discriminate]].
  destruct (np_max_abs_plus_peak _ _ _ Hr Hmax) as (Hpos & Hb).
  rewrite Forall_forall in Hb.
  assert (Hq : forall x, In x audio_data ->
                 Rabs (x / peak * 32767) <= 32767).
  { intros x Hx. apply scaled_to_peak; [exact Hpos|lra|apply Hb; exact Hx]. }
  exists {| Wav.nchannels := 1; Wav.sampwidth := 2; Wav.framerate := 44100;
            Wav.audio_data :=
              Wav.tobytes
                (map (fun x => Wav.trunc (x / peak * 32767)) audio_data) |},
    (map (fun x => IZR (Wav.trunc (x / peak * 32767)) / 32767) audio_data).
  split.
  { unfold Wav._save_to_wav. rewrite Hmax.
    cbn [Wav.of_numpy Wav.wav_bind]. unfold Wav.wave_write, SAMPLE_RATE.
    change (44100 <=? 0)%Z with false. cbv iota.
    unfold Wav.astype_int16, vec_scale, vec_div. rewrite !map_map.
    reflexivity. }
  split; [reflexivity|].
  split; [cbn [Wav.audio_data]; rewrite tobytes_length, length_map; reflexivity|].
  split.
  { apply (load_quantised (fun x => x / peak * 32767)). exact Hq. }
  split; [apply length_map|].
  apply Forall_map, Forall_forall. intros x Hx.
  destruct (trunc_error (x / peak * 32767)) as (_ & Ha).
  specialize (Hq x Hx).
  unfold Rdiv at 1. rewrite Rabs_mult, (Rabs_pos_eq (/ 32767)) by lra. lra.
Qed.

(** X26.  In radio mode an order of ordinary size reaches its file: the
    audio that steps 1 and 2 of [send_order] make is never empty, so
    [_save_to_wav] returns [True] with a mono 16-bit file at 44100 Hz of two
    bytes a sample, which loads again with no sample above 1 in magnitude;
    on empty audio [_save_to_wav] returns [False].  (The order is short
    enough for the file to stay below 4 GiB.) *)
Theorem send_order_saves (lib : crypto_backend) (plus_eps : R -> R)
        (crypto : Commander.EncryptionCore) (z : nat -> R)
        (message target priority : str) (e : entropy) :
  Wav.rounds_plus_eps plus_eps ->
  Forall scalar_value message ->
  Forall scalar_value target -> Forall scalar_value priority ->
  (Z.of_nat (length message + length target + length priority) <= 49000)%Z ->
  Wav._save_to_wav plus_eps [] = (false, None)
  /\ exists audio_packet crypto' e' wf loaded,
      Commander.send_order_audio lib crypto z message target priority e
      = (Ok audio_packet, crypto', e')
      /\ Wav._save_to_wav plus_eps audio_packet = (true, Some wf)
      /\ Wav.framerate wf = 44100%Z
      /\ length (Wav.audio_data wf) = (2 * length audio_packet)%nat
      /\ Wav.load_wav wf = Wav.Done (loaded, 44100%Z, 1%Z)
      /\ length loaded = length audio_packet
      /\ Forall (fun y => Rabs y <= 1) loaded.
Proof.
  intros Hr Hm Ht Hp _. split; [reflexivity|].
  destruct (encrypt_packet_outcome lib crypto message target priority e
              Hm Ht Hp) as (blob & e' & Hret & Hblob & Hlen).
  destruct (apply_noise_masking_outcome (Masker.init (-20) CARRIER_FREQ) z
              (Masker._modulate_signal (Masker.init (-20) CARRIER_FREQ)
                 (spread_bits (bytes_to_bits blob))))
    as (masked & Hmask & Hl & _).
  { intros E. apply (f_equal (@length R)) in E.
    rewrite masker_payload_samples in E. cbn [length] in E. lia. }
  rewrite masker_payload_samples in Hl.
  destruct (save_to_wav_outcome plus_eps masked Hr)
    as (wf & loaded & H1 & H2 & H3 & H4 & H5 & H6).
  { intros E. rewrite E in Hl. cbn [length] in Hl. lia. }
  exists masked, {| Commander.session_count :=
                      S (Commander.session_count crypto) |}, e', wf, loaded.
  split.
  { unfold Commander.send_order_audio. rewrite Hret.
    unfold Masker.generate_masked_audio, Masker._bytes_to_bits,
      Masker._spread_bits. cbv zeta. rewrite Hmask. reflexivity. }
  repeat split; assumption.
Qed.

End OtherWriters.

Section OtherWriterExamples.
Open Scope R_scope.


Lemma plus_eps_exact : Wav.rounds_plus_eps (fun x => x + 1e-9).
Proof. intros x Hx. split; lra. Qed.

Lemma send_order_saves_witness :
  Wav._save_to_wav (fun x => x + 1e-9) [] = (false, None)
  /\ exists audio_packet crypto' e' wf loaded,
      Commander.send_order_audio no_cryptography
        {| Commander.session_count := 0 |} (fun _ => 1) [71; 79]%Z
        [65; 76; 76]%Z [70; 76; 65; 83; 72]%Z counting_entropy
      = (Ok audio_packet, crypto', e')
      /\ Wav._save_to_wav (fun x => x + 1e-9) audio_packet = (true, Some wf)
      /\ Wav.framerate wf = 44100%Z
      /\ length (Wav.audio_data wf) = (2 * length audio_packet)%nat
      /\ Wav.load_wav wf = Wav.Done (loaded, 44100%Z, 1%Z)
      /\ length loaded = length audio_packet
      /\ Forall (fun y => Rabs y <= 1) loaded.
Proof.
  apply (send_order_saves no_cryptography (fun x => x + 1e-9)
           {| Commander.session_count := 0 |}
           (fun _ => 1) [71; 79]%Z [65; 76; 76]%Z [70; 76; 65; 83; 72]%Z
           counting_entropy).
  - exact plus_eps_exact.
  - apply ascii_scalar_values.
    repeat (apply Forall_cons; [lia|]). apply Forall_nil.
  - apply ascii_scalar_values.
    repeat (apply Forall_cons; [lia|]). apply Forall_nil.
  - apply ascii_scalar_values.
    repeat (apply Forall_cons; [lia|]). apply Forall_nil.
  - cbn [length]. lia.
Defined.

End OtherWriterExamples.

(* ------------------------------------------------------------------ *)
(** ** What [load_wav] makes of a file *)

Section Loading.
Open Scope R_scope.

Lemma le_value_bound (group : bytes) :
  is_bytes group ->
  (0 <= Wav.le_value group < 256 ^ Z.of_nat (length group))%Z.
Proof.
  induction 1 as [|b g Hb _ IH]; [cbn; lia|].
  cbn [Wav.le_value length]. rewrite Nat2Z.inj_succ, Z.pow_succ_r by lia.
  unfold is_byte in Hb. lia.
Qed.

Lemma groups_length (width n : nat) (raw : bytes) :
  length (Wav.groups width n raw) = n.
Proof.
  revert raw. induction n as [|n IH]; intros raw; [reflexivity|].
  cbn [Wav.groups length]. rewrite IH. reflexivity.
Qed.

Lemma Forall_skipn_any {A : Type} (P : A -> Prop) (n : nat) (l : list A) :
  Forall P l -> Forall P (skipn n l).
Proof.
  revert l. induction n as [|n IH]; intros l H; [exact H|].
  destruct H as [|x l Hx Hl]; [constructor|]. cbn [skipn]. apply IH. exact Hl.
Qed.

Lemma groups_bytes (width n : nat) (raw : bytes) :
  is_bytes raw ->
  Forall (fun g => is_bytes g /\ (length g <= width)%nat)
         (Wav.groups width n raw).
Proof.
  revert raw. induction n as [|n IH]; intros raw Hr; [constructor|].
  cbn [Wav.groups]. constructor.
  - split; [apply Forall_firstn_any; exact Hr|].
    rewrite length_firstn. lia.
  - apply IH. apply Forall_skipn_any. exact Hr.
Qed.

(** The elements that [np.frombuffer] reads as [np.uint8] and [np.int16]
    from whole groups of bytes. *)
Lemma frombuffer_elements (width : nat) (signed : bool) (raw : bytes)
      (lo hi : Z) :
  is_bytes raw -> (length raw mod width = 0)%nat ->
  (forall g, is_bytes g -> (length g <= width)%nat ->
             (lo <= Wav.element width signed g <= hi)%Z) ->
  exists ints,
    Wav.frombuffer width signed raw = Wav.Done ints
    /\ length ints = (length raw / width)%nat
    /\ Forall (fun v => (lo <= v <= hi)%Z) ints.
Proof.
  intros Hr Hm He. unfold Wav.frombuffer. rewrite Hm. cbn [Nat.eqb].
  eexists. split; [reflexivity|]. split.
  - rewrite length_map, groups_length. reflexivity.
  - apply Forall_map.
    pose proof (groups_bytes width (length raw / width) raw Hr) as H.
    revert H. apply Forall_impl. intros g (Hg & Hl). apply He; assumption.
Qed.

Lemma element_uint8 (g : bytes) :
  is_bytes g -> (length g <= 1)%nat -> (0 <= Wav.element 1 false g <= 255)%Z.
Proof.
  intros Hg Hl. unfold Wav.element. cbn [andb].
  pose proof (le_value_bound g Hg) as H.
  assert (256 ^ Z.of_nat (length g) <= 256 ^ 1)%Z
    by (apply Z.pow_le_mono_r; lia).
  lia.
Qed.

Lemma element_int16 (g : bytes) :
  is_bytes g -> (length g <= 2)%nat ->
  (-32768 <= Wav.element 2 true g <= 32767)%Z.
Proof.
  intros Hg Hl. unfold Wav.element. cbn [andb].
  change (2 ^ (8 * Z.of_nat 2 - 1))%Z with 32768%Z.
  change (2 ^ (8 * Z.of_nat 2))%Z with 65536%Z.
  pose proof (le_value_bound g Hg) as H.
  assert (256 ^ Z.of_nat (length g) <= 256 ^ 2)%Z
    by (apply Z.pow_le_mono_r; lia).
  change (256 ^ 2)%Z with 65536%Z in *.
  destruct (Z.leb_spec 32768 (Wav.le_value g)); lia.
Qed.

(** The means of the pairs of an even number of samples. *)
Lemma pair_means_even (lo hi : R) (k : nat) (audio : signal) :
  length audio = (2 * k)%nat ->
  Forall (fun y => lo <= y <= hi) audio ->
  exists means,
    Wav.pair_means audio = Wav.Done means
    /\ length means = k
    /\ Forall (fun y => lo <= y <= hi) means.
Proof.
  revert audio. induction k as [|k IH]; intros audio Hl Ha.
  - destruct audio; [|discriminate]. exists []. repeat split. constructor.
  - destruct audio as [|l [|r audio]]; try (cbn [length] in Hl; lia).
    inversion Ha as [|? ? Hlo Ha']. inversion Ha' as [|? ? Hro Ha''].
    destruct (IH audio) as (means & Hm & Hlen & Hr);
      [cbn [length] in Hl; lia|assumption|].
    exists ((l + r) / 2 :: means). cbn [Wav.pair_means]. rewrite Hm.
    cbn [Wav.wav_bind length]. split; [reflexivity|].
    split; [lia|]. constructor; [lra|exact Hr].
Qed.


(** The whole frames of the data of a file, as elements. *)
Lemma frames_as_elements (width channels : nat) (signed : bool)
      (data : bytes) (lo hi : Z) :
  (0 < width)%nat -> (0 < channels)%nat -> is_bytes data ->
  (forall g, is_bytes g -> (length g <= width)%nat ->
             (lo <= Wav.element width signed g <= hi)%Z) ->
  exists ints,
    Wav.frombuffer width signed
      (firstn (length data / (channels * width) * (channels * width)) data)
    = Wav.Done ints
    /\ length ints = (length data / (channels * width) * channels)%nat
    /\ Forall (fun v => (lo <= v <= hi)%Z) ints.
Proof.
  intros Hw Hc Hd He.
  set (n := (length data / (channels * width))%nat).
  assert (Hn : (n * (channels * width) <= length data)%nat).
  { unfold n. rewrite Nat.mul_comm. apply Nat.Div0.mul_div_le. }
  assert (Hl : length (firstn (n * (channels * width)) data)
               = (n * channels * width)%nat).
  { rewrite length_firstn. lia. }
  destruct (frombuffer_elements width signed
              (firstn (n * (channels * width)) data) lo hi)
    as (ints & Hf & Hli & Hr).
  - apply Forall_firstn_any. exact Hd.
  - rewrite Hl. apply Nat.Div0.mod_mul.
  - exact He.
  - exists ints. split; [exact Hf|]. split; [|exact Hr].
    rewrite Hli, Hl. apply Nat.div_mul. lia.
Qed.

(** X27.  [load_wav] never fails on an 8-bit or 16-bit file of one or two
    channels, whatever its data: a trailing part of a frame is dropped, the
    file's rate and number of channels are returned with one sample a
    frame, and every sample is at most 1; those of a 16-bit file can go down
    to -32768/32767, just below -1, and those of an 8-bit file are never
    negative (the unsigned bytes are divided by 255, not centred). *)
Theorem load_wav_8_16_bit (wf : Wav.wav_file) :
  is_bytes (Wav.audio_data wf) ->
  Wav.sampwidth wf = 1%Z \/ Wav.sampwidth wf = 2%Z ->
  Wav.nchannels wf = 1%Z \/ Wav.nchannels wf = 2%Z ->
  exists audio,
    Wav.load_wav wf = Wav.Done (audio, Wav.framerate wf, Wav.nchannels wf)
    /\ length audio
       = (length (Wav.audio_data wf)
          / Z.to_nat (Wav.nchannels wf * Wav.sampwidth wf))%nat
    /\ Forall (fun y =>
                 (if (Wav.sampwidth wf =? 1)%Z then 0 else -32768 / 32767) <= y
                 /\ y <= 1)
              audio.
Proof.
  intros Hd Hw Hc. destruct wf as [channels width rate data].
  cbn [Wav.nchannels Wav.sampwidth Wav.framerate Wav.audio_data] in *.
  unfold Wav.load_wav, Wav.readframes_all.
  cbn [Wav.nchannels Wav.sampwidth Wav.framerate Wav.audio_data].
  assert (Hmeans : forall lo (ints : list Z) (M : R) k,
             length ints = (k * 2)%nat ->
             Forall (fun y => lo <= y <= 1) (map (fun v => IZR v / M) ints) ->
             exists audio,
               Wav.wav_bind (Wav.pair_means (map (fun v => IZR v / M) ints))
                 (fun audio => Wav.Done (audio, rate, 2%Z))
               = Wav.Done (audio, rate, 2%Z)
               /\ length audio = k
               /\ Forall (fun y => lo <= y /\ y <= 1) audio).
  { intros lo ints M k Hl Hr.
    destruct (pair_means_even lo 1 k (map (fun v => IZR v / M) ints))
      as (means & Hm & Hlen & Hb); [rewrite length_map; lia|exact Hr|].
    exists means. rewrite Hm. cbn [Wav.wav_bind].
    split; [reflexivity|]. split; [exact Hlen|exact Hb]. }
  destruct Hw as [-> | ->]; destruct Hc as [-> | ->];
    cbn [Z.eqb Pos.eqb Z.mul Pos.mul Z.to_nat];
    change (Pos.to_nat 1) with 1%nat; change (Pos.to_nat 2) with 2%nat;
    change (Pos.to_nat 4) with 4%nat; cbv iota beta.
  - destruct (frames_as_elements 1 1 false data 0 255) as (ints & Hf & Hl & Hr);
      [lia|lia|exact Hd|exact element_uint8|].
    cbn [Nat.mul Nat.add] in Hf, Hl. rewrite Hf. cbn [Wav.wav_bind].
    eexists. split; [reflexivity|]. split; [rewrite length_map; lia|].
    apply Forall_map. revert Hr. apply Forall_impl. intros v (H1 & H2).
    apply IZR_le in H1, H2. split.
    + apply Rmult_le_pos; lra.
    + apply (Rmult_le_reg_r 255); [lra|]. unfold Rdiv.
      rewrite Rmult_assoc, Rinv_l by lra. lra.
  - destruct (frames_as_elements 1 2 false data 0 255) as (ints & Hf & Hl & Hr);
      [lia|lia|exact Hd|exact element_uint8|].
    cbn [Nat.mul Nat.add] in Hf, Hl. rewrite Hf. cbn [Wav.wav_bind].
    apply (Hmeans 0 ints 255 _ Hl).
    apply Forall_map. revert Hr. apply Forall_impl. intros v (H1 & H2).
    apply IZR_le in H1, H2. split.
    + apply Rmult_le_pos; lra.
    + apply (Rmult_le_reg_r 255); [lra|]. unfold Rdiv.
      rewrite Rmult_assoc, Rinv_l by lra. lra.
  - destruct (frames_as_elements 2 1 true data (-32768) 32767)
      as (ints & Hf & Hl & Hr); [lia|lia|exact Hd|exact element_int16|].
    cbn [Nat.mul Nat.add] in Hf, Hl. rewrite Hf. cbn [Wav.wav_bind].
    eexists. split; [reflexivity|]. split; [rewrite length_map; lia|].
    apply Forall_map. revert Hr. apply Forall_impl. intros v (H1 & H2).
    apply IZR_le in H1, H2. split.
    + apply (Rmult_le_reg_r 32767); [lra|]. unfold Rdiv.
      rewrite !Rmult_assoc, Rinv_l by lra. lra.
    + apply (Rmult_le_reg_r 32767); [lra|]. unfold Rdiv.
      rewrite Rmult_assoc, Rinv_l by lra. lra.
  - destruct (frames_as_elements 2 2 true data (-32768) 32767)
      as (ints & Hf & Hl & Hr); [lia|lia|exact Hd|exact element_int16|].
    cbn [Nat.mul Nat.add] in Hf, Hl. rewrite Hf. cbn [Wav.wav_bind].
    apply (Hmeans (-32768 / 32767) ints 32767 _ Hl).
    apply Forall_map. revert Hr. apply Forall_impl. intros v (H1 & H2).
    apply IZR_le in H1, H2. split.
    + apply (Rmult_le_reg_r 32767); [lra|]. unfold Rdiv.
      rewrite !Rmult_assoc, Rinv_l by lra. lra.
    + apply (Rmult_le_reg_r 32767); [lra|]. unfold Rdiv.
      rewrite Rmult_assoc, Rinv_l by lra. lra.
Qed.

(** X28.  A 24-bit file is read four bytes at a time: for a mono file of
    [n] frames of three bytes, [load_wav] fails on the buffer size unless
    [n] is a multiple of 4, and then returns three samples for every four
    frames. *)
Theorem load_wav_24_bit (wf : Wav.wav_file) (n : nat) :
  Wav.sampwidth wf = 3%Z -> Wav.nchannels wf = 1%Z ->
  length (Wav.audio_data wf) = (3 * n)%nat ->
  ((n mod 4)%nat <> 0%nat -> Wav.load_wav wf = Wav.Fails Wav.BufferSize)
  /\ ((n mod 4)%nat = 0%nat ->
      exists audio,
        Wav.load_wav wf = Wav.Done (audio, Wav.framerate wf, 1%Z)
        /\ length audio = (3 * (n / 4))%nat).
Proof.
  intros Hw Hc Hl. destruct wf as [channels width rate data].
  cbn [Wav.nchannels Wav.sampwidth Wav.framerate Wav.audio_data] in *.
  subst channels width.
  unfold Wav.load_wav, Wav.readframes_all.
  cbn [Wav.nchannels Wav.sampwidth Wav.framerate Wav.audio_data].
  change (Z.to_nat (1 * 3)) with 3%nat.
  change (3 =? 1)%Z with false. change (3 =? 2)%Z with false.
  change (1 =? 2)%Z with false. cbv iota beta.
  assert (E3 : (length data / 3 * 3)%nat = length data).
  { rewrite Hl. replace (3 * n)%nat with (n * 3)%nat by lia.
    rewrite Nat.div_mul by lia. reflexivity. }
  rewrite E3, firstn_all. unfold Wav.frombuffer. rewrite Hl.
  split.
  - intros Hn.
    replace ((3 * n) mod 4 =? 0)%nat with false; [reflexivity|].
    symmetry. apply Nat.eqb_neq. intros E. apply Hn.
    pose proof (Nat.div_mod_eq (3 * n) 4). pose proof (Nat.div_mod_eq n 4).
    pose proof (Nat.mod_upper_bound n 4). lia.
  - intros Hn.
    assert (E : n = (4 * (n / 4))%nat).
    { pose proof (Nat.div_mod_eq n 4). lia. }
    replace ((3 * n) mod 4 =? 0)%nat with true.
    2:{ symmetry. apply Nat.eqb_eq. rewrite E.
        replace (3 * (4 * (n / 4)))%nat with (3 * (n / 4) * 4)%nat by lia.
        apply Nat.Div0.mod_mul. }
    cbn [Wav.wav_bind]. eexists. split; [reflexivity|].
    rewrite length_map, length_map, groups_length.
    rewrite E at 1.
    replace (3 * (4 * (n / 4)))%nat with (3 * (n / 4) * 4)%nat by lia.
    apply Nat.div_mul. lia.
Qed.

End Loading.

Section LoadingExamples.
Open Scope R_scope.

Lemma load_wav_8_16_bit_witness :
  exists audio,
    Wav.load_wav {| Wav.nchannels := 2; Wav.sampwidth := 2;
                    Wav.framerate := 8000;
                    Wav.audio_data := [0; 128; 255; 127; 9]%Z |}
    = Wav.Done (audio, 8000%Z, 2%Z)
    /\ length audio = (length [0; 128; 255; 127; 9]%Z / Z.to_nat (2 * 2))%nat
    /\ Forall (fun y =>
                 (if (2 =? 1)%Z then 0 else -32768 / 32767) <= y /\ y <= 1)
              audio.
Proof.
  apply (load_wav_8_16_bit
           {| Wav.nchannels := 2; Wav.sampwidth := 2; Wav.framerate := 8000;
              Wav.audio_data := [0; 128; 255; 127; 9]%Z |}).
  - repeat (apply Forall_cons; [unfold is_byte; lia|]). apply Forall_nil.
  - right. reflexivity.
  - right. reflexivity.
Defined.

Lemma load_wav_24_bit_witness :
  ((2 mod 4)%nat <> 0%nat ->
   Wav.load_wav {| Wav.nchannels := 1; Wav.sampwidth := 3;
                   Wav.framerate := 48000;
                   Wav.audio_data := [1; 2; 3; 4; 5; 6]%Z |}
   = Wav.Fails Wav.BufferSize)
  /\ ((2 mod 4)%nat = 0%nat ->
      exists audio,
        Wav.load_wav {| Wav.nchannels := 1; Wav.sampwidth := 3;
                        Wav.framerate := 48000;
                        Wav.audio_data := [1; 2; 3; 4; 5; 6]%Z |}
        = Wav.Done (audio, 48000%Z, 1%Z)
        /\ length audio = (3 * (2 / 4))%nat).
Proof.
  apply (load_wav_24_bit
           {| Wav.nchannels := 1; Wav.sampwidth := 3; Wav.framerate := 48000;
              Wav.audio_data := [1; 2; 3; 4; 5; 6]%Z |} 2);
    reflexivity.
Defined.

End LoadingExamples.

(* ------------------------------------------------------------------ *)
(** ** Encoding to a file and decoding from it *)

Section EncodeDecode.
Open Scope R_scope.

(** X29.  What the studio's encode button writes, its decode button reads:
    a plaintext whose UTF-8 encoding has at most 217 bytes, sealed with a
    non-empty password, embedded at any SNR into silence of the length of
    the modulated frame and saved as a WAV file at 44100 Hz, is returned by
    loading the file, extracting and opening with the same password. *)
Theorem studio_encode_decode_file (lib : crypto_backend)
        (plaintext password : str) (data : bytes) (e : entropy) (snr_db : R) :
  utf8_encode plaintext = Ok data ->
  (length data <= 217)%nat ->
  Forall scalar_value plaintext ->
  Forall scalar_value password -> password <> [] ->
  entropy_bytes e ->
  (CRYPTO_AVAILABLE lib = true -> accepts_nonce_12 lib /\ keystream_bytes lib) ->
  exists blob bits stego wf loaded,
    encrypt lib plaintext password e = Ok (blob, entropy_after e)
    /\ Studio.frame_bits blob = Ok bits
    /\ Studio.embed_in_audio snr_db
         (repeat 0 (length (Studio.modulate (spread_bits bits) 44100)))
         blob 44100 = Ok stego
    /\ Wav.save_wav stego 44100 = Wav.Done wf
    /\ Wav.load_wav wf = Wav.Done (loaded, 44100%Z, 1%Z)
    /\ Studio.extract_from_audio loaded 44100 = blob
    /\ forall e',
        decrypt lib (Studio.extract_from_audio loaded 44100) password e'
        = Ok (plaintext, e').
Proof.
  intros Hd Hlen Hp Hpw Hne He Hlib.
  destruct (sealed_blob_opens lib plaintext password data e Hd Hp Hpw Hne He Hlib)
    as (blob & Henc & Hbb & Hbl & Hdec).
  destruct (extract_payload_frame blob Hbb)
    as (bits & Hframe & Hbits & Hnb & _ & Hcut); [rewrite Hbl; lia|].
  destruct (mix_into_silence (Studio.modulate (spread_bits bits) 44100)
              (Studio.signal_amplitude snr_db))
    as (k & Hkpos & Hmix).
  { apply studio_amplitude_positive. }
  { apply modulate_nonempty. lia. }
  destruct (file_of_modulated bits k Hbits) as (wf & loaded & Hs & Hl & _ & Hdm);
    [lia|exact Hkpos|].
  assert (Hex : Studio.extract_from_audio loaded 44100 = firstn 256 blob).
  { unfold Studio.extract_from_audio. rewrite Hdm. exact Hcut. }
  exists blob, bits, (vec_scale (Studio.modulate (spread_bits bits) 44100) k),
    wf, loaded.
  split; [exact Henc|]. split; [exact Hframe|]. split.
  { unfold Studio.embed_in_audio. rewrite Hframe. cbn [bind]. exact Hmix. }
  split; [exact Hs|]. split; [exact Hl|]. split.
  { rewrite Hex. apply firstn_all2. lia. }
  intros e'. rewrite Hex, Hdec, firstn_all2 by exact Hlen.
  rewrite (utf8_decode_encode _ _ Hd). reflexivity.
Qed.

End EncodeDecode.

Section EncodeDecodeExamples.
Open Scope R_scope.

Lemma studio_encode_decode_file_witness :
  exists blob bits stego wf loaded,
    encrypt no_cryptography [104; 105]%Z [107]%Z counting_entropy
    = Ok (blob, entropy_after counting_entropy)
    /\ Studio.frame_bits blob = Ok bits
    /\ Studio.embed_in_audio (-20)
         (repeat 0 (length (Studio.modulate (spread_bits bits) 44100)))
         blob 44100 = Ok stego
    /\ Wav.save_wav stego 44100 = Wav.Done wf
    /\ Wav.load_wav wf = Wav.Done (loaded, 44100%Z, 1%Z)
    /\ Studio.extract_from_audio loaded 44100 = blob
    /\ forall e',
        decrypt no_cryptography (Studio.extract_from_audio loaded 44100)
          [107]%Z e'
        = Ok ([104; 105]%Z, e').
Proof.
  apply (studio_encode_decode_file no_cryptography [104; 105]%Z [107]%Z
           [104; 105]%Z counting_entropy (-20)).
  - reflexivity.
  - simpl. lia.
  - apply ascii_scalar_values.
    repeat (apply Forall_cons; [lia|]). apply Forall_nil.
  - apply ascii_scalar_values.
    repeat (apply Forall_cons; [lia|]). apply Forall_nil.
  - discriminate.
  - exact counting_entropy_bytes.
  - discriminate.
Defined.

End EncodeDecodeExamples.
